(** * SmartTravel: the client-side request governance layer

    A shallow embedding of
    - [services/rateLimitService.ts]  (class [RateLimitService]),
    - [services/cityAutocompleteService.ts]  ([CacheManager], [RateLimiter],
      [getAutocompleteResults], [deduplicateResults], [getAutocompleteStats]),
    - [services/cityService.ts]  (the catalogue, [searchDestinations] and the
      suggestions),
    - [services/geminiService.ts]  ([retryWithBackoff], [getTravelAnalysis]),
    - [security.config.ts]  (the sanitizers),
    - [api/geocoding.ts]  (the limiter of the proxy),
    the properties of the specification that concern them (C1 to C10), and
    further properties of the code (X1 to X30).

    Conventions.
    - [Date.now()] is a field [clock] of the state: virtual time, in
      milliseconds, which only the event [Advance] moves.
    - JavaScript numbers that hold integers (timestamps, sizes, counters) are
      [Z]; those that can be fractional (the tokens of a bucket, the average
      size of a request, a confidence) are rationals [Q], and the arithmetic
      of the source on them is taken as exact.
    - Mutable fields of the singleton objects are fields of a state record,
      threaded explicitly; a [Map] is a [gmap].
    - In [geminiService.ts] an [await] of the network or of a backoff wait
      suspends the caller: the timers of the rate limiter and the other
      callers run in the meantime, as events on the state it shares with
      them.  The hand-over of a settled promise to the code that awaits it
      is taken as immediate. *)

From Stdlib Require Import ZArith QArith Qminmax Qround Lia Lqa Ascii String.
From stdpp Require Import gmap strings list fin_maps pretty sorting.

Local Open Scope Z_scope.

(** ** Numbers *)

(** [Math.ceil(a / b)] for an integer [a] and a positive integer [b]. *)
Definition ceilDiv (a b : Z) : Z := - ((- a) / b).

(** [x < y] on rationals, as a boolean. *)
Definition Qltb (x y : Q) : bool := negb (Qle_bool y x).

(** ** services/rateLimitService.ts *)

Module RateLimitService.

Record RequestLog := {
  timestamp : Z;
  logIp : string;
  logSize : Z;
  endpoint : string
}.

Record RateLimitConfig := {
  maxRequestsPerMinute : Z;
  maxRequestsPerHour : Z;
  maxRequestSize : Z;
  bucketCapacity : Q;
  refillRate : Q;
  blockDurationMinutes : Z;
  suspiciousThreshold : Z
}.

Inductive BreakerState := CLOSED | OPEN | HALF_OPEN.

Record CircuitBreakerState := {
  failures : Z;
  lastFailureTime : Z;
  state : BreakerState
}.

Record TokenBucket := { tokens : Q; lastRefill : Z }.

(** The private fields of the singleton, with the clock and the value of
    [getClientIP()] (a hash of browser properties, fixed for a session). *)
Record Service := {
  clock : Z;
  clientIP : string;
  requestLogs : gmap string (list RequestLog);
  tokenBuckets : gmap string TokenBucket;
  blockedIPs : gmap string Z;
  circuitBreaker : CircuitBreakerState
}.

Definition config : RateLimitConfig := {|
  maxRequestsPerMinute := 10;
  maxRequestsPerHour := 100;
  maxRequestSize := 50000;
  bucketCapacity := 20;
  refillRate := 0.5;
  blockDurationMinutes := 15;
  suspiciousThreshold := 5
|}.

(** The state of a freshly constructed service. *)
Definition initial (now : Z) (ip : string) : Service := {|
  clock := now;
  clientIP := ip;
  requestLogs := ∅;
  tokenBuckets := ∅;
  blockedIPs := ∅;
  circuitBreaker := {| failures := 0; lastFailureTime := 0; state := CLOSED |}
|}.

Definition BreakerState_eqb (a b : BreakerState) : bool :=
  match a, b with
  | CLOSED, CLOSED | OPEN, OPEN | HALF_OPEN, HALF_OPEN => true
  | _, _ => false
  end.

Definition set_clock (t : Z) (s : Service) : Service :=
  {| clock := t; clientIP := clientIP s; requestLogs := requestLogs s;
     tokenBuckets := tokenBuckets s; blockedIPs := blockedIPs s;
     circuitBreaker := circuitBreaker s |}.

Definition set_requestLogs (m : gmap string (list RequestLog)) (s : Service) : Service :=
  {| clock := clock s; clientIP := clientIP s; requestLogs := m;
     tokenBuckets := tokenBuckets s; blockedIPs := blockedIPs s;
     circuitBreaker := circuitBreaker s |}.

Definition set_tokenBuckets (m : gmap string TokenBucket) (s : Service) : Service :=
  {| clock := clock s; clientIP := clientIP s; requestLogs := requestLogs s;
     tokenBuckets := m; blockedIPs := blockedIPs s;
     circuitBreaker := circuitBreaker s |}.

Definition set_blockedIPs (m : gmap string Z) (s : Service) : Service :=
  {| clock := clock s; clientIP := clientIP s; requestLogs := requestLogs s;
     tokenBuckets := tokenBuckets s; blockedIPs := m;
     circuitBreaker := circuitBreaker s |}.

Definition set_circuitBreaker (cb : CircuitBreakerState) (s : Service) : Service :=
  {| clock := clock s; clientIP := clientIP s; requestLogs := requestLogs s;
     tokenBuckets := tokenBuckets s; blockedIPs := blockedIPs s;
     circuitBreaker := cb |}.

Definition getClientIP (s : Service) : string := clientIP s.

(** [isIPBlocked]: a missing (or falsy, that is 0) expiry is not a block; an
    expired entry is deleted on the way. *)
Definition isIPBlocked (ip : string) (s : Service) : bool * Service :=
  match blockedIPs s !! ip with
  | None => (false, s)
  | Some blockExpiry =>
      if blockExpiry =? 0 then (false, s)
      else if clock s >? blockExpiry
           then (false, set_blockedIPs (delete ip (blockedIPs s)) s)
           else (true, s)
  end.

Definition blockIP (ip : string) (s : Service) : Service :=
  let blockUntil := clock s + blockDurationMinutes config * 60 * 1000 in
  set_blockedIPs (<[ip := blockUntil]> (blockedIPs s)) s.

(** The refill of [checkTokenBucket]: tokens for the time passed, capped at
    the capacity, and the bucket stamped with the time of the call. *)
Definition refill (now : Z) (bucket : TokenBucket) : TokenBucket :=
  let timePassed := (inject_Z (now - lastRefill bucket) / 1000)%Q in
  let tokensToAdd := (timePassed * refillRate config)%Q in
  {| tokens := Qmin (bucketCapacity config) (tokens bucket + tokensToAdd);
     lastRefill := now |}.

(** The bucket [checkTokenBucket] works on: the stored one, or a full one
    created for a new identity. *)
Definition bucketOf (ip : string) (s : Service) : TokenBucket :=
  match tokenBuckets s !! ip with
  | Some bucket => bucket
  | None => {| tokens := bucketCapacity config; lastRefill := clock s |}
  end.

Definition consume (bucket : TokenBucket) : TokenBucket :=
  {| tokens := (tokens bucket - 1)%Q; lastRefill := lastRefill bucket |}.

(** The bucket is an object held by the map and mutated in place: every
    assignment to it is visible in [tokenBuckets]. *)
Definition checkTokenBucket (ip : string) (s : Service) : bool * Service :=
  let now := clock s in
  let bucket := refill now (bucketOf ip s) in
  if Qle_bool 1 (tokens bucket)
  then (true, set_tokenBuckets (<[ip := consume bucket]> (tokenBuckets s)) s)
  else (false, set_tokenBuckets (<[ip := bucket]> (tokenBuckets s)) s).

Definition sumSizes (logs : list RequestLog) : Z :=
  fold_left (fun sum log => sum + logSize log) logs 0.

Definition checkSuspiciousPatterns (ip : string) (logs : list RequestLog)
    (s : Service) : bool :=
  let now := clock s in
  let recentRequests := List.filter (fun log => now - timestamp log <? 10000) logs in
  if Z.of_nat (length recentRequests) >=? suspiciousThreshold config then true
  else
    let avgSize :=
      if (0 <? length logs)%nat
      then (inject_Z (sumSizes logs) / inject_Z (Z.of_nat (length logs)))%Q
      else 0%Q in
    match last logs with
    | Some lastRequest =>
        Qltb (avgSize * 3) (inject_Z (logSize lastRequest))
        && (logSize lastRequest >? 10000)
    | None => false
    end.

Definition updateCircuitBreaker (s : Service) : Service :=
  let now := clock s in
  let cb := circuitBreaker s in
  let timeSinceLastFailure := now - lastFailureTime cb in
  match state cb with
  | OPEN =>
      if timeSinceLastFailure >? 5 * 60 * 1000
      then set_circuitBreaker
             {| failures := failures cb; lastFailureTime := lastFailureTime cb;
                state := HALF_OPEN |} s
      else s
  | HALF_OPEN =>
      if timeSinceLastFailure >? 10 * 60 * 1000
      then set_circuitBreaker
             {| failures := 0; lastFailureTime := lastFailureTime cb;
                state := CLOSED |} s
      else s
  | CLOSED => s
  end.

Definition recordFailure (s : Service) : Service :=
  let cb := circuitBreaker s in
  let failures' := failures cb + 1 in
  let state' :=
    if (failures' >=? 5) && BreakerState_eqb (state cb) CLOSED then OPEN
    else if BreakerState_eqb (state cb) HALF_OPEN then OPEN
    else state cb in
  set_circuitBreaker
    {| failures := failures'; lastFailureTime := clock s; state := state' |} s.

Definition isCircuitBreakerOpen (s : Service) : bool :=
  BreakerState_eqb (state (circuitBreaker s)) OPEN.

Record RateLimitResult := {
  allowed : bool;
  reason : option string;
  retryAfter : option Z
}.

Definition reject (why : string) (after : option Z) : RateLimitResult :=
  {| allowed := false; reason := Some why; retryAfter := after |}.

Definition allow : RateLimitResult :=
  {| allowed := true; reason := None; retryAfter := None |}.

Definition msgCircuitOpen : string :=
  "Service temporarily unavailable due to high error rate. Please try again later.".
Definition msgBlocked : string :=
  "Your IP address has been temporarily blocked due to excessive requests.".
Definition msgTooLarge : string :=
  "Request payload too large. Please reduce the amount of data being sent.".
Definition msgBurst : string :=
  "Too many requests too quickly. Please wait a moment and try again.".
Definition msgPerMinute : string :=
  "Rate limit exceeded: too many requests per minute.".
Definition msgPerHour : string :=
  "Rate limit exceeded: too many requests per hour.".
Definition msgSuspicious : string :=
  "Suspicious activity detected. Your IP has been temporarily blocked.".

Definition logsOf (ip : string) (s : Service) : list RequestLog :=
  default [] (requestLogs s !! ip).

Definition checkRateLimit (requestSize : Z) (endpoint : string) (s : Service)
    : RateLimitResult * Service :=
  let ip := getClientIP s in
  let now := clock s in
  if isCircuitBreakerOpen s then (reject msgCircuitOpen (Some 300), s)
  else
    let '(blocked, s) := isIPBlocked ip s in
    if blocked then
      (reject msgBlocked
         ((fun blockExpiry => ceilDiv (blockExpiry - now) 1000) <$> blockedIPs s !! ip),
       s)
    else if requestSize >? maxRequestSize config then (reject msgTooLarge None, s)
    else
      let logs := logsOf ip s in
      let '(hasToken, s) := checkTokenBucket ip s in
      if negb hasToken then (reject msgBurst (Some 60), s)
      else
        let oneMinuteAgo := now - 60 * 1000 in
        let oneHourAgo := now - 60 * 60 * 1000 in
        let requestsLastMinute :=
          length (List.filter (fun log => timestamp log >? oneMinuteAgo) logs) in
        let requestsLastHour :=
          length (List.filter (fun log => timestamp log >? oneHourAgo) logs) in
        if Z.of_nat requestsLastMinute >=? maxRequestsPerMinute config
        then (reject msgPerMinute (Some 60), s)
        else if Z.of_nat requestsLastHour >=? maxRequestsPerHour config
        then (reject msgPerHour (Some 3600), s)
        else if checkSuspiciousPatterns ip logs s
        then (reject msgSuspicious (Some (blockDurationMinutes config * 60)),
              blockIP ip s)
        else
          let requestLog :=
            {| timestamp := now; logIp := ip; logSize := requestSize;
               endpoint := endpoint |} in
          (allow, set_requestLogs (<[ip := logs ++ [requestLog]]> (requestLogs s)) s).

Definition cleanupOldLogs (s : Service) : Service :=
  let cutoff := clock s - 2 * 60 * 60 * 1000 in
  let logs' :=
    omap (fun logs =>
            match List.filter (fun log => timestamp log >? cutoff) logs with
            | [] => None
            | filteredLogs => Some filteredLogs
            end) (requestLogs s) in
  let buckets' :=
    filter (fun kv => ¬ (clock s - lastRefill (snd kv) > 2 * 60 * 60 * 1000))
           (tokenBuckets s) in
  let blocked' := filter (fun kv => ¬ (clock s > snd kv)) (blockedIPs s) in
  set_blockedIPs blocked' (set_tokenBuckets buckets' (set_requestLogs logs' s)).

Definition reset (s : Service) : Service :=
  let ip := getClientIP s in
  set_blockedIPs (delete ip (blockedIPs s))
    (set_tokenBuckets (delete ip (tokenBuckets s))
       (set_requestLogs (delete ip (requestLogs s)) s)).

Record Status := {
  currentIP : string;
  isBlocked : bool;
  requestsLastMinute : Z;
  requestsLastHour : Z;
  tokensAvailable : Z;
  circuitBreakerState : BreakerState
}.

(** [getStatus], for the debug panel; it reads, but [isIPBlocked] may evict
    an expired block on the way. *)
Definition getStatus (s : Service) : Status * Service :=
  let ip := getClientIP s in
  let now := clock s in
  let logs := logsOf ip s in
  let bucket := tokenBuckets s !! ip in
  let '(blocked, s') := isIPBlocked ip s in
  ({| currentIP := ip;
      isBlocked := blocked;
      requestsLastMinute :=
        Z.of_nat (length (List.filter (fun log => now - timestamp log <? 60 * 1000) logs));
      requestsLastHour :=
        Z.of_nat (length (List.filter (fun log => now - timestamp log <? 60 * 60 * 1000) logs));
      tokensAvailable :=
        match bucket with
        | Some bucket => Qfloor (tokens bucket)
        | None => Qfloor (bucketCapacity config)
        end;
      circuitBreakerState := state (circuitBreaker s) |},
   s').

(** *** Events

    What can happen to the singleton: virtual time passes, a caller asks
    for admission or reports a failure, one of the two interval timers of
    the constructor fires, or the debug panel reads the status or resets the
    client. *)
Inductive Event :=
| Advance (d : Z)
| CheckRateLimit (requestSize : Z) (endpoint : string)
| RecordFailure
| TimerUpdateCircuitBreaker
| TimerCleanupOldLogs
| GetStatus
| Reset.

Definition step (e : Event) (s : Service) : Service :=
  match e with
  | Advance d => set_clock (clock s + d) s
  | CheckRateLimit requestSize endpoint => snd (checkRateLimit requestSize endpoint s)
  | RecordFailure => recordFailure s
  | TimerUpdateCircuitBreaker => updateCircuitBreaker s
  | TimerCleanupOldLogs => cleanupOldLogs s
  | GetStatus => snd (getStatus s)
  | Reset => reset s
  end.

Definition run (es : list Event) (s : Service) : Service :=
  fold_left (fun s e => step e s) es s.

(** Time does not run backwards. *)
Definition admissible (e : Event) : Prop :=
  match e with
  | Advance d => 0 <= d
  | _ => True
  end.

Inductive reachable : Service -> Prop :=
| reachable_initial now ip : reachable (initial now ip)
| reachable_step e s : reachable s -> admissible e -> reachable (step e s).

(** The answers of consecutive admission checks with no event in between. *)
Fixpoint checkRateLimitTimes (n : nat) (requestSize : Z) (endpoint : string)
    (s : Service) : list RateLimitResult * Service :=
  match n with
  | O => ([], s)
  | S n =>
      let '(r, s) := checkRateLimit requestSize endpoint s in
      let '(rs, s) := checkRateLimitTimes n requestSize endpoint s in
      (r :: rs, s)
  end.

(** The same, each request with its own payload size and endpoint. *)
Fixpoint checkRateLimitEach (requests : list (Z * string)) (s : Service)
    : list RateLimitResult * Service :=
  match requests with
  | [] => ([], s)
  | (requestSize, endpoint) :: requests =>
      let '(r, s) := checkRateLimit requestSize endpoint s in
      let '(rs, s) := checkRateLimitEach requests s in
      (r :: rs, s)
  end.

Fixpoint checkTokenBucketTimes (n : nat) (ip : string) (s : Service)
    : list bool * Service :=
  match n with
  | O => ([], s)
  | S n =>
      let '(b, s) := checkTokenBucket ip s in
      let '(bs, s) := checkTokenBucketTimes n ip s in
      (b :: bs, s)
  end.

(** *** The admission contract, in the words of the specification

    Seven checks on the state in which the call starts, in this order; the
    first one that fails decides. *)
Inductive Check :=
| CircuitOpen | IdentityBlocked | PayloadTooLarge | TokenBucketEmpty
| PerMinute | PerHour | SuspiciousPattern.

Definition evaluationOrder : list Check :=
  [CircuitOpen; IdentityBlocked; PayloadTooLarge; TokenBucketEmpty;
   PerMinute; PerHour; SuspiciousPattern].

(** The expiry of a block that is in force. *)
Definition blockInForce (s : Service) : option Z :=
  match blockedIPs s !! clientIP s with
  | Some expiry => if (expiry =? 0) || (clock s >? expiry) then None else Some expiry
  | None => None
  end.

(** Tokens in the identity's bucket once refilled for the time passed. *)
Definition tokensAfterRefill (s : Service) : Q :=
  tokens (refill (clock s) (bucketOf (clientIP s) s)).

(** Requests of the identity logged in the trailing window. *)
Definition countSince (windowMs : Z) (s : Service) : Z :=
  Z.of_nat (length (List.filter (fun log => timestamp log >? clock s - windowMs)
                                (logsOf (clientIP s) s))).

Definition fails (c : Check) (requestSize : Z) (s : Service) : bool :=
  match c with
  | CircuitOpen => BreakerState_eqb (state (circuitBreaker s)) OPEN
  | IdentityBlocked => bool_decide (is_Some (blockInForce s))
  | PayloadTooLarge => requestSize >? 50000
  | TokenBucketEmpty => Qltb (tokensAfterRefill s) 1
  | PerMinute => countSince 60000 s >=? 10
  | PerHour => countSince 3600000 s >=? 100
  | SuspiciousPattern =>
      checkSuspiciousPatterns (clientIP s) (logsOf (clientIP s) s) s
  end.

Definition firstFailing (requestSize : Z) (s : Service) : option Check :=
  List.find (fun c => fails c requestSize s) evaluationOrder.

Definition remainingBlockTime (s : Service) : option Z :=
  (fun expiry => ceilDiv (expiry - clock s) 1000) <$> blockInForce s.

Definition verdict (c : Check) (s : Service) : RateLimitResult :=
  match c with
  | CircuitOpen => reject msgCircuitOpen (Some 300)
  | IdentityBlocked => reject msgBlocked (remainingBlockTime s)
  | PayloadTooLarge => reject msgTooLarge None
  | TokenBucketEmpty => reject msgBurst (Some 60)
  | PerMinute => reject msgPerMinute (Some 60)
  | PerHour => reject msgPerHour (Some 3600)
  | SuspiciousPattern => reject msgSuspicious (Some 900)
  end.

Definition admission (requestSize : Z) (s : Service) : RateLimitResult :=
  match firstFailing requestSize s with
  | Some c => verdict c s
  | None => allow
  end.

Definition newLogEntry (requestSize : Z) (endpoint : string) (s : Service)
    : RequestLog :=
  {| timestamp := clock s; logIp := clientIP s; logSize := requestSize;
     endpoint := endpoint |}.

(** The state in which a check is evaluated: the checks before it have had
    their effects (an expired block evicted, the bucket refilled and
    charged), the checks after it have had none. *)
Definition afterBlockCheck (s : Service) : Service :=
  snd (isIPBlocked (clientIP s) s).

Definition afterBucketCheck (s : Service) : Service :=
  snd (checkTokenBucket (clientIP s) (afterBlockCheck s)).

Definition afterCheckRateLimit (requestSize : Z) (endpoint : string)
    (s : Service) : Service :=
  match firstFailing requestSize s with
  | Some CircuitOpen | Some IdentityBlocked => s
  | Some PayloadTooLarge => afterBlockCheck s
  | Some TokenBucketEmpty | Some PerMinute | Some PerHour => afterBucketCheck s
  | Some SuspiciousPattern => blockIP (clientIP s) (afterBucketCheck s)
  | None =>
      set_requestLogs
        (<[clientIP s := logsOf (clientIP s) s ++ [newLogEntry requestSize endpoint s]]>
           (requestLogs s))
        (afterBucketCheck s)
  end.

(** *** The bucket invariant *)
Definition bucketOk (now : Z) (b : TokenBucket) : Prop :=
  (0 <= tokens b)%Q /\ (tokens b <= bucketCapacity config)%Q /\ lastRefill b <= now.

Definition bucketsOk (s : Service) : Prop :=
  forall ip b, tokenBuckets s !! ip = Some b -> bucketOk (clock s) b.

(** *** Scenarios *)

(** Five minutes of virtual time, the timers of the constructor firing when
    they are due: [updateCircuitBreaker] every minute, [cleanupOldLogs] every
    five. *)
Definition fiveMinutes : list Event :=
  [Advance 60000; TimerUpdateCircuitBreaker;
   Advance 60000; TimerUpdateCircuitBreaker;
   Advance 60000; TimerUpdateCircuitBreaker;
   Advance 60000; TimerUpdateCircuitBreaker;
   Advance 60000; TimerCleanupOldLogs; TimerUpdateCircuitBreaker].


(** Ten requests, one every three seconds. *)
Definition tenRequestsInAMinute : list Event :=
  concat (repeat [CheckRateLimit 100 "gemini-api"; Advance 3000] 10).

(** A request every seven seconds, for [n] requests: never ten in a minute,
    never five in ten seconds. *)
Definition steadyRequests (n : nat) : list Event :=
  concat (repeat [CheckRateLimit 100 "gemini-api"; Advance 7000] n).

(** Twenty-one requests of one size at one instant. *)
Definition identicalRequests : list (Z * string) :=
  repeat (100, "gemini-api"%string) 21.

(** Twenty-one requests at one instant, the fourth with a payload of more
    than three times the first three together. *)
Definition burstWithLargePayload : list (Z * string) :=
  [(1, "gemini-api"%string); (1, "gemini-api"%string); (1, "gemini-api"%string);
   (40000, "gemini-api"%string)]
  ++ repeat (100, "gemini-api"%string) 17.

(** A request, after which the clock of the machine is set back a minute. *)
Definition clockSetBack : list Event :=
  [CheckRateLimit 100 "gemini-api"; Advance (-60000)].

(** Three small requests, and two hours later a large one: its size is more
    than three times the average of the four, but not of itself alone. *)
Definition staleSmallRequests : list Event :=
  [CheckRateLimit 1 "gemini-api"; Advance 7000;
   CheckRateLimit 1 "gemini-api"; Advance 7000;
   CheckRateLimit 1 "gemini-api"; Advance 7200000;
   CheckRateLimit 40000 "gemini-api"; Advance 11000].

(** A large request, and two hours later eight small ones and one of
    20000: its size is more than three times the average of the last nine,
    but not of all ten. *)
Definition staleLargeRequest : list Event :=
  [CheckRateLimit 50000 "gemini-api"; Advance 7200000]
  ++ concat (repeat [CheckRateLimit 1 "gemini-api"; Advance 7000] 8)
  ++ [CheckRateLimit 20000 "gemini-api"; Advance 11000].

(** The state of a burst: the requests of [requests] let through at one
    instant, in this order, nothing else known about the identity. *)
Definition burstLog (now : Z) (ip : string) (requests : list (Z * string))
    (s : Service) : Prop :=
  clock s = now /\ clientIP s = ip /\
  state (circuitBreaker s) = CLOSED /\
  blockedIPs s !! ip = None /\
  logsOf ip s
  = map (fun request => newLogEntry (fst request) (snd request) (initial now ip))
        requests /\
  lastRefill (bucketOf ip s) = now /\
  (tokens (bucketOf ip s) == inject_Z (Z.of_nat (20 - length requests)))%Q.

Definition blockedState (now : Z) (ip : string) (s : Service) : Prop :=
  clock s = now /\ clientIP s = ip /\ state (circuitBreaker s) = CLOSED /\
  blockedIPs s !! ip = Some (now + 900000).

(** *** [getClientIP]: the hash of the browser properties

    [charCodeAt] on the ASCII range, where a byte of the string is a code
    unit of JavaScript's. *)

(** [ToInt32]: the value of a number as a signed 32-bit integer. *)
Definition toInt32 (x : Z) : Z := (x + 2 ^ 31) mod 2 ^ 32 - 2 ^ 31.

(** One turn of the loop: [hash = ((hash << 5) - hash) + char;
    hash = hash & hash]. *)
Definition hashStep (hash char : Z) : Z :=
  let hash := toInt32 (Z.shiftl hash 5) - hash + char in
  toInt32 (Z.land hash hash).

Definition charCodes (combined : string) : list Z :=
  map (fun c => Z.of_N (N_of_ascii c)) (list_ascii_of_string combined).

Definition hashOf (combined : string) : Z :=
  fold_left hashStep (charCodes combined) 0.

(** The identity computed from [navigator.userAgent], [navigator.language],
    the screen size and the time zone. *)
Definition clientIdOf (factors : list string) : string :=
  "client_" +:+ pretty (Z.abs (hashOf (String.concat "|" factors))).

(** *** Invariants of the reachable states *)

Definition breakerOk (s : Service) : Prop :=
  0 <= failures (circuitBreaker s) /\
  (state (circuitBreaker s) = CLOSED <-> failures (circuitBreaker s) < 5).

Definition windowsOk (s : Service) : Prop :=
  countSince 10000 s <= 5 /\ countSince 60000 s <= 10 /\ countSince 3600000 s <= 100.

Definition blocksOk (s : Service) : Prop :=
  forall ip expiry, blockedIPs s !! ip = Some expiry -> expiry <= clock s + 900000.

End RateLimitService.


(** ** JavaScript strings and arrays

    [toLowerCase] and [trim] on the ASCII range, where they agree with
    JavaScript's; other bytes are left as they are. *)

Definition lowerChar (c : ascii) : ascii :=
  if (Ascii.leb "A" c && Ascii.leb c "Z")%bool
  then ascii_of_N (N_of_ascii c + 32)
  else c.

Fixpoint toLowerCase (s : string) : string :=
  match s with
  | EmptyString => EmptyString
  | String c rest => String (lowerChar c) (toLowerCase rest)
  end.

Definition isWhiteSpace (c : ascii) : bool :=
  (Ascii.eqb c " " || Ascii.eqb c "009" || Ascii.eqb c "010" || Ascii.eqb c "011"
   || Ascii.eqb c "012" || Ascii.eqb c "013")%bool.

Fixpoint trimStart (s : string) : string :=
  match s with
  | String c rest => if isWhiteSpace c then trimStart rest else s
  | EmptyString => EmptyString
  end.

Fixpoint trimEnd (s : string) : string :=
  match s with
  | EmptyString => EmptyString
  | String c rest =>
      match trimEnd rest with
      | EmptyString => if isWhiteSpace c then EmptyString else String c EmptyString
      | rest' => String c rest'
      end
  end.

Definition trim (s : string) : string := trimEnd (trimStart s).

(** [s.includes(needle)] *)
Definition includes (needle s : string) : bool :=
  bool_decide (is_Some (String.index 0 needle s)).

(** [xs.slice(0, n)]: the first [n] elements, or for a negative [n] all but
    the last [-n]. *)
Definition slice0 {A} (n : Z) (xs : list A) : list A :=
  if 0 <=? n then take (Z.to_nat n) xs
  else take (length xs - Z.to_nat (- n)) xs.

(** [xs.findIndex(p)], with [None] for -1. *)
Fixpoint findIndex {A} (p : A -> bool) (xs : list A) : option nat :=
  match xs with
  | [] => None
  | x :: rest => if p x then Some O else S <$> findIndex p rest
  end.

(** [xs.sort(compare)]: the sort of the language is stable; [compare a b]
    negative or zero leaves [a] before [b]. *)
Fixpoint insertSorted {A} (compare : A -> A -> Q) (a : A) (sorted : list A) : list A :=
  match sorted with
  | [] => [a]
  | b :: rest =>
      if Qle_bool (compare a b) 0 then a :: sorted
      else b :: insertSorted compare a rest
  end.

Definition sortBy {A} (compare : A -> A -> Q) (xs : list A) : list A :=
  foldr (insertSorted compare) [] xs.

(** [s.startsWith(prefix)] *)
Definition startsWith (prefix s : string) : bool := String.prefix prefix s.

(** [s.split(/\s+/)]: the pieces of [s] between its runs of white space,
    the empty pieces at either end included.  [current] is the piece being
    read, in reverse; [inRun] tells that the last character was white
    space. *)
Fixpoint splitLoop (s : string) (current : list ascii) (inRun : bool) : list string :=
  match s with
  | EmptyString => [string_of_list_ascii (rev current)]
  | String c rest =>
      if isWhiteSpace c then
        if inRun then splitLoop rest current true
        else string_of_list_ascii (rev current) :: splitLoop rest [] true
      else splitLoop rest (c :: current) false
  end.

Definition splitWhiteSpace (s : string) : list string := splitLoop s [] false.

(** ** services/cityService.ts: the local catalogue and its searches *)

Module CityService.

Inductive CityType := City | Country | Region.

Record CityResult := {
  name : string;
  country : string;
  displayName : string;
  type : CityType;
  popularity : Z
}.

(** The catalogue, entry for entry. *)
Definition entry (name country displayName : string) (type : CityType)
    (popularity : Z) : CityResult :=
  {| name := name; country := country; displayName := displayName; type := type;
     popularity := popularity |}.

Definition POPULAR_DESTINATIONS : list CityResult := [
  (* European Cities *)
  entry "Roma" "Italia" "Roma, Italia" City 10;
  entry "Milano" "Italia" "Milano, Italia" City 9;
  entry "Venezia" "Italia" "Venezia, Italia" City 9;
  entry "Firenze" "Italia" "Firenze, Italia" City 9;
  entry "Napoli" "Italia" "Napoli, Italia" City 8;
  entry "Palermo" "Italia" "Palermo, Italia" City 7;
  entry "Bologna" "Italia" "Bologna, Italia" City 7;
  entry "Torino" "Italia" "Torino, Italia" City 7;
  entry "Parigi" "Francia" "Parigi, Francia" City 10;
  entry "Londra" "Regno Unito" "Londra, Regno Unito" City 10;
  entry "Barcellona" "Spagna" "Barcellona, Spagna" City 9;
  entry "Madrid" "Spagna" "Madrid, Spagna" City 9;
  entry "Amsterdam" "Paesi Bassi" "Amsterdam, Paesi Bassi" City 9;
  entry "Berlino" "Germania" "Berlino, Germania" City 8;
  entry "Monaco" "Germania" "Monaco, Germania" City 8;
  entry "Vienna" "Austria" "Vienna, Austria" City 8;
  entry "Praga" "Repubblica Ceca" "Praga, Repubblica Ceca" City 8;
  entry "Budapest" "Ungheria" "Budapest, Ungheria" City 8;
  entry "Lisbona" "Portogallo" "Lisbona, Portogallo" City 8;
  entry "Dublino" "Irlanda" "Dublino, Irlanda" City 7;
  entry "Edimburgo" "Scozia" "Edimburgo, Scozia" City 7;
  entry "Stoccolma" "Svezia" "Stoccolma, Svezia" City 7;
  entry "Copenaghen" "Danimarca" "Copenaghen, Danimarca" City 7;
  entry "Oslo" "Norvegia" "Oslo, Norvegia" City 6;
  entry "Helsinki" "Finlandia" "Helsinki, Finlandia" City 6;
  entry "Zurigo" "Svizzera" "Zurigo, Svizzera" City 7;
  entry "Atene" "Grecia" "Atene, Grecia" City 8;
  entry "Istanbul" "Turchia" "Istanbul, Turchia" City 8;
  (* North America *)
  entry "New York" "Stati Uniti" "New York, Stati Uniti" City 10;
  entry "Los Angeles" "Stati Uniti" "Los Angeles, Stati Uniti" City 9;
  entry "San Francisco" "Stati Uniti" "San Francisco, Stati Uniti" City 8;
  entry "Las Vegas" "Stati Uniti" "Las Vegas, Stati Uniti" City 8;
  entry "Miami" "Stati Uniti" "Miami, Stati Uniti" City 8;
  entry "Chicago" "Stati Uniti" "Chicago, Stati Uniti" City 7;
  entry "Toronto" "Canada" "Toronto, Canada" City 7;
  entry "Vancouver" "Canada" "Vancouver, Canada" City 7;
  entry "Montreal" "Canada" "Montreal, Canada" City 6;
  (* Asia *)
  entry "Tokyo" "Giappone" "Tokyo, Giappone" City 10;
  entry "Bangkok" "Tailandia" "Bangkok, Tailandia" City 9;
  entry "Singapore" "Singapore" "Singapore" City 9;
  entry "Hong Kong" "Cina" "Hong Kong, Cina" City 9;
  entry "Seoul" "Corea del Sud" "Seoul, Corea del Sud" City 8;
  entry "Kyoto" "Giappone" "Kyoto, Giappone" City 8;
  entry "Osaka" "Giappone" "Osaka, Giappone" City 7;
  entry "Kuala Lumpur" "Malesia" "Kuala Lumpur, Malesia" City 7;
  entry "Mumbai" "India" "Mumbai, India" City 7;
  entry "Delhi" "India" "Delhi, India" City 7;
  entry "Dubai" "Emirati Arabi Uniti" "Dubai, Emirati Arabi Uniti" City 9;
  entry "Doha" "Qatar" "Doha, Qatar" City 6;
  (* Oceania *)
  entry "Sydney" "Australia" "Sydney, Australia" City 9;
  entry "Melbourne" "Australia" "Melbourne, Australia" City 8;
  entry "Auckland" "Nuova Zelanda" "Auckland, Nuova Zelanda" City 7;
  (* South America *)
  entry "Rio de Janeiro" "Brasile" "Rio de Janeiro, Brasile" City 9;
  entry "Buenos Aires" "Argentina" "Buenos Aires, Argentina" City 8;
  entry "São Paulo" "Brasile" "São Paulo, Brasile" City 7;
  entry "Lima" "Perù" "Lima, Perù" City 7;
  entry "Santiago" "Cile" "Santiago, Cile" City 6;
  (* Africa *)
  entry "Il Cairo" "Egitto" "Il Cairo, Egitto" City 8;
  entry "Marrakech" "Marocco" "Marrakech, Marocco" City 8;
  entry "Città del Capo" "Sudafrica" "Città del Capo, Sudafrica" City 8;
  entry "Casablanca" "Marocco" "Casablanca, Marocco" City 6;
  (* Popular Countries for broader searches *)
  entry "Italia" "Europa" "Italia" Country 10;
  entry "Francia" "Europa" "Francia" Country 10;
  entry "Spagna" "Europa" "Spagna" Country 9;
  entry "Grecia" "Europa" "Grecia" Country 9;
  entry "Giappone" "Asia" "Giappone" Country 9;
  entry "Tailandia" "Asia" "Tailandia" Country 9;
  entry "Stati Uniti" "Nord America" "Stati Uniti" Country 10;
  entry "Regno Unito" "Europa" "Regno Unito" Country 9;
  entry "Germania" "Europa" "Germania" Country 8;
  entry "Australia" "Oceania" "Australia" Country 8;
  entry "Brasile" "Sud America" "Brasile" Country 8;
  entry "Canada" "Nord America" "Canada" Country 8
].

Definition isCity (dest : CityResult) : bool :=
  match type dest with City => true | _ => false end.

(** [(a, b) => b.popularity - a.popularity] *)
Definition byPopularity (a b : CityResult) : Q :=
  inject_Z (popularity b - popularity a).

Definition getPopularDestinations (limit : Z) : list CityResult :=
  slice0 limit (sortBy byPopularity (List.filter isCity POPULAR_DESTINATIONS)).

Definition getInitialSuggestions (limit : Z) : list CityResult :=
  slice0 limit
    (sortBy byPopularity
       (List.filter (fun dest => isCity dest && (popularity dest >=? 8))
                    POPULAR_DESTINATIONS)).

Record SearchSuggestionsOptions := {
  maxResults : Z;
  includeCountries : bool;
  minScore : Q
}.

(** The defaults of the destructuring in [searchDestinations], but for
    [maxResults], which every caller gives. *)
Definition searchOptions (maxResults : Z) : SearchSuggestionsOptions :=
  {| maxResults := maxResults; includeCountries := true; minScore := 50 |}.

Section Search.

(** [normalizeText] lower-cases, decomposes accented letters and drops the
    accents, drops what is neither a word character nor white space, and
    trims.  The decomposition is Unicode's; the function is a parameter. *)
Variable normalizeText : string -> string.

(** The number of words of the query found at the start of, or within, a word
    of the target. *)
Definition wordMatches (queryWords targetWords : list string) : nat :=
  length
    (List.filter
       (fun queryWord =>
          existsb (fun targetWord =>
                     startsWith queryWord targetWord || includes queryWord targetWord)
                  targetWords)
       queryWords).

Definition fuzzyMatch (query target : string) : Q :=
  let normalizedQuery := normalizeText query in
  let normalizedTarget := normalizeText target in
  if String.eqb normalizedTarget normalizedQuery then 100%Q
  else if startsWith normalizedQuery normalizedTarget then 90%Q
  else if includes normalizedQuery normalizedTarget then 70%Q
  else
    let queryWords := splitWhiteSpace normalizedQuery in
    let targetWords := splitWhiteSpace normalizedTarget in
    let matches := wordMatches queryWords targetWords in
    if (0 <? matches)%nat
    then Qmin 60 (30 + (inject_Z (Z.of_nat matches)
                        / inject_Z (Z.of_nat (length queryWords))) * 30)%Q
    else 0%Q.

(** [Math.max(nameScore, countryScore, displayScore)] *)
Definition bestScore (trimmedQuery : string) (dest : CityResult) : Q :=
  Qmax (Qmax (fuzzyMatch trimmedQuery (name dest)) (fuzzyMatch trimmedQuery (country dest)))
       (fuzzyMatch trimmedQuery (displayName dest)).

(** The [score] that [searchDestinations] gives a destination. *)
Definition finalScore (trimmedQuery : string) (dest : CityResult) : Q :=
  let best := bestScore trimmedQuery dest in
  let popularityBonus := if Qle_bool 70 best then inject_Z (popularity dest) else 0%Q in
  (best + popularityBonus)%Q.

(** The comparator of the [sort], on the destinations with their score. *)
Definition byScore (a b : CityResult * Q) : Q :=
  if negb (Qeq_bool (snd b) (snd a)) then (snd b - snd a)%Q
  else inject_Z (popularity (fst b) - popularity (fst a)).

(** The destinations with their scores, filtered, sorted and cut. *)
Definition scoredResults (trimmedQuery : string) (options : SearchSuggestionsOptions)
    : list (CityResult * Q) :=
  slice0 (maxResults options)
    (sortBy byScore
       (List.filter
          (fun result =>
             Qle_bool (minScore options) (snd result)
             && (includeCountries options || isCity (fst result)))
          (map (fun dest => (dest, finalScore trimmedQuery dest))
               POPULAR_DESTINATIONS))).

Definition searchDestinations (query : string) (options : SearchSuggestionsOptions)
    : list CityResult :=
  if String.eqb query "" || (String.length (trim query) <? 2)%nat then []
  else
    let trimmedQuery := trim query in
    map fst (scoredResults trimmedQuery options).

(** The order of the results: by score, then by popularity, both
    descending. *)
Definition outranks (trimmedQuery : string) (a b : CityResult) : Prop :=
  (finalScore trimmedQuery b < finalScore trimmedQuery a)%Q \/
  ((finalScore trimmedQuery a == finalScore trimmedQuery b)%Q /\
   popularity b <= popularity a).

(** The query, normalized, is the name, the country or the display name of
    the destination, normalized. *)
Definition exactMatch (trimmedQuery : string) (dest : CityResult) : Prop :=
  normalizeText (name dest) = normalizeText trimmedQuery \/
  normalizeText (country dest) = normalizeText trimmedQuery \/
  normalizeText (displayName dest) = normalizeText trimmedQuery.

(** A destination with the score [searchDestinations] gives it. *)
Definition scored (trimmedQuery : string) (result : CityResult * Q) : Prop :=
  snd result = finalScore trimmedQuery (fst result).

End Search.

(** A normalizer for the examples: lower case and trimmed, which is what
    [normalizeText] does to letters of the ASCII range and blanks. *)
Definition lowerTrim (text : string) : string := trim (toLowerCase text).

End CityService.

(** ** services/cityAutocompleteService.ts *)

Module CityAutocompleteService.

Inductive ResultSource := local | api | cache | mixed.

Record EnhancedCityResult := {
  name : string;
  country : string;
  displayName : string;
  type : CityService.CityType;
  popularity : Z;
  coordinates : option (Q * Q);
  source : ResultSource;
  confidence : Q;
  timestamp : option Z
}.

(** [{ ...item, source, confidence }] *)
Definition enhance (src : ResultSource) (conf : Q) (item : CityService.CityResult)
    : EnhancedCityResult :=
  {| name := CityService.name item;
     country := CityService.country item;
     displayName := CityService.displayName item;
     type := CityService.type item;
     popularity := CityService.popularity item;
     coordinates := None;
     source := src;
     confidence := conf;
     timestamp := None |}.

(** [{ ...item, timestamp: Date.now() }] *)
Definition stamp (now : Z) (item : EnhancedCityResult) : EnhancedCityResult :=
  {| name := name item; country := country item; displayName := displayName item;
     type := type item; popularity := popularity item;
     coordinates := coordinates item; source := source item;
     confidence := confidence item; timestamp := Some now |}.

Record AutocompleteOptions := {
  maxResults : Z;
  useExternalAPI : bool;
  cacheTimeout : Z;
  fallbackToLocal : bool;
  minQueryLength : Z
}.

(** The defaults of the destructuring in [getAutocompleteResults]. *)
Definition defaultOptions : AutocompleteOptions := {|
  maxResults := 8;
  useExternalAPI := true;
  cacheTimeout := 5 * 60 * 1000;
  fallbackToLocal := true;
  minQueryLength := 2
|}.

(** *** class CacheManager: the map of the instance, [Date.now()] passed in *)

Module CacheManager.

Record Entry := { data : list EnhancedCityResult; timestamp : Z }.

Definition defaultTTL : Z := 5 * 60 * 1000.

Definition set (now : Z) (key : string) (data : list EnhancedCityResult) (ttl : Z)
    (cache : gmap string Entry) : gmap string Entry :=
  <[key := {| data := map (stamp now) data; timestamp := now + ttl |}]> cache.

Definition get (now : Z) (key : string) (cache : gmap string Entry)
    : option (list EnhancedCityResult) * gmap string Entry :=
  match cache !! key with
  | None => (None, cache)
  | Some entry =>
      if now >? timestamp entry then (None, delete key cache)
      else (Some (data entry), cache)
  end.

Definition clear (cache : gmap string Entry) : gmap string Entry := ∅.

Definition cleanup (now : Z) (cache : gmap string Entry) : gmap string Entry :=
  filter (fun kv => ¬ (now > timestamp (snd kv))) cache.

End CacheManager.

(** *** class RateLimiter: at most 20 outgoing requests per minute *)

Module RateLimiter.

Definition maxRequests : Z := 20.
Definition windowMs : Z := 60 * 1000.

Definition canMakeRequest (now : Z) (key : string) (requests : gmap string (list Z))
    : bool * gmap string (list Z) :=
  let validRequests :=
    List.filter (fun time => now - time <? windowMs) (default [] (requests !! key)) in
  if Z.of_nat (length validRequests) >=? maxRequests then (false, requests)
  else (true, <[key := validRequests ++ [now]]> requests).

Definition getRetryAfter (now : Z) (key : string) (requests : gmap string (list Z)) : Z :=
  match default [] (requests !! key) with
  | [] => 0
  | first :: rest =>
      let oldestRequest := fold_left Z.min rest first in
      let retryAfter := windowMs - (now - oldestRequest) in
      Z.max 0 (ceilDiv retryAfter 1000)
  end.

End RateLimiter.

Record AutocompleteError := {
  message : string;
  code : string;
  retryable : bool;
  retryAfter : option Z
}.

(** The module-level instances [cache] and [rateLimiter], and the clock. *)
Record State := {
  now : Z;
  cacheOf : gmap string CacheManager.Entry;
  rateLimiter : gmap string (list Z)
}.

Definition set_cache (c : gmap string CacheManager.Entry) (st : State) : State :=
  {| now := now st; cacheOf := c; rateLimiter := rateLimiter st |}.

Definition cache_set (key : string) (data : list EnhancedCityResult) (ttl : Z)
    (st : State) : State :=
  set_cache (CacheManager.set (now st) key data ttl (cacheOf st)) st.

Definition cache_get (key : string) (st : State)
    : option (list EnhancedCityResult) * State :=
  let '(found, c) := CacheManager.get (now st) key (cacheOf st) in
  (found, set_cache c st).

(** Virtual time passes. *)
Definition advance (d : Z) (st : State) : State :=
  {| now := now st + d; cacheOf := cacheOf st; rateLimiter := rateLimiter st |}.

(** What the network does with a request, should one be sent: the time it
    takes and how [fetch] and the reading of the body end.  [HttpOk] carries
    the items of the body as [results.map] turns them into results. *)
Inductive FetchOutcome :=
| HttpOk (items : list EnhancedCityResult)
| HttpStatus (status : Z)
| Aborted
| Failed
| ThrownNonError.

Record Reply := { elapsed : Z; outcome : FetchOutcome }.

Definition fetchFromExternalAPI (query : string) (options : AutocompleteOptions)
    (reply : Reply) (st : State)
    : (AutocompleteError + list EnhancedCityResult) * State :=
  let '(ok, requests) := RateLimiter.canMakeRequest (now st) "default" (rateLimiter st) in
  let st := {| now := now st; cacheOf := cacheOf st; rateLimiter := requests |} in
  if negb ok then
    (inl {| message := "Rate limit exceeded"; code := "RATE_LIMIT_EXCEEDED";
            retryable := true;
            retryAfter := Some (RateLimiter.getRetryAfter (now st) "default" requests) |},
     st)
  else
    let st := advance (elapsed reply) st in
    match outcome reply with
    | HttpOk items => (inr (slice0 (maxResults options) items), st)
    | HttpStatus status =>
        if status =? 429 then
          (inl {| message := "API rate limit exceeded"; code := "API_RATE_LIMIT";
                  retryable := true; retryAfter := Some 60 |}, st)
        else
          (inl {| message := "API request failed: " +:+ pretty status;
                  code := "API_ERROR"; retryable := status >=? 500;
                  retryAfter := None |}, st)
    | Aborted =>
        (inl {| message := "Request timeout"; code := "TIMEOUT"; retryable := true;
                retryAfter := None |}, st)
    | Failed =>
        (inl {| message := "Network error"; code := "NETWORK_ERROR"; retryable := true;
                retryAfter := None |}, st)
    | ThrownNonError =>
        (inl {| message := "Unknown error occurred"; code := "UNKNOWN_ERROR";
                retryable := false; retryAfter := None |}, st)
    end.

(** The key under which [deduplicateResults] recognises a city. *)
Definition dedupKey (r : EnhancedCityResult) : string :=
  toLowerCase (name r) +:+ "-" +:+ toLowerCase (country r).

(** One turn of the loop of [deduplicateResults], on the set [seen] and the
    array [deduplicated]. *)
Definition deduplicateStep (acc : gset string * list EnhancedCityResult)
    (result : EnhancedCityResult) : gset string * list EnhancedCityResult :=
  let '(seen, deduplicated) := acc in
  let key := dedupKey result in
  if bool_decide (key ∈ seen) then
    match findIndex (fun r => String.eqb (dedupKey r) key) deduplicated with
    | Some existingIndex =>
        match deduplicated !! existingIndex with
        | Some existing =>
            if Qltb (confidence existing) (confidence result)
            then (seen, <[existingIndex := result]> deduplicated)
            else acc
        | None => acc
        end
    | None => acc
    end
  else ({[key]} ∪ seen, deduplicated ++ [result]).

Definition deduplicateResults (results : list EnhancedCityResult)
    : list EnhancedCityResult :=
  snd (fold_left deduplicateStep results (∅, [])).

Definition ResultSource_eqb (a b : ResultSource) : bool :=
  match a, b with
  | local, local | api, api | cache, cache | mixed, mixed => true
  | _, _ => false
  end.

(** The comparator of the [sort] in [getAutocompleteResults]. *)
Definition compareResults (a b : EnhancedCityResult) : Q :=
  if ResultSource_eqb (source a) local && ResultSource_eqb (source b) api
     && Qeq_bool (confidence a) 100
  then (-1)%Q
  else if ResultSource_eqb (source b) local && ResultSource_eqb (source a) api
          && Qeq_bool (confidence b) 100
  then 1%Q
  else
    let confidenceDiff := (confidence b - confidence a)%Q in
    if negb (Qeq_bool confidenceDiff 0) then confidenceDiff
    else (inject_Z (popularity b) - inject_Z (popularity a))%Q.

Record AutocompleteResponse := {
  results : list EnhancedCityResult;
  responseSource : ResultSource;
  error : option AutocompleteError;
  fromCache : bool
}.

Definition cacheKeyOf (query : string) (maxResults : Z) : string :=
  "autocomplete:" +:+ toLowerCase (trim query) +:+ ":" +:+ pretty maxResults.

Section Orchestrator.

(** The two lookups of [cityService.ts] in the local catalogue. *)
Variable getInitialSuggestions : Z -> list CityService.CityResult.
Variable searchDestinations : string -> Z -> list CityService.CityResult.

(** [inl] is a rejected promise (the error thrown), [inr] a fulfilled one. *)
Definition getAutocompleteResults (query : string) (options : AutocompleteOptions)
    (reply : Reply) (st : State)
    : (AutocompleteError + AutocompleteResponse) * State :=
  let maxResults := maxResults options in
  if String.eqb query "" || (Z.of_nat (String.length (trim query)) <? minQueryLength options)
  then
    let localResults := map (enhance local 100) (getInitialSuggestions maxResults) in
    (inr {| results := localResults; responseSource := local; error := None;
            fromCache := false |}, st)
  else
    let cacheKey := cacheKeyOf query maxResults in
    let '(cachedResults, st) := cache_get cacheKey st in
    match cachedResults with
    | Some cachedResults =>
        (inr {| results := cachedResults; responseSource := cache; error := None;
                fromCache := true |}, st)
    | None =>
        let localResults := map (enhance local 90) (searchDestinations query maxResults) in
        if negb (useExternalAPI options) || (Z.of_nat (length localResults) >=? maxResults)
        then
          let enhancedLocalResults := slice0 maxResults localResults in
          (inr {| results := enhancedLocalResults; responseSource := local;
                  error := None; fromCache := false |},
           cache_set cacheKey enhancedLocalResults (cacheTimeout options) st)
        else
          match fetchFromExternalAPI query options reply st with
          | (inr apiResults, st) =>
              let allResults := localResults ++ apiResults in
              let deduplicatedResults := deduplicateResults allResults in
              let sortedResults :=
                slice0 maxResults (sortBy compareResults deduplicatedResults) in
              (inr {| results := sortedResults;
                      responseSource := if (0 <? length localResults)%nat then mixed else api;
                      error := None; fromCache := false |},
               cache_set cacheKey sortedResults (cacheTimeout options) st)
          | (inl err, st) =>
              if fallbackToLocal options && (0 <? length localResults)%nat then
                let enhancedLocalResults := slice0 maxResults localResults in
                (inr {| results := enhancedLocalResults; responseSource := local;
                        error := Some err; fromCache := false |},
                 cache_set cacheKey enhancedLocalResults (cacheTimeout options) st)
              else (inl err, st)
          end
    end.

End Orchestrator.

(** *** Examples of the specification *)

Definition romaLocal : EnhancedCityResult :=
  {| name := "Roma"; country := "Italia"; displayName := "Roma, Italia";
     type := CityService.City; popularity := 10; coordinates := None;
     source := local; confidence := 90; timestamp := None |}.

Definition romaApi : EnhancedCityResult :=
  {| name := "Roma"; country := "Italia"; displayName := "Roma, Italia";
     type := CityService.City; popularity := 9;
     coordinates := Some (41.9, 12.5)%Q;
     source := api; confidence := 85; timestamp := None |}.





(** A catalogue with a single entry, for the examples. *)
Definition roma : CityService.CityResult :=
  {| CityService.name := "Roma"; CityService.country := "Italia";
     CityService.displayName := "Roma, Italia"; CityService.type := CityService.City;
     CityService.popularity := 10 |}.

Definition milano : CityService.CityResult :=
  {| CityService.name := "Milano"; CityService.country := "Italia";
     CityService.displayName := "Milano, Italia"; CityService.type := CityService.City;
     CityService.popularity := 9 |}.

(** Results of the API with the confidence it derives from the importance
    of a place, and with the default popularity. *)
Definition romfordApi : EnhancedCityResult :=
  {| name := "Romford"; country := "United Kingdom";
     displayName := "Romford, United Kingdom";
     type := CityService.City; popularity := 5; coordinates := None;
     source := api; confidence := 85; timestamp := None |}.

Definition romansApi : EnhancedCityResult :=
  {| name := "Romans-sur-Isere"; country := "France";
     displayName := "Romans-sur-Isere, France";
     type := CityService.City; popularity := 5; coordinates := None;
     source := api; confidence := 95; timestamp := None |}.

Definition catalogueOfRoma (query : string) (maxResults : Z)
    : list CityService.CityResult :=
  if includes "rom" (toLowerCase query) then [roma] else [].

Definition noSuggestions (limit : Z) : list CityService.CityResult := [].

Definition freshState : State := {| now := 0; cacheOf := ∅; rateLimiter := ∅ |}.

Definition networkDown : Reply := {| elapsed := 120; outcome := Failed |}.


(** *** The invariant of the deduplication loop *)

(** What the loop of [deduplicateResults] maintains, [processed] being the
    results it has gone through. *)
Definition dedupInvariant (processed : list EnhancedCityResult)
    (acc : gset string * list EnhancedCityResult) : Prop :=
  (forall key, key ∈ fst acc <-> key ∈ map dedupKey (snd acc)) /\
  NoDup (map dedupKey (snd acc)) /\
  (forall r, r ∈ processed ->
     exists i kept, snd acc !! i = Some kept /\ dedupKey kept = dedupKey r /\
                    (confidence r <= confidence kept)%Q) /\
  (forall kept, kept ∈ snd acc -> kept ∈ processed).

(** *** The invariant of the outgoing limiter: no more than [maxRequests]
    times on record for a key, none of them in the future. *)
Definition limiterOk (now : Z) (requests : gmap string (list Z)) : Prop :=
  forall key times, requests !! key = Some times ->
    Z.of_nat (length times) <= RateLimiter.maxRequests /\ Forall (fun time => time <= now) times.

Record AutocompleteStats := {
  cacheSize : nat;
  statsCanMakeRequest : bool;
  statsRetryAfter : Z
}.

(** [getAutocompleteStats]: the size of the cache, and the answers of
    [rateLimiter.canMakeRequest()] and [rateLimiter.getRetryAfter()], called
    in this order. *)
Definition getAutocompleteStats (st : State) : AutocompleteStats * State :=
  let '(ok, requests) := RateLimiter.canMakeRequest (now st) "default" (rateLimiter st) in
  ({| cacheSize := size (cacheOf st);
      statsCanMakeRequest := ok;
      statsRetryAfter := RateLimiter.getRetryAfter (now st) "default" requests |},
   {| now := now st; cacheOf := cacheOf st; rateLimiter := requests |}).

(** [n] consecutive readings of the statistics. *)
Fixpoint getAutocompleteStatsTimes (n : nat) (st : State) : State :=
  match n with
  | O => st
  | S n => getAutocompleteStatsTimes n (snd (getAutocompleteStats st))
  end.

(** The order of the merged results when the rule for local exact matches
    does not apply: by confidence, then by popularity, both descending. *)
Definition rankedBefore (a b : EnhancedCityResult) : Prop :=
  (confidence b < confidence a)%Q \/
  ((confidence a == confidence b)%Q /\ popularity b <= popularity a).

End CityAutocompleteService.

(** ** services/geminiService.ts

    [getPackingList] wraps its call of the API exactly as [getTravelAnalysis]
    does (same admission check, same retry loop, same handler); only the
    latter is written out. *)

Module GeminiService.

Import RateLimitService.

(** What a [catch] can tell about the value it caught. *)
Inductive ErrorClass := IsAPIError | IsSyntaxError | IsError | NotAnError.

(** A thrown value; the last three fields are those of [APIError]. *)
Record Thrown := {
  errorClass : ErrorClass;
  message : string;
  statusCode : option Z;
  retryAfterSeconds : option Z;
  isRateLimited : bool
}.

(** [new APIError(message, statusCode, retryAfter, isRateLimited)] *)
Definition APIError (message : string) (statusCode : option Z) (retryAfter : option Z)
    (isRateLimited : bool) : Thrown :=
  {| errorClass := IsAPIError; message := message; statusCode := statusCode;
     retryAfterSeconds := retryAfter; isRateLimited := isRateLimited |}.

(** [new Error(message)] *)
Definition Error (message : string) : Thrown :=
  {| errorClass := IsError; message := message; statusCode := None;
     retryAfterSeconds := None; isRateLimited := false |}.

(** The [SyntaxError] of [JSON.parse]. *)
Definition SyntaxError : Thrown :=
  {| errorClass := IsSyntaxError; message := "Unexpected token"; statusCode := None;
     retryAfterSeconds := None; isRateLimited := false |}.

Definition ErrorClass_eqb (a b : ErrorClass) : bool :=
  match a, b with
  | IsAPIError, IsAPIError | IsSyntaxError, IsSyntaxError
  | IsError, IsError | NotAnError, NotAnError => true
  | _, _ => false
  end.

Record TravelAnalysisInputs := {
  destination : string;
  startDate : string;
  endDate : string
}.

(** One call of [ai.models.generateContent]: the time it takes, and either
    the value it throws or the [text] of the response ([None]: undefined). *)
Record Attempt := { latency : Z; answer : Thrown + option string }.

(** The rate limiter, the number of calls made to the API so far, the
    number of draws of [Math.random()] so far, and the rest of the program:
    an [await] of the network or of a backoff wait suspends the caller, and
    [meanwhile n] lists, in the order they happen, the events at the rate
    limiter while the [n]-th suspension lasts - the timers of its
    constructor coming due, other callers asking for admission or recording
    failures, time passing between them. *)
Record World := {
  service : Service;
  calls : nat;
  draws : nat;
  meanwhile : nat -> list Event
}.

Definition onService (f : Service -> Service) (w : World) : World :=
  {| service := f (service w); calls := calls w; draws := draws w;
     meanwhile := meanwhile w |}.

(** The rate limiter when the caller resumes from a suspension that lasts
    [duration]: the events of the meanwhile have happened, and [duration]
    has passed since the caller was suspended (more, should the events have
    taken longer).  Every suspension comes with a call or a draw, so that
    [calls + draws] is the number of suspensions so far. *)
Definition suspend (duration : Z) (w : World) : Service :=
  let s := run (meanwhile w (calls w + draws w)) (service w) in
  step (Advance (Z.max 0 (duration - (clock s - clock (service w))))) s.

(** An event that does not touch the breaker: anything but a failure recorded
    by another caller and a run of the breaker's timer. *)
Definition leavesBreakerAlone (e : Event) : Prop :=
  match e with
  | RecordFailure | TimerUpdateCircuitBreaker => False
  | _ => True
  end.

(** Nothing touches the breaker while the caller is suspended. *)
Definition breakerUndisturbed (w : World) : Prop :=
  forall n, Forall leavesBreakerAlone (meanwhile w n).

Section Orchestrator.

(** The environment: the answer of the API to its n-th call, the n-th draw of
    [Math.random() * 1000] rounded down, the key of the API if there is one,
    and the functions this file imports or takes from the language. *)
Variable upstream : nat -> Attempt.
Variable random : nat -> Z.
Variable apiKey : option string.
Variable Json : Type.
Variable JSON_parse : string -> option Json.
Variable JSON_stringify : TravelAnalysisInputs -> string.
Variable sanitizeDestinationInputForSubmit : string -> string.
Variable stripJsonFence : string -> string.

Inductive TravelAnalysisResults :=
| MockTravelAnalysis (inputs : TravelAnalysisInputs)
| TravelAnalysis (destination period : string) (parsedResponse : Json).

(** [await ai.models.generateContent(...)] *)
Definition generateContent (w : World) : (Thrown + option string) * World :=
  let attempt := upstream (calls w) in
  (answer attempt,
   {| service := suspend (latency attempt) w;
      calls := S (calls w); draws := draws w; meanwhile := meanwhile w |}).

(** [await new Promise(resolve => setTimeout(resolve, delay))], after the
    draw of the jitter. *)
Definition sleep (delay : Z) (w : World) : World :=
  {| service := suspend delay w; calls := calls w; draws := S (draws w);
     meanwhile := meanwhile w |}.

(** Rate-limit errors and client errors are not retried. *)
Definition notRetried (error : Thrown) : bool :=
  ErrorClass_eqb (errorClass error) IsAPIError
  && (isRateLimited error
      || match statusCode error with
         | Some code => negb (code =? 0) && (code >=? 400) && (code <? 500)
         | None => false
         end).

(** The loop of [retryWithBackoff], with [remaining = maxRetries - attempt]
    turns still to come after this one. *)
Fixpoint retryLoop {T} (operation : World -> (Thrown + T) * World)
    (maxRetries : nat) (baseDelay : Z) (remaining : nat) (w : World)
    : (Thrown + T) * World :=
  let attempt := (maxRetries - remaining)%nat in
  match operation w with
  | (inr result, w) => (inr result, w)
  | (inl error, w) =>
      if notRetried error then (inl error, w)
      else
        match remaining with
        | O => (inl error, onService recordFailure w)
        | S remaining' =>
            let delay :=
              Z.min (baseDelay * 2 ^ Z.of_nat attempt + random (draws w)) 30000 in
            retryLoop operation maxRetries baseDelay remaining' (sleep delay w)
        end
  end.

Definition retryWithBackoff {T} (operation : World -> (Thrown + T) * World)
    (w : World) : (Thrown + T) * World :=
  let maxRetries := 3%nat in
  let baseDelay := 1000 in
  retryLoop operation maxRetries baseDelay maxRetries w.

(** The operation [getTravelAnalysis] hands to [retryWithBackoff]. *)
Definition generateAndRecord (w : World) : (Thrown + option string) * World :=
  match generateContent w with
  | (inr result, w) => (inr result, onService recordFailure w)
  | (inl error, w) => (inl error, w)
  end.

Definition msgEmpty : string :=
  "Il modello AI ha restituito una risposta vuota. Riprova.".
Definition msgMalformed : string :=
  "Il modello AI ha restituito una risposta malformata. Riprova.".
Definition msgQuota : string :=
  "Limite di richieste API raggiunto. Riprova tra qualche minuto.".
Definition msgUnreachable : string :=
  "Non è stato possibile contattare il servizio AI. Riprova più tardi.".

(** The [try] block of [getTravelAnalysis]. *)
Definition requestAndParse (inputs : TravelAnalysisInputs) (w : World)
    : (Thrown + TravelAnalysisResults) * World :=
  match retryWithBackoff generateAndRecord w with
  | (inl error, w) => (inl error, w)
  | (inr response, w) =>
      match trim <$> response with
      | None | Some EmptyString => (inl (Error msgEmpty), w)
      | Some jsonText =>
          match JSON_parse (stripJsonFence jsonText) with
          | None => (inl SyntaxError, w)
          | Some parsedResponse =>
              (inr (TravelAnalysis
                      (sanitizeDestinationInputForSubmit (destination inputs))
                      (startDate inputs +:+ " - " +:+ endDate inputs)
                      parsedResponse), w)
          end
      end
  end.

(** The [catch] block of [getTravelAnalysis]. *)
Definition handleError (error : Thrown) (w : World) : Thrown * World :=
  let w := onService recordFailure w in
  if ErrorClass_eqb (errorClass error) IsAPIError then (error, w)
  else if ErrorClass_eqb (errorClass error) IsSyntaxError
  then (APIError msgMalformed (Some 422) None false, w)
  else
    let message :=
      if ErrorClass_eqb (errorClass error) NotAnError then "Errore sconosciuto"%string
      else message error in
    if includes "quota" message || includes "rate" message || includes "limit" message
    then (APIError msgQuota (Some 429) (Some 300) true, w)
    else (APIError msgUnreachable (Some 503) None false, w).

(** [inl] is a rejected promise (the error thrown), [inr] a fulfilled one. *)
Definition getTravelAnalysis (inputs : TravelAnalysisInputs) (w : World)
    : (Thrown + TravelAnalysisResults) * World :=
  match apiKey with
  | None | Some EmptyString => (inr (MockTravelAnalysis inputs), w)
  | Some _ =>
      let requestSize := Z.of_nat (String.length (JSON_stringify inputs)) in
      let '(rateLimitCheck, svc) :=
        checkRateLimit requestSize "gemini-api" (service w) in
      let w := onService (fun _ => svc) w in
      if negb (allowed rateLimitCheck) then
        (inl (APIError
                (match reason rateLimitCheck with
                 | None | Some EmptyString => "Rate limit exceeded"
                 | Some why => why
                 end)
                (Some 429) (retryAfter rateLimitCheck) true),
         w)
      else
        match requestAndParse inputs w with
        | (inr results, w) => (inr results, w)
        | (inl error, w) =>
            let '(error, w) := handleError error w in (inl error, w)
        end
  end.

End Orchestrator.

(** *** Scenarios *)

Definition rome : TravelAnalysisInputs :=
  {| destination := "Roma"; startDate := "2025-06-01"; endDate := "2025-06-08" |}.

(** An API that answers every call in 200 ms with the same text. *)
Definition answering (text : string) (n : nat) : Attempt :=
  {| latency := 200; answer := inr (Some text) |}.

(** An API that is down, and one that refuses the request. *)
Definition failing (text : string) (n : nat) : Attempt :=
  {| latency := 200; answer := inl (Error text) |}.

Definition refusing (status : Z) (n : nat) : Attempt :=
  {| latency := 200;
     answer := inl (APIError "Bad request" (Some status) None false) |}.

Definition noJitter (n : nat) : Z := 0.

(** A parser that takes any text but the one given. *)
Definition parseAllBut (bad : string) (text : string) : option string :=
  if String.eqb text bad then None else Some text.

(** A JSON value, and the properties [travelAnalysisSchema] requires of an
    analysis.  The schema is sent to the API with the request; the response
    is not checked against it. *)
#[warnings="-register-all"] Inductive JsonValue :=
| JsonNull
| JsonBoolean (b : bool)
| JsonNumber (n : Z)
| JsonString (s : string)
| JsonArray (items : list JsonValue)
| JsonObject (properties : list (string * JsonValue)).

Definition travelAnalysisRequired : list string :=
  ["weatherOverview"; "costAnalysis"; "bestTimeToVisit"; "recommendations";
   "aiAnalysis"]%string.

Definition hasRequired (value : JsonValue) : bool :=
  match value with
  | JsonObject properties =>
      forallb (fun key => existsb (fun property => String.eqb (fst property) key)
                                  properties)
              travelAnalysisRequired
  | _ => false
  end.

(** [JSON.parse] on the texts of the examples: the empty object, and a text
    that is no JSON. *)
Definition parseSample (text : string) : option JsonValue :=
  if String.eqb text "{}" then Some (JsonObject []) else None.

(** A stand-in for [JSON.stringify], of which only the length matters. *)
Definition stringifyRome (inputs : TravelAnalysisInputs) : string :=
  "{destination:Roma,startDate:2025-06-01,endDate:2025-06-08}".

(** Nothing else happens while the caller is suspended. *)
Definition quiet (n : nat) : list Event := [].

(** A service in use for a while whose breaker has seen four failures. *)
Definition fourFailures : World :=
  {| service := run (repeat RecordFailure 4) (initial 1000 "client_1");
     calls := 0; draws := 0; meanwhile := quiet |}.

Definition freshWorld : World :=
  {| service := initial 1000 "client_1"; calls := 0; draws := 0; meanwhile := quiet |}.

(** A breaker that is half open with five failures on record, the last of
    them eleven minutes old, and the minute timer coming due during the
    first call of the API. *)
Definition timerDuringCall : World :=
  {| service :=
       run (repeat RecordFailure 5
            ++ [Advance 300001; TimerUpdateCircuitBreaker; Advance 359999])
           (initial 0 "client_1");
     calls := 0; draws := 0;
     meanwhile := fun n => match n with
                           | O => [Advance 100; TimerUpdateCircuitBreaker]
                           | _ => []
                           end |}.

End GeminiService.

(** ** security.config.ts: the sanitizers of what the user types

    Strings are taken on the ASCII range, where a byte is a code unit of
    JavaScript's and [trim] is the one above. *)

Module SecurityConfig.

Definition maxInputLength : nat := 100.

(** The character class of [sanitizePattern]: the angle brackets, the two
    quotes (the double quote is character 34) and the ampersand. *)
Definition sanitizePattern (c : ascii) : bool :=
  (Ascii.eqb c "<" || Ascii.eqb c ">" || Ascii.eqb c "'" || Ascii.eqb c "034"
   || Ascii.eqb c "&")%bool.

(** The character class of [destinationSanitizePattern]. *)
Definition destinationSanitizePattern (c : ascii) : bool :=
  (Ascii.eqb c "<" || Ascii.eqb c ">" || Ascii.eqb c "034" || Ascii.eqb c "/"
   || Ascii.eqb c "\" || Ascii.eqb c "{" || Ascii.eqb c "}" || Ascii.eqb c "|"
   || Ascii.eqb c "[" || Ascii.eqb c "]" || Ascii.eqb c "`" || Ascii.eqb c "^")%bool.

(** [s.replace(pattern, '')] for a global pattern that is a character
    class. *)
Fixpoint removeAll (pattern : ascii -> bool) (s : string) : string :=
  match s with
  | EmptyString => EmptyString
  | String c rest =>
      if pattern c then removeAll pattern rest else String c (removeAll pattern rest)
  end.

(** [s.substring(0, n)] *)
Definition substring0 (n : nat) (s : string) : string := String.substring 0 n s.

Definition sanitizeInput (input : string) : string :=
  removeAll sanitizePattern (substring0 maxInputLength (trim input)).

Definition sanitizeDestinationInput (input : string) : string :=
  removeAll destinationSanitizePattern (substring0 maxInputLength input).

Definition sanitizeDestinationInputForSubmit (input : string) : string :=
  removeAll destinationSanitizePattern (substring0 maxInputLength (trim input)).

(** The characters of a string. *)
Definition characters (s : string) : list ascii := list_ascii_of_string s.

End SecurityConfig.

(** ** api/geocoding.ts: the limiter of the serverless proxy

    The proxy that [fetchFromExternalAPI] calls in development counts the
    requests of an address in windows of one minute that start with the
    first request after the last window has run out. *)

Module Geocoding.

Record RateRecord := { count : Z; resetTime : Z }.

Definition windowMs : Z := 60 * 1000.
Definition maxRequests : Z := 30.

(** [checkRateLimit(ip)], with [Date.now()] and the store passed in; the
    record is an object of the store, incremented in place. *)
Definition checkRateLimit (now : Z) (ip : string) (store : gmap string RateRecord)
    : bool * gmap string RateRecord :=
  let key := ("rate_limit:" +:+ ip)%string in
  let restart := (true, <[key := {| count := 1; resetTime := now + windowMs |}]> store) in
  match store !! key with
  | None => restart
  | Some record =>
      if now >? resetTime record then restart
      else if count record >=? maxRequests then (false, store)
      else (true, <[key := {| count := count record + 1;
                              resetTime := resetTime record |}]> store)
  end.

(** The answers to requests of one address at the given times. *)
Fixpoint checkRateLimitAt (times : list Z) (ip : string) (store : gmap string RateRecord)
    : list bool * gmap string RateRecord :=
  match times with
  | [] => ([], store)
  | now :: times =>
      let '(ok, store) := checkRateLimit now ip store in
      let '(oks, store) := checkRateLimitAt times ip store in
      (ok :: oks, store)
  end.

(** No window on record for the address, or one that has run out. *)
Definition windowOver (now : Z) (ip : string) (store : gmap string RateRecord) : Prop :=
  match store !! ("rate_limit:" +:+ ip)%string with
  | None => True
  | Some record => resetTime record < now
  end.

End Geocoding.
(** * Properties *)

(** ** Numbers *)

Lemma Qltb_lt x y : Qltb x y = true <-> (x < y)%Q.
Proof.
  unfold Qltb. rewrite negb_true_iff.
  destruct (Qle_bool y x) eqn:E.
  - apply Qle_bool_iff in E. split; [discriminate | intros H; exfalso; lra].
  - split; [intros _ | reflexivity].
    destruct (Qlt_le_dec x y) as [H | H]; [exact H |].
    apply Qle_bool_iff in H. congruence.
Qed.

Lemma Qle_bool_false x y : Qle_bool x y = false <-> (y < x)%Q.
Proof.
  rewrite <- Qltb_lt. unfold Qltb. rewrite negb_true_iff. reflexivity.
Qed.

(** ** The rate limiter *)

Section RateLimitProofs.
Import RateLimitService.

(** *** Frame lemmas: what each step leaves alone *)

Lemma isIPBlocked_fst s :
  fst (isIPBlocked (clientIP s) s) = bool_decide (is_Some (blockInForce s)).
Proof.
  unfold isIPBlocked, blockInForce.
  destruct (blockedIPs s !! clientIP s) as [e|]; [|reflexivity].
  destruct (e =? 0); [reflexivity|].
  destruct (clock s >? e); reflexivity.
Qed.

Lemma isIPBlocked_frame ip s :
  let s' := snd (isIPBlocked ip s) in
  clock s' = clock s /\ clientIP s' = clientIP s /\
  requestLogs s' = requestLogs s /\ tokenBuckets s' = tokenBuckets s /\
  circuitBreaker s' = circuitBreaker s.
Proof.
  unfold isIPBlocked.
  destruct (blockedIPs s !! ip) as [e|]; [|done].
  destruct (e =? 0); [done|].
  destruct (clock s >? e); done.
Qed.

Lemma isIPBlocked_true s :
  fst (isIPBlocked (clientIP s) s) = true ->
  snd (isIPBlocked (clientIP s) s) = s /\
  blockedIPs s !! clientIP s = blockInForce s.
Proof.
  unfold isIPBlocked, blockInForce.
  destruct (blockedIPs s !! clientIP s) as [e|]; [|done].
  destruct (e =? 0); [done|].
  destruct (clock s >? e); done.
Qed.

Lemma checkTokenBucket_fst ip s :
  fst (checkTokenBucket ip s)
  = Qle_bool 1 (tokens (refill (clock s) (bucketOf ip s))).
Proof.
  unfold checkTokenBucket.
  destruct (Qle_bool 1 _); reflexivity.
Qed.

Lemma checkTokenBucket_frame ip s :
  let s' := snd (checkTokenBucket ip s) in
  clock s' = clock s /\ clientIP s' = clientIP s /\
  requestLogs s' = requestLogs s /\ blockedIPs s' = blockedIPs s /\
  circuitBreaker s' = circuitBreaker s.
Proof.
  unfold checkTokenBucket.
  destruct (Qle_bool 1 _); done.
Qed.

(** The bucket stored for the identity after the check: refilled, and one
    token less when the check succeeded. *)
Lemma checkTokenBucket_stored ip s :
  let refilled := refill (clock s) (bucketOf ip s) in
  tokenBuckets (snd (checkTokenBucket ip s)) !! ip
  = Some (if fst (checkTokenBucket ip s) then consume refilled else refilled).
Proof.
  unfold checkTokenBucket.
  destruct (Qle_bool 1 _); cbn; apply lookup_insert_eq.
Qed.

Lemma checkTokenBucket_other ip ip' s :
  ip <> ip' ->
  tokenBuckets (snd (checkTokenBucket ip s)) !! ip' = tokenBuckets s !! ip'.
Proof.
  intros Hne. unfold checkTokenBucket.
  destruct (Qle_bool 1 _); cbn; by apply lookup_insert_ne.
Qed.

Lemma checkSuspiciousPatterns_clock ip logs s1 s2 :
  clock s1 = clock s2 ->
  checkSuspiciousPatterns ip logs s1 = checkSuspiciousPatterns ip logs s2.
Proof. unfold checkSuspiciousPatterns. intros ->. reflexivity. Qed.

Lemma bucketOf_frame ip s1 s2 :
  clock s1 = clock s2 -> tokenBuckets s1 = tokenBuckets s2 ->
  bucketOf ip s1 = bucketOf ip s2.
Proof. unfold bucketOf. intros -> ->. reflexivity. Qed.

Lemma logsOf_frame ip s1 s2 :
  requestLogs s1 = requestLogs s2 -> logsOf ip s1 = logsOf ip s2.
Proof. unfold logsOf. intros ->. reflexivity. Qed.

Lemma checkRateLimit_unfold requestSize ep s :
  checkRateLimit requestSize ep s
  = (admission requestSize s, afterCheckRateLimit requestSize ep s).
Proof.
  unfold checkRateLimit, admission, afterCheckRateLimit, firstFailing, evaluationOrder,
    isCircuitBreakerOpen, getClientIP, afterBucketCheck, afterBlockCheck.
  cbn [List.find fails].
  destruct (BreakerState_eqb (state (circuitBreaker s)) OPEN); [reflexivity|].
  pose proof (isIPBlocked_fst s) as Hb.
  pose proof (isIPBlocked_frame (clientIP s) s) as (Hc1 & Hi1 & Hl1 & Ht1 & _).
  pose proof (isIPBlocked_true s) as Htrue.
  destruct (isIPBlocked (clientIP s) s) as [blocked s1]; cbn [fst snd] in *.
  rewrite <- Hb.
  destruct blocked.
  { destruct (Htrue eq_refl) as [-> Hlk].
    unfold verdict, remainingBlockTime. rewrite Hlk. reflexivity. }
  change (maxRequestSize config) with 50000.
  destruct (requestSize >? 50000); [reflexivity|].
  pose proof (checkTokenBucket_fst (clientIP s) s1) as Hf.
  pose proof (checkTokenBucket_frame (clientIP s) s1) as (Hc2 & Hi2 & Hl2 & _ & _).
  rewrite (bucketOf_frame _ s1 s Hc1 Ht1), Hc1 in Hf.
  destruct (checkTokenBucket (clientIP s) s1) as [hasToken s2]; cbn [fst snd] in *.
  unfold Qltb, tokensAfterRefill. rewrite <- Hf.
  destruct hasToken; cbn [negb]; [|reflexivity].
  unfold countSince. rewrite (logsOf_frame _ s1 s Hl1).
  change (maxRequestsPerMinute config) with 10.
  change (maxRequestsPerHour config) with 100.
  change (60 * 1000) with 60000. change (60 * 60 * 1000) with 3600000.
  destruct (_ >=? 10); [reflexivity|].
  destruct (_ >=? 100); [reflexivity|].
  rewrite (checkSuspiciousPatterns_clock _ _ s2 s) by congruence.
  destruct (checkSuspiciousPatterns _ _ s); [reflexivity|].
  unfold newLogEntry. rewrite Hl2, Hl1. reflexivity.
Qed.
Lemma tokensToAdd_nonneg (d : Z) : 0 <= d -> (0 <= inject_Z d / 1000 * 0.5)%Q.
Proof.
  intros Hd.
  assert (0 <= inject_Z d)%Q as Hp.
  { change 0%Q with (inject_Z 0). rewrite <- Zle_Qle. lia. }
  unfold Qdiv. 
  apply Qmult_le_0_compat; [apply Qmult_le_0_compat|]; [exact Hp| |]; discriminate.
Qed.

Lemma refill_bounds now b :
  lastRefill b <= now -> (tokens b <= bucketCapacity config)%Q ->
  (tokens b <= tokens (refill now b))%Q /\ (tokens (refill now b) <= bucketCapacity config)%Q.
Proof.
  intros Ht Hc. unfold refill. cbn [tokens].
  change (bucketCapacity config) with 20%Q in *.
  change (refillRate config) with 0.5%Q.
  pose proof (tokensToAdd_nonneg (now - lastRefill b) ltac:(lia)) as Hp.
  set (e := (inject_Z (now - lastRefill b) / 1000 * 0.5)%Q) in *.
  destruct (Q.min_spec 20 (tokens b + e)) as [[H1 H2]|[H1 H2]];
    rewrite H2; split; lra.
Qed.

Lemma bucketOf_ok ip s : bucketsOk s -> bucketOk (clock s) (bucketOf ip s).
Proof.
  intros H. unfold bucketOf.
  destruct (tokenBuckets s !! ip) as [b|] eqn:E; [by eapply H|].
  repeat split; cbn; [discriminate| apply Qle_refl | lia].
Qed.

Lemma refill_ok now b : bucketOk now b -> bucketOk now (refill now b).
Proof.
  intros (H0 & H1 & H2).
  destruct (refill_bounds now b H2 H1) as [Ha Hb].
  repeat split; [lra | exact Hb | cbn; lia].
Qed.

Lemma consume_ok now b :
  bucketOk now b -> Qle_bool 1 (tokens b) = true -> bucketOk now (consume b).
Proof.
  intros (H0 & H1 & H2) H%Qle_bool_iff.
  change (bucketCapacity config) with 20%Q in H1.
  repeat split; cbn; [lra | change (bucketCapacity config) with 20%Q; lra | exact H2].
Qed.

Lemma checkTokenBucket_ok ip s :
  bucketsOk s -> bucketsOk (snd (checkTokenBucket ip s)).
Proof.
  intros H ip' b'.
  pose proof (refill_ok _ _ (bucketOf_ok ip s H)) as Hr.
  unfold checkTokenBucket.
  destruct (Qle_bool 1 _) eqn:E; cbn; intros Hl;
    (destruct (decide (ip = ip')) as [->|Hne];
     [rewrite lookup_insert_eq in Hl; injection Hl as <-
     |rewrite lookup_insert_ne in Hl by done; by eapply H]).
  - by apply consume_ok.
  - exact Hr.
Qed.

Lemma bucketsOk_frame s1 s2 :
  clock s2 = clock s1 -> tokenBuckets s2 = tokenBuckets s1 ->
  bucketsOk s1 -> bucketsOk s2.
Proof. unfold bucketsOk. intros -> ->. done. Qed.

Lemma afterBucketCheck_ok s : bucketsOk s -> bucketsOk (afterBucketCheck s).
Proof.
  intros H. unfold afterBucketCheck, afterBlockCheck.
  pose proof (isIPBlocked_frame (clientIP s) s) as (Hc & _ & _ & Ht & _).
  apply checkTokenBucket_ok. by eapply bucketsOk_frame.
Qed.

Lemma checkRateLimit_ok requestSize ep s :
  bucketsOk s -> bucketsOk (snd (checkRateLimit requestSize ep s)).
Proof.
  intros H. rewrite checkRateLimit_unfold. cbn [snd].
  pose proof (afterBucketCheck_ok s H) as H2.
  pose proof (isIPBlocked_frame (clientIP s) s) as (Hc & _ & _ & Ht & _).
  unfold afterCheckRateLimit.
  destruct (firstFailing requestSize s) as [[]|]; try done.
  by eapply bucketsOk_frame.
Qed.

Lemma step_ok e s : admissible e -> bucketsOk s -> bucketsOk (step e s).
Proof.
  intros Ha H. destruct e; cbn [step].
  - intros ip b Hl. destruct (H ip b Hl) as (H0 & H1 & H2).
    cbn in Ha. repeat split; [done | done | cbn; lia].
  - by apply checkRateLimit_ok.
  - done.
  - unfold updateCircuitBreaker.
    destruct (state (circuitBreaker s)); [done| |];
      destruct (_ >? _); done.
  - intros ip b Hl. cbn in Hl.
    apply map_lookup_filter_Some in Hl as [Hl _]. by eapply H.
  - unfold getStatus.
    pose proof (isIPBlocked_frame (getClientIP s) s) as (Hc & _ & _ & Ht & _).
    destruct (isIPBlocked (getClientIP s) s) as [blocked s']. cbn [snd] in *.
    by eapply bucketsOk_frame.
  - intros ip b Hl. cbn in Hl.
    apply lookup_delete_Some in Hl as [_ Hl]. by eapply H.
Qed.

Lemma reachable_bucketsOk s : reachable s -> bucketsOk s.
Proof.
  induction 1 as [now ip | e s _ IH Ha].
  - intros ip' b Hl. cbn in Hl. by rewrite lookup_empty in Hl.
  - by apply step_ok.
Qed.

(** C6 (amended).  Token bucket invariant and refill monotonicity, as long
    as the clock does not run backwards.  In every state the service can
    reach from a fresh service by its operations and its timers with
    [Date.now()] never decreasing, and for every identity [ip], a call of
    the bucket check refills the bucket to a token count that is not less
    than before the refill and not more than the capacity, 20; the bucket
    stored after the call is the refilled one, less one token when the check
    granted the request, and its token count lies between 0 and 20. *)
Theorem token_bucket_invariant s ip :
  reachable s ->
  let before := bucketOf ip s in
  let refilled := refill (clock s) before in
  let hasToken := fst (checkTokenBucket ip s) in
  let s' := snd (checkTokenBucket ip s) in
  (tokens before <= tokens refilled)%Q /\
  (tokens refilled <= 20)%Q /\
  exists stored,
    tokenBuckets s' !! ip = Some stored /\
    stored = (if hasToken then consume refilled else refilled) /\
    (0 <= tokens stored)%Q /\ (tokens stored <= 20)%Q.
Proof.
  intros Hr%reachable_bucketsOk. cbv zeta.
  destruct (bucketOf_ok ip s Hr) as (H0 & H1 & H2).
  destruct (refill_bounds (clock s) _ H2 H1) as [Ha Hb].
  split; [exact Ha|]. split; [exact Hb|].
  eexists. split; [apply checkTokenBucket_stored|]. split; [reflexivity|].
  pose proof (checkTokenBucket_ok ip s Hr ip _ (checkTokenBucket_stored ip s))
    as (Hs0 & Hs1 & _).
  split; [exact Hs0 | exact Hs1].
Qed.
Lemma afterBlockCheck_frame s :
  clock (afterBlockCheck s) = clock s /\
  clientIP (afterBlockCheck s) = clientIP s /\
  requestLogs (afterBlockCheck s) = requestLogs s /\
  tokenBuckets (afterBlockCheck s) = tokenBuckets s /\
  circuitBreaker (afterBlockCheck s) = circuitBreaker s.
Proof. apply isIPBlocked_frame. Qed.

Lemma afterBucketCheck_frame s :
  clock (afterBucketCheck s) = clock s /\
  clientIP (afterBucketCheck s) = clientIP s /\
  requestLogs (afterBucketCheck s) = requestLogs s /\
  blockedIPs (afterBucketCheck s) = blockedIPs (afterBlockCheck s) /\
  circuitBreaker (afterBucketCheck s) = circuitBreaker s.
Proof.
  unfold afterBucketCheck.
  destruct (afterBlockCheck_frame s) as (Hc & Hi & Hl & Ht & Hb).
  destruct (checkTokenBucket_frame (clientIP s) (afterBlockCheck s))
    as (Hc' & Hi' & Hl' & Hk' & Hb').
  repeat split; congruence.
Qed.

(** The bucket of the identity once the bucket check has run. *)
Lemma afterBucketCheck_stored s :
  let refilled := refill (clock s) (bucketOf (clientIP s) s) in
  tokenBuckets (afterBucketCheck s) !! clientIP s
  = Some (if Qle_bool 1 (tokens refilled) then consume refilled else refilled).
Proof.
  unfold afterBucketCheck.
  destruct (afterBlockCheck_frame s) as (Hc & Hi & Hl & Ht & Hb).
  rewrite checkTokenBucket_stored, checkTokenBucket_fst.
  by rewrite (bucketOf_frame _ _ s Hc Ht), Hc.
Qed.

Lemma firstFailing_allowed requestSize s :
  allowed (admission requestSize s) = true <-> firstFailing requestSize s = None.
Proof.
  unfold admission.
  destruct (firstFailing requestSize s) as [[]|]; cbn; split; done.
Qed.

Lemma blockInForce_Some s expiry :
  blockInForce s = Some expiry ->
  blockedIPs s !! clientIP s = Some expiry /\ clock s <= expiry.
Proof.
  unfold blockInForce.
  destruct (blockedIPs s !! clientIP s) as [e|]; [|done].
  destruct (e =? 0); [done|]. cbn.
  destruct (clock s >? e) eqn:E; [done|].
  intros [= ->]. split; [done|]. lia.
Qed.

Lemma firstFailing_fails requestSize s c :
  firstFailing requestSize s = Some c -> fails c requestSize s = true.
Proof. intros H. unfold firstFailing in H. by apply find_some in H as [_ H]. Qed.

(** [List.find] returns the first element that satisfies the test. *)
Lemma find_first {A} (p : A -> bool) (l : list A) (x : A) :
  List.find p l = Some x <->
  exists l1 l2, l = l1 ++ x :: l2 /\ p x = true /\ forall y, y ∈ l1 -> p y = false.
Proof.
  split.
  - induction l as [|a l IH]; cbn; [done|].
    destruct (p a) eqn:E.
    + intros [= ->]. exists [], l. split; [done|]. split; [done|].
      intros y Hy. by apply elem_of_nil in Hy.
    + intros H. destruct (IH H) as (l1 & l2 & -> & Hx & Hl1).
      exists (a :: l1), l2. split; [done|]. split; [done|].
      intros y [->|Hy]%elem_of_cons; [done | by apply Hl1].
  - intros (l1 & l2 & -> & Hx & Hl1).
    induction l1 as [|a l1 IH]; cbn; [by rewrite Hx|].
    rewrite (Hl1 a) by (apply elem_of_cons; by left).
    apply IH. intros y Hy. apply Hl1. apply elem_of_cons. by right.
Qed.

(** The deciding check is the first, in the order of evaluation, that fails
    on the state in which the call starts. *)
Lemma firstFailing_first requestSize s c :
  firstFailing requestSize s = Some c <->
  exists earlier later,
    evaluationOrder = earlier ++ c :: later /\
    fails c requestSize s = true /\
    forall c', c' ∈ earlier -> fails c' requestSize s = false.
Proof. exact (find_first (fun c => fails c requestSize s) evaluationOrder c). Qed.

Lemma firstFailing_None requestSize s :
  firstFailing requestSize s = None <-> forall c, fails c requestSize s = false.
Proof.
  unfold firstFailing. split.
  - intros H c. apply (find_none _ _ H). destruct c; cbn; tauto.
  - intros H. unfold evaluationOrder. cbn [List.find]. by rewrite !H.
Qed.

(** C1.  For every call [checkRateLimit requestSize endpoint], in every state:
    the checks are taken in the order circuit breaker open, identity blocked,
    [requestSize > 50000], token bucket empty, per-minute count [>= 10],
    per-hour count [>= 100], suspicious pattern; the first that fails decides
    the answer - rejected with [retryAfter] 300, the remaining block time in
    seconds, none, 60, 60, 3600 and 900 respectively - and the checks after it
    are not evaluated: the state is left as the checks up to the deciding one
    leave it ([afterBlockCheck]: an expired block evicted; [afterBucketCheck]:
    the bucket refilled and charged), with the block added by the suspicious
    pattern check when that is the deciding one.  Only when no check fails is
    the answer [allowed] and the request appended to the log of the
    identity; in every other case the log is unchanged. *)
Theorem checkRateLimit_evaluation_order requestSize ep s :
  let ip := clientIP s in
  let r := fst (checkRateLimit requestSize ep s) in
  let s' := snd (checkRateLimit requestSize ep s) in
  let appended :=
    <[ip := logsOf ip s ++ [newLogEntry requestSize ep s]]> (requestLogs s) in
  match firstFailing requestSize s with
  | Some CircuitOpen =>
      r = {| allowed := false; reason := Some msgCircuitOpen; retryAfter := Some 300 |}
      /\ s' = s
  | Some IdentityBlocked =>
      exists expiry,
        blockedIPs s !! ip = Some expiry /\ clock s <= expiry /\
        r = {| allowed := false; reason := Some msgBlocked;
               retryAfter := Some (ceilDiv (expiry - clock s) 1000) |}
        /\ s' = s
  | Some PayloadTooLarge =>
      r = {| allowed := false; reason := Some msgTooLarge; retryAfter := None |}
      /\ s' = afterBlockCheck s
  | Some TokenBucketEmpty =>
      r = {| allowed := false; reason := Some msgBurst; retryAfter := Some 60 |}
      /\ s' = afterBucketCheck s
  | Some PerMinute =>
      r = {| allowed := false; reason := Some msgPerMinute; retryAfter := Some 60 |}
      /\ s' = afterBucketCheck s
  | Some PerHour =>
      r = {| allowed := false; reason := Some msgPerHour; retryAfter := Some 3600 |}
      /\ s' = afterBucketCheck s
  | Some SuspiciousPattern =>
      r = {| allowed := false; reason := Some msgSuspicious; retryAfter := Some 900 |}
      /\ s' = blockIP ip (afterBucketCheck s)
  | None =>
      r = {| allowed := true; reason := None; retryAfter := None |}
      /\ s' = set_requestLogs appended (afterBucketCheck s)
  end
  /\ (forall c,
        firstFailing requestSize s = Some c <->
        exists earlier later,
          evaluationOrder = earlier ++ c :: later /\
          fails c requestSize s = true /\
          forall c', c' ∈ earlier -> fails c' requestSize s = false)
  /\ (allowed r = true <-> forall c, fails c requestSize s = false)
  /\ requestLogs s' = (if allowed r then appended else requestLogs s).
Proof.
  cbv zeta. rewrite checkRateLimit_unfold. cbn [fst snd].
  destruct (afterBlockCheck_frame s) as (_ & _ & Hl1 & _ & _).
  destruct (afterBucketCheck_frame s) as (_ & _ & Hl2 & _ & _).
  split; [|split; [intros c; apply firstFailing_first|split;
    [rewrite firstFailing_allowed; apply firstFailing_None|]]].
  - unfold admission, afterCheckRateLimit.
    destruct (firstFailing requestSize s) as [[]|] eqn:E; try done.
    apply firstFailing_fails in E. cbn in E.
    apply bool_decide_eq_true in E as [expiry E].
    destruct (blockInForce_Some s expiry E) as [Hlk Hle].
    exists expiry. unfold verdict, remainingBlockTime. rewrite E. done.
  - unfold admission, afterCheckRateLimit.
    destruct (firstFailing requestSize s) as [[]|]; cbn; congruence.
Qed.


Lemma firstFailing_passed_bucket requestSize s :
  firstFailing requestSize s = Some PerMinute \/
  firstFailing requestSize s = Some PerHour \/
  firstFailing requestSize s = Some SuspiciousPattern \/
  firstFailing requestSize s = None ->
  fails TokenBucketEmpty requestSize s = false.
Proof.
  unfold firstFailing, evaluationOrder. cbn [List.find].
  destruct (fails CircuitOpen requestSize s); [intuition congruence|].
  destruct (fails IdentityBlocked requestSize s); [intuition congruence|].
  destruct (fails PayloadTooLarge requestSize s); [intuition congruence|].
  destruct (fails TokenBucketEmpty requestSize s); [intuition congruence|done].
Qed.

(** What a call leaves in the bucket of the identity, by deciding check. *)
Lemma afterCheckRateLimit_bucket requestSize ep s :
  let ip := clientIP s in
  let s' := afterCheckRateLimit requestSize ep s in
  let refilled := refill (clock s) (bucketOf ip s) in
  match firstFailing requestSize s with
  | Some CircuitOpen | Some IdentityBlocked | Some PayloadTooLarge =>
      tokenBuckets s' = tokenBuckets s
  | Some TokenBucketEmpty =>
      (tokens refilled < 1)%Q /\ tokenBuckets s' !! ip = Some refilled
  | _ =>
      (1 <= tokens refilled)%Q /\ tokenBuckets s' !! ip = Some (consume refilled)
  end.
Proof.
  cbv zeta.
  destruct (afterBlockCheck_frame s) as (_ & _ & _ & Ht1 & _).
  pose proof (afterBucketCheck_stored s) as Hst. cbv zeta in Hst.
  pose proof (firstFailing_passed_bucket requestSize s) as Hp.
  pose proof (firstFailing_fails requestSize s) as Hf.
  unfold afterCheckRateLimit.
  destruct (firstFailing requestSize s) as [[]|]; try done;
    try (specialize (Hp ltac:(auto)); cbn [fails] in Hp;
         unfold Qltb, tokensAfterRefill in Hp;
         apply negb_false_iff in Hp; simpl tokenBuckets;
         rewrite Hst, Hp; split; [by apply Qle_bool_iff | done]).
  specialize (Hf _ eq_refl). cbn [fails] in Hf. unfold Qltb, tokensAfterRefill in Hf.
  apply negb_true_iff in Hf. rewrite Hst, Hf. split; [by apply Qle_bool_false | done].
Qed.

Lemma afterCheckRateLimit_logs requestSize ep s :
  firstFailing requestSize s <> None ->
  requestLogs (afterCheckRateLimit requestSize ep s) = requestLogs s.
Proof.
  destruct (afterBlockCheck_frame s) as (_ & _ & Hl1 & _ & _).
  destruct (afterBucketCheck_frame s) as (_ & _ & Hl2 & _ & _).
  unfold afterCheckRateLimit.
  destruct (firstFailing requestSize s) as [[]|]; done.
Qed.

Ltac distinct_messages :=
  match goal with
  | H : Some ?a = Some ?b |- _ =>
      let Hm := fresh "Hm" in
      exfalso;
      assert (String.eqb a b = true) as Hm by (apply String.eqb_eq; congruence);
      vm_compute in Hm; discriminate Hm
  end.

(** C10.  A rejection by [checkRateLimit] does not always preserve the state.
    When the answer is the per-minute, the per-hour or the suspicious-pattern
    rejection, the request had passed the bucket check: the refilled bucket
    held at least one token, and the bucket stored for the identity is the
    refilled one less one token, stamped with the time of the call, while the
    request log is unchanged.  When the answer is the burst rejection, the
    stored bucket is the refilled one, with less than one token and none
    taken.  When the answer is the circuit-breaker, the block or the
    payload-size rejection, the check returned before the bucket check: the
    map of buckets is unchanged. *)
Theorem rejection_after_bucket_check_costs_a_token requestSize ep s :
  let ip := clientIP s in
  let r := fst (checkRateLimit requestSize ep s) in
  let s' := snd (checkRateLimit requestSize ep s) in
  let refilled := refill (clock s) (bucketOf ip s) in
  (reason r = Some msgPerMinute \/ reason r = Some msgPerHour
   \/ reason r = Some msgSuspicious ->
     allowed r = false /\
     (1 <= tokens refilled)%Q /\
     tokenBuckets s' !! ip
     = Some {| tokens := (tokens refilled - 1)%Q; lastRefill := clock s |} /\
     requestLogs s' = requestLogs s)
  /\ (reason r = Some msgBurst ->
     allowed r = false /\
     (tokens refilled < 1)%Q /\
     tokenBuckets s' !! ip = Some refilled /\ lastRefill refilled = clock s /\
     requestLogs s' = requestLogs s)
  /\ (reason r = Some msgCircuitOpen \/ reason r = Some msgBlocked
      \/ reason r = Some msgTooLarge ->
     allowed r = false /\
     tokenBuckets s' = tokenBuckets s /\ requestLogs s' = requestLogs s).
Proof.
  cbv zeta. rewrite checkRateLimit_unfold. cbn [fst snd].
  pose proof (afterCheckRateLimit_bucket requestSize ep s) as Hb. cbv zeta in Hb.
  pose proof (afterCheckRateLimit_logs requestSize ep s) as Hl.
  unfold admission.
  destruct (firstFailing requestSize s) as [c|].
  2:{ cbn. repeat split; intros; intuition discriminate. }
  specialize (Hl ltac:(done)).
  destruct c; cbn [verdict reason reject allowed];
    (split; [intros [H|[H|H]] | split; [intros H | intros [H|[H|H]]]]);
    try distinct_messages.
  all: try lazymatch type of Hb with _ /\ _ => destruct Hb as [Hb1 Hb2] end.
  all: repeat split; done.
Qed.
(** *** The circuit breaker *)

Lemma checkRateLimit_breaker requestSize ep s :
  circuitBreaker (snd (checkRateLimit requestSize ep s)) = circuitBreaker s.
Proof.
  rewrite checkRateLimit_unfold. cbn [snd].
  destruct (afterBucketCheck_frame s) as (_ & _ & _ & _ & Hb).
  destruct (afterBlockCheck_frame s) as (_ & _ & _ & _ & Hb').
  unfold afterCheckRateLimit.
  destruct (firstFailing requestSize s) as [[]|]; done.
Qed.

Lemma checkRateLimit_open requestSize ep s :
  state (circuitBreaker s) = OPEN ->
  checkRateLimit requestSize ep s = (reject msgCircuitOpen (Some 300), s).
Proof.
  intros H. unfold checkRateLimit, isCircuitBreakerOpen. by rewrite H.
Qed.

Lemma recordFailure_half_open s :
  state (circuitBreaker s) = HALF_OPEN ->
  state (circuitBreaker (recordFailure s)) = OPEN /\
  lastFailureTime (circuitBreaker (recordFailure s)) = clock s.
Proof.
  intros H. unfold recordFailure. cbn. rewrite H. cbn.
  by rewrite andb_false_r.
Qed.

Lemma updateCircuitBreaker_open s :
  state (circuitBreaker s) = OPEN ->
  updateCircuitBreaker s =
    if clock s - lastFailureTime (circuitBreaker s) >? 300000
    then set_circuitBreaker
           {| failures := failures (circuitBreaker s);
              lastFailureTime := lastFailureTime (circuitBreaker s);
              state := HALF_OPEN |} s
    else s.
Proof. intros H. unfold updateCircuitBreaker. by rewrite H. Qed.

(** C4 (amended).  The life cycle of the breaker.  From closed with no failure
    on record, fewer than five consecutive [recordFailure] leave the breaker
    closed and the fifth opens it, recording its time.  However much time
    passes then, [checkRateLimit] answers with the circuit-open rejection
    ([retryAfter] 300) and changes nothing: the admission check never moves
    the breaker.  It is [updateCircuitBreaker], the minute timer, that moves
    it: not while at most five minutes have passed since the last failure,
    and to half-open, with no failure added, once strictly more have; half
    open, the breaker lets the admission check through, and one
    [recordFailure] reopens it at once. *)
Theorem breaker_lifecycle (s : Service) :
  state (circuitBreaker s) = CLOSED ->
  failures (circuitBreaker s) = 0 ->
  let opened := run (repeat RecordFailure 5) s in
  (forall k, (k < 5)%nat ->
     state (circuitBreaker (run (repeat RecordFailure k) s)) = CLOSED) /\
  circuitBreaker opened
  = {| failures := 5; lastFailureTime := clock s; state := OPEN |} /\
  forall d requestSize ep,
    let later := step (Advance d) opened in
    checkRateLimit requestSize ep later
    = ({| allowed := false; reason := Some msgCircuitOpen; retryAfter := Some 300 |},
       later) /\
    (d <= 300000 -> updateCircuitBreaker later = later) /\
    (300000 < d ->
       let halfOpen := updateCircuitBreaker later in
       circuitBreaker halfOpen
       = {| failures := 5; lastFailureTime := clock s; state := HALF_OPEN |} /\
       isCircuitBreakerOpen halfOpen = false /\
       state (circuitBreaker (recordFailure halfOpen)) = OPEN).
Proof.
  intros Hs Hf. cbv zeta.
  assert (circuitBreaker (run (repeat RecordFailure 5) s)
          = {| failures := 5; lastFailureTime := clock s; state := OPEN |}) as Hopen.
  { destruct s as [now ip logs buckets blocked [f t st]].
    cbn in Hs, Hf. subst. reflexivity. }
  split.
  { intros k Hk. destruct s as [now ip logs buckets blocked [f t st]].
    cbn in Hs, Hf. subst.
    destruct k as [|[|[|[|[|k]]]]]; [reflexivity..|lia]. }
  split; [exact Hopen|].
  intros d requestSize ep.
  set (later := step (Advance d) (run (repeat RecordFailure 5) s)).
  assert (circuitBreaker later
          = {| failures := 5; lastFailureTime := clock s; state := OPEN |}) as Hlater
    by exact Hopen.
  assert (clock later = clock s + d) as Hclock by reflexivity.
  split; [apply checkRateLimit_open; by rewrite Hlater|].
  rewrite updateCircuitBreaker_open by (by rewrite Hlater).
  rewrite Hlater, Hclock. cbn [lastFailureTime failures].
  split.
  - intros Hd. destruct (_ >? _) eqn:E; [lia | reflexivity].
  - intros Hd. destruct (_ >? _) eqn:E; [|lia].
    split; [reflexivity|]. split; [reflexivity|].
    by apply recordFailure_half_open.
Qed.

Lemma breaker_lifecycle_witness :
  let s := initial 0 "client_1" in
  state (circuitBreaker s) = CLOSED /\ failures (circuitBreaker s) = 0 /\
  state (circuitBreaker
           (updateCircuitBreaker
              (step (Advance 300001) (run (repeat RecordFailure 5) s)))) = HALF_OPEN.
Proof.
  cbv zeta. split; [reflexivity|]. split; [reflexivity|].
  destruct (breaker_lifecycle (initial 0 "client_1") eq_refl eq_refl) as (_ & _ & H).
  destruct (H 300001 0 "api"%string) as (_ & _ & H3).
  destruct (H3 ltac:(lia)) as (-> & _). reflexivity.
Defined.

(** Time does not go back. *)
Lemma step_clock e s : admissible e -> clock s <= clock (step e s).
Proof.
  intros Ha. destruct e; cbn [step].
  - cbn in *. lia.
  - rewrite checkRateLimit_unfold. cbn [snd].
    destruct (afterBlockCheck_frame s) as (Hc1 & _).
    destruct (afterBucketCheck_frame s) as (Hc2 & _).
    unfold afterCheckRateLimit.
    destruct (firstFailing requestSize s) as [[]|]; cbn; lia.
  - cbn. lia.
  - unfold updateCircuitBreaker.
    destruct (state (circuitBreaker s)); [lia| |]; destruct (_ >? _); cbn; lia.
  - cbn. lia.
  - unfold getStatus.
    pose proof (isIPBlocked_frame (getClientIP s) s) as (Hc & _).
    destruct (isIPBlocked (getClientIP s) s). cbn [snd] in *. lia.
  - cbn. lia.
Qed.

Lemma run_clock es : forall s, Forall admissible es -> clock s <= clock (run es s).
Proof.
  induction es as [|e es IH]; intros s Ha; cbn [run fold_left]; [lia|].
  apply Forall_cons in Ha as [He Hes].
  etrans; [apply (step_clock e s He)|]. by apply IH.
Qed.

(** An open breaker whose last failure is not older than [t] stays open
    through any event that happens within five minutes of [t]. *)
Lemma step_open e s t :
  state (circuitBreaker s) = OPEN ->
  t <= lastFailureTime (circuitBreaker s) -> t <= clock s ->
  clock s <= t + 300000 ->
  state (circuitBreaker (step e s)) = OPEN /\
  t <= lastFailureTime (circuitBreaker (step e s)).
Proof.
  intros Hs Ht Hc Hc'. destruct e; cbn [step].
  - done.
  - by rewrite checkRateLimit_breaker.
  - unfold recordFailure. cbn. rewrite Hs. cbn. by rewrite andb_false_r.
  - rewrite updateCircuitBreaker_open by done.
    destruct (_ >? _) eqn:E; [lia | done].
  - done.
  - unfold getStatus.
    pose proof (isIPBlocked_frame (getClientIP s) s) as (_ & _ & _ & _ & Hb).
    destruct (isIPBlocked (getClientIP s) s). cbn [snd] in *. by rewrite Hb.
  - done.
Qed.

Lemma run_open es : forall s t,
  state (circuitBreaker s) = OPEN ->
  t <= lastFailureTime (circuitBreaker s) -> t <= clock s ->
  Forall admissible es ->
  clock (run es s) <= t + 300000 ->
  state (circuitBreaker (run es s)) = OPEN.
Proof.
  induction es as [|e es IH]; intros s t Hs Ht Hc Ha Hend; cbn [run fold_left] in *;
    [done|].
  apply Forall_cons in Ha as [He Hes].
  pose proof (step_clock e s He) as H1.
  pose proof (run_clock es (step e s) Hes) as H2.
  unfold run in H2.
  destruct (step_open e s t Hs Ht Hc ltac:(lia)) as [Hs' Ht'].
  apply (IH (step e s) t); try done. lia.
Qed.

(** Whatever happens in the five minutes that follow the failure that opened
    the breaker - requests, further failures, the timers - the breaker is
    still open at the end of them. *)
Lemma breaker_stays_open_for_five_minutes s es :
  state (circuitBreaker s) = CLOSED -> failures (circuitBreaker s) = 4 ->
  Forall admissible es ->
  clock (run es (recordFailure s)) <= clock s + 300000 ->
  state (circuitBreaker (run es (recordFailure s))) = OPEN.
Proof.
  intros Hs Hf Ha Hend.
  apply (run_open es (recordFailure s) (clock s)); try done; try (cbn; lia).
  unfold recordFailure. cbn. by rewrite Hs, Hf.
Qed.


(** C4, as stated, fails: five minutes after the fifth failure, with the
    minute timer firing on every minute, the admission check finds the
    breaker open and leaves it open. *)
Lemma breaker_open_after_five_minutes :
  let opened := run (repeat RecordFailure 5) (initial 0 "client_1") in
  let later := run fiveMinutes opened in
  clock later - lastFailureTime (circuitBreaker opened) = 5 * 60 * 1000 /\
  state (circuitBreaker (snd (checkRateLimit 100 "gemini-api" later))) = OPEN /\
  state (circuitBreaker (snd (checkRateLimit 100 "gemini-api" later))) <> HALF_OPEN.
Proof. vm_compute. repeat split; discriminate. Qed.

(** *** Bursts: many checks at one instant *)

Lemma refill_same_instant now b :
  lastRefill b = now -> (tokens b <= bucketCapacity config)%Q ->
  (tokens (refill now b) == tokens b)%Q.
Proof.
  intros Hl Hc. unfold refill. cbn [tokens]. rewrite Hl, Z.sub_diag.
  change (bucketCapacity config) with 20%Q in *.
  assert (inject_Z 0 / 1000 * refillRate config == 0)%Q as -> by reflexivity.
  destruct (Q.min_spec 20 (tokens b + 0)) as [[H1 H2]|[H1 H2]]; rewrite H2; lra.
Qed.

Lemma Qle_bool_one (avail : nat) (q : Q) :
  (q == inject_Z (Z.of_nat avail))%Q ->
  Qle_bool 1 q = bool_decide (1 <= avail)%nat.
Proof.
  intros Hq. destruct (Qle_bool 1 q) eqn:E; symmetry.
  - apply bool_decide_eq_true. apply Qle_bool_iff in E. rewrite Hq in E.
    change 1%Q with (inject_Z 1) in E. rewrite <- Zle_Qle in E. lia.
  - apply bool_decide_eq_false. apply Qle_bool_false in E. rewrite Hq in E.
    change 1%Q with (inject_Z 1) in E. rewrite <- Zlt_Qlt in E. lia.
Qed.

(** A bucket that was refilled at this very instant and holds [avail] tokens
    grants a check exactly when [avail] is at least one, and then holds one
    token less. *)
Lemma checkTokenBucket_same_instant ip s (avail : nat) :
  lastRefill (bucketOf ip s) = clock s ->
  (tokens (bucketOf ip s) == inject_Z (Z.of_nat avail))%Q ->
  (avail <= 20)%nat ->
  let granted := fst (checkTokenBucket ip s) in
  let s' := snd (checkTokenBucket ip s) in
  granted = bool_decide (1 <= avail)%nat /\
  clock s' = clock s /\
  lastRefill (bucketOf ip s') = clock s' /\
  (tokens (bucketOf ip s') == inject_Z (Z.of_nat (if granted then avail - 1 else avail)))%Q.
Proof.
  intros Hl Ht Ha. cbv zeta.
  assert (tokens (bucketOf ip s) <= bucketCapacity config)%Q as Hcap.
  { rewrite Ht. change (bucketCapacity config) with (inject_Z 20).
    rewrite <- Zle_Qle. lia. }
  pose proof (refill_same_instant _ _ Hl Hcap) as Hr.
  pose proof (checkTokenBucket_stored ip s) as Hst. cbv zeta in Hst.
  destruct (checkTokenBucket_frame ip s) as (Hc & _).
  rewrite checkTokenBucket_fst in *.
  rewrite (Qle_bool_one avail) in * by (by rewrite Hr).
  split; [reflexivity|]. split; [exact Hc|].
  assert (bucketOf ip (snd (checkTokenBucket ip s))
          = if bool_decide (1 <= avail)%nat
            then consume (refill (clock s) (bucketOf ip s))
            else refill (clock s) (bucketOf ip s)) as ->.
  { unfold bucketOf at 1. by rewrite Hst. }
  destruct (bool_decide (1 <= avail)%nat) eqn:E; cbn [consume lastRefill tokens refill].
  - split; [congruence|]. apply bool_decide_eq_true in E.
    fold (tokens (refill (clock s) (bucketOf ip s))). rewrite Hr, Ht.
    rewrite Nat2Z.inj_sub by lia. unfold Z.sub.
    rewrite inject_Z_plus, inject_Z_opp. reflexivity.
  - split; [congruence|].
    fold (tokens (refill (clock s) (bucketOf ip s))). by rewrite Hr, Ht.
Qed.

Lemma checkTokenBucketTimes_same_instant n : forall ip s (avail : nat),
  lastRefill (bucketOf ip s) = clock s ->
  (tokens (bucketOf ip s) == inject_Z (Z.of_nat avail))%Q ->
  (avail <= 20)%nat ->
  fst (checkTokenBucketTimes n ip s)
  = repeat true (Nat.min n avail) ++ repeat false (n - avail).
Proof.
  induction n as [|n IH]; intros ip s avail Hl Ht Ha; [reflexivity|].
  cbn [checkTokenBucketTimes].
  destruct (checkTokenBucket_same_instant ip s avail Hl Ht Ha) as (Hg & Hc & Hl' & Ht').
  destruct (checkTokenBucket ip s) as [granted s1]. cbn [fst snd] in *.
  specialize (IH ip s1 (if granted then avail - 1 else avail)%nat Hl' Ht').
  destruct (checkTokenBucketTimes n ip s1) as [bs s2]. cbn [fst] in *.
  rewrite IH by (destruct granted; lia). subst granted.
  case_bool_decide as E.
  - destruct avail as [|avail]; [lia|].
    replace (S avail - 1)%nat with avail by lia. reflexivity.
  - replace avail with O by lia. rewrite Nat.min_0_r. cbn.
    by rewrite Nat.sub_0_r.
Qed.

Lemma Qltb_average (total x : Z) (n : nat) :
  (0 < n)%nat ->
  Qltb (inject_Z total / inject_Z (Z.of_nat n) * 3) (inject_Z x)
  = (3 * total <? Z.of_nat n * x).
Proof.
  intros Hn. destruct n as [|n]; [lia|].
  change (Z.of_nat (S n)) with (Z.pos (Pos.of_succ_nat n)).
  set (p := Pos.of_succ_nat n).
  unfold Qltb, Qle_bool, Qdiv, Qmult, Qinv, inject_Z.
  cbn [Qnum Qden].
  destruct (3 * total <? Z.pos p * x) eqn:E.
  - apply negb_true_iff, Z.leb_gt. apply Z.ltb_lt in E. lia.
  - apply negb_false_iff, Z.leb_le. apply Z.ltb_ge in E. lia.
Qed.

Lemma filter_burst (p : RequestLog -> bool) now ip requests :
  (forall size ep, p (newLogEntry size ep (initial now ip)) = true) ->
  List.filter p
    (map (fun request => newLogEntry (fst request) (snd request) (initial now ip)) requests)
  = map (fun request => newLogEntry (fst request) (snd request) (initial now ip)) requests.
Proof.
  intros Hp. induction requests as [|r requests IH]; [done|].
  cbn [map List.filter]. by rewrite Hp, IH.
Qed.

(** On the log of a burst of up to four requests, only the size of the
    fourth can raise suspicion; on a log of five, the count does. *)
Lemma checkSuspiciousPatterns_burst now ip requests s :
  clock s = now ->
  Forall (fun request => 0 <= fst request) requests ->
  (length requests <= 5)%nat ->
  checkSuspiciousPatterns ip
    (map (fun request => newLogEntry (fst request) (snd request) (initial now ip)) requests) s
  = match requests with
    | [r1; r2; r3; r4] =>
        (fst r4 >? 10000) && (fst r4 >? 3 * (fst r1 + fst r2 + fst r3))
    | [_; _; _; _; _] => true
    | _ => false
    end.
Proof.
  intros Hc Hsz Hlen. unfold checkSuspiciousPatterns.
  rewrite filter_burst
    by (intros; cbn [newLogEntry timestamp initial clock]; rewrite Hc; apply Z.ltb_lt; lia).
  rewrite length_map. change (suspiciousThreshold config) with 5.
  destruct requests as [|r1 [|r2 [|r3 [|r4 [|r5 [|r6 rest]]]]]];
    cbn [length] in Hlen; try lia; try reflexivity;
    repeat match goal with H : Forall _ (_ :: _) |- _ => apply Forall_cons in H as [? H] end;
    cbn [length map Z.of_nat Pos.of_succ_nat Pos.succ Z.geb Z.compare Pos.compare Pos.compare_cont
         Nat.ltb Nat.leb last newLogEntry logSize];
    unfold sumSizes; cbn [fold_left logSize];
    rewrite ?last_cons; cbn [last];
    rewrite Qltb_average by lia; cbn [logSize newLogEntry].
  - change (Z.of_nat 1) with 1.
    destruct (fst r1 >? 10000) eqn:E; [|apply andb_false_r].
    rewrite andb_true_r. apply Z.ltb_ge. lia.
  - change (Z.of_nat 2) with 2.
    destruct (fst r2 >? 10000) eqn:E; [|apply andb_false_r].
    rewrite andb_true_r. apply Z.ltb_ge. lia.
  - change (Z.of_nat 3) with 3.
    destruct (fst r3 >? 10000) eqn:E; [|apply andb_false_r].
    rewrite andb_true_r. apply Z.ltb_ge. lia.
  - change (Z.of_nat 4) with 4. change (4 >=? 5) with false. cbv iota.
    rewrite andb_comm. f_equal.
    destruct (fst r4 >? 3 * (fst r1 + fst r2 + fst r3)) eqn:E.
    + apply Z.ltb_lt. lia.
    + apply Z.ltb_ge. lia.
Qed.

Lemma countSince_burst now ip requests s windowMs :
  burstLog now ip requests s -> 0 < windowMs ->
  countSince windowMs s = Z.of_nat (length requests).
Proof.
  intros (Hc & Hi & _ & _ & Hl & _ & _) Hw. unfold countSince. rewrite Hi, Hl.
  rewrite filter_burst
    by (intros; cbn [newLogEntry timestamp initial clock]; rewrite Hc; lia).
  by rewrite length_map.
Qed.

Lemma tokensAfterRefill_burst now ip requests s :
  burstLog now ip requests s ->
  (tokensAfterRefill s == inject_Z (Z.of_nat (20 - length requests)))%Q.
Proof.
  intros (Hc & Hi & _ & _ & _ & Hl & Ht). unfold tokensAfterRefill.
  rewrite Hi, refill_same_instant; [done | congruence |].
  rewrite Ht. change (bucketCapacity config) with (inject_Z 20).
  rewrite <- Zle_Qle. lia.
Qed.

Lemma firstFailing_burst now ip requests s requestSize :
  burstLog now ip requests s -> requestSize <= 50000 -> (length requests <= 5)%nat ->
  firstFailing requestSize s
  = if checkSuspiciousPatterns ip (logsOf ip s) s then Some SuspiciousPattern else None.
Proof.
  intros Hb Hsz Hk.
  pose proof (tokensAfterRefill_burst now ip requests s Hb) as Ht.
  pose proof (countSince_burst now ip requests s 60000 Hb ltac:(lia)) as Hm.
  pose proof (countSince_burst now ip requests s 3600000 Hb ltac:(lia)) as Hh.
  destruct Hb as (Hc & Hi & Hs & Hbl & Hl & Hlr & _).
  unfold firstFailing, evaluationOrder. cbn [List.find fails].
  rewrite Hs. cbn [BreakerState_eqb].
  unfold blockInForce. rewrite Hi, Hbl.
  rewrite bool_decide_eq_false_2 by (intros [? ?]; done).
  destruct (requestSize >? 50000) eqn:E; [lia|].
  assert (Qltb (tokensAfterRefill s) 1 = false) as ->.
  { unfold Qltb. apply negb_false_iff, Qle_bool_iff. rewrite Ht.
    change 1%Q with (inject_Z 1). rewrite <- Zle_Qle. lia. }
  rewrite Hm, Hh.
  destruct (Z.of_nat (length requests) >=? 10) eqn:E1; [lia|].
  destruct (Z.of_nat (length requests) >=? 100) eqn:E2; [lia|].
  by destruct (checkSuspiciousPatterns ip (logsOf ip s) s).
Qed.

Lemma afterBlockCheck_unblocked s :
  blockedIPs s !! clientIP s = None -> afterBlockCheck s = s.
Proof. intros H. unfold afterBlockCheck, isIPBlocked. by rewrite H. Qed.

Lemma afterBucketCheck_burst now ip requests s :
  burstLog now ip requests s -> (length requests <= 5)%nat ->
  let s' := afterBucketCheck s in
  blockedIPs s' = blockedIPs s /\
  lastRefill (bucketOf ip s') = now /\
  (tokens (bucketOf ip s') == inject_Z (Z.of_nat (20 - S (length requests))))%Q.
Proof.
  intros (Hc & Hi & _ & Hbl & _ & Hl & Ht) Hk. cbv zeta.
  destruct (afterBucketCheck_frame s) as (_ & _ & _ & Hb & _).
  rewrite Hb. unfold afterBucketCheck.
  rewrite afterBlockCheck_unblocked by congruence.
  split; [done|]. rewrite Hi.
  destruct (checkTokenBucket_same_instant ip s (20 - length requests))
    as (Hg & Hc' & Hl' & Ht'); [congruence | done | lia |].
  rewrite bool_decide_eq_true_2 in Hg by lia. rewrite Hg in Ht'.
  split; [congruence|].
  rewrite Ht'. by replace (20 - length requests - 1)%nat with (20 - S (length requests))%nat by lia.
Qed.

(** A request of the burst that raises no suspicion is let through. *)
Lemma checkRateLimit_burst_allowed now ip requests s request :
  burstLog now ip requests s -> fst request <= 50000 -> (length requests <= 5)%nat ->
  checkSuspiciousPatterns ip (logsOf ip s) s = false ->
  fst (checkRateLimit (fst request) (snd request) s) = allow /\
  burstLog now ip (requests ++ [request]) (snd (checkRateLimit (fst request) (snd request) s)).
Proof.
  intros Hb Hsz Hk Hsus. rewrite checkRateLimit_unfold. cbn [fst snd].
  unfold admission, afterCheckRateLimit.
  rewrite (firstFailing_burst now ip requests s) by done. rewrite Hsus.
  split; [reflexivity|].
  destruct (afterBucketCheck_burst now ip requests s Hb Hk) as (Hbl' & Hl' & Ht').
  destruct (afterBucketCheck_frame s) as (Hc1 & Hi1 & _ & _ & Hcb1).
  destruct Hb as (Hc & Hi & Hs & Hbl & Hl & _ & _).
  repeat split; cbn [clock clientIP circuitBreaker blockedIPs set_requestLogs];
    try congruence.
  - unfold logsOf at 1. cbn [requestLogs set_requestLogs].
    rewrite Hi, lookup_insert_eq. cbn [default]. rewrite Hl.
    rewrite map_app. cbn [map]. f_equal. unfold newLogEntry. by rewrite Hc, Hi.
  - exact Hl'.
  - rewrite Ht'. rewrite length_app. cbn [length].
    by replace (length requests + 1)%nat with (S (length requests)) by lia.
Qed.

(** One that does is taken for an attack, and the identity blocked. *)
Lemma checkRateLimit_burst_suspicious now ip requests s requestSize ep :
  burstLog now ip requests s -> requestSize <= 50000 -> (length requests <= 5)%nat ->
  checkSuspiciousPatterns ip (logsOf ip s) s = true ->
  fst (checkRateLimit requestSize ep s) = reject msgSuspicious (Some 900) /\
  blockedState now ip (snd (checkRateLimit requestSize ep s)).
Proof.
  intros Hb Hsz Hk Hsus. rewrite checkRateLimit_unfold. cbn [fst snd].
  unfold admission, afterCheckRateLimit.
  rewrite (firstFailing_burst now ip requests s) by done. rewrite Hsus.
  split; [reflexivity|].
  destruct (afterBucketCheck_frame s) as (Hc1 & Hi1 & _ & _ & Hcb1).
  destruct Hb as (Hc & Hi & Hs & Hbl & Hl & _ & _).
  repeat split; cbn [clock clientIP circuitBreaker blockIP set_blockedIPs];
    try congruence.
  unfold blockIP. cbn [blockedIPs set_blockedIPs].
  rewrite Hi, lookup_insert_eq, Hc1, Hc. reflexivity.
Qed.

(** From then on every request is refused at the block table. *)
Lemma checkRateLimit_blocked now ip s requestSize ep :
  blockedState now ip s -> 0 <= now ->
  checkRateLimit requestSize ep s = (reject msgBlocked (Some 900), s).
Proof.
  intros (Hc & Hi & Hs & Hbl) Hnow.
  unfold checkRateLimit, isCircuitBreakerOpen, getClientIP, isIPBlocked.
  rewrite Hs, Hi, Hbl, Hc. cbn [BreakerState_eqb].
  destruct (now + 900000 =? 0) eqn:E0; [lia|].
  destruct (now >? now + 900000) eqn:E1; [lia|].
  rewrite Hbl. cbn. do 3 f_equal. unfold ceilDiv.
  replace (- (now + 900000 - now)) with (-900 * 1000) by lia.
  by rewrite Z.div_mul.
Qed.

Lemma checkRateLimitEach_cons request requests s :
  checkRateLimitEach (request :: requests) s
  = (fst (checkRateLimit (fst request) (snd request) s)
       :: fst (checkRateLimitEach requests
                 (snd (checkRateLimit (fst request) (snd request) s))),
     snd (checkRateLimitEach requests
            (snd (checkRateLimit (fst request) (snd request) s)))).
Proof.
  destruct request as [requestSize ep]. cbn [checkRateLimitEach fst snd].
  destruct (checkRateLimit requestSize ep s) as [r s1]. cbn [fst snd].
  by destruct (checkRateLimitEach requests s1).
Qed.

Lemma checkRateLimitEach_blocked now ip requests s :
  blockedState now ip s -> 0 <= now ->
  checkRateLimitEach requests s
  = (repeat (reject msgBlocked (Some 900)) (length requests), s).
Proof.
  intros Hb Hnow. induction requests as [|[requestSize ep] requests IH]; [done|].
  cbn [checkRateLimitEach length repeat].
  rewrite (checkRateLimit_blocked now ip s) by done. by rewrite IH.
Qed.

Lemma checkRateLimitTimes_each n requestSize ep s :
  checkRateLimitTimes n requestSize ep s
  = checkRateLimitEach (repeat (requestSize, ep) n) s.
Proof.
  revert s. induction n as [|n IH]; intros s; [done|].
  cbn [checkRateLimitTimes repeat checkRateLimitEach].
  destruct (checkRateLimit requestSize ep s) as [r s1]. by rewrite IH.
Qed.

Lemma burstLog_initial now ip : burstLog now ip [] (initial now ip).
Proof. repeat split. Qed.

(** The burst, request by request: as long as no suspicion is raised the
    requests are let through; the first that raises one is rejected and
    all later ones are refused at the block table. *)
Lemma checkRateLimitEach_burst now ip pending : forall logged s,
  0 <= now ->
  burstLog now ip logged s ->
  Forall (fun request => 0 <= fst request <= 50000) (logged ++ pending) ->
  (length logged <= 5)%nat -> (6 <= length logged + length pending)%nat ->
  let admitted :=
    match logged ++ pending with
    | r1 :: r2 :: r3 :: r4 :: _ =>
        if (fst r4 >? 10000) && (fst r4 >? 3 * (fst r1 + fst r2 + fst r3))
        then 4%nat else 5%nat
    | _ => 5%nat
    end in
  (length logged <= admitted)%nat ->
  fst (checkRateLimitEach pending s)
  = repeat allow (admitted - length logged)
    ++ [reject msgSuspicious (Some 900)]
    ++ repeat (reject msgBlocked (Some 900))
         (length pending - S (admitted - length logged)).
Proof.
  induction pending as [|request pending IH]; intros logged s Hnow Hb Hsz Hk Hlen;
    cbv zeta; intros Hadm.
  { cbn [length] in Hlen. lia. }
  assert (Forall (fun request => 0 <= fst request) logged) as Hpos.
  { apply Forall_app in Hsz as [Hsz _]. eapply Forall_impl; [exact Hsz|]. cbn. lia. }
  assert (fst request <= 50000) as Hreq.
  { apply Forall_app in Hsz as [_ Hsz]. apply Forall_cons in Hsz as [? _]. lia. }
  pose proof Hb as (Hc & _ & _ & _ & Hl & _ & _).
  pose proof (checkSuspiciousPatterns_burst now ip logged s Hc Hpos Hk) as Hsus.
  rewrite <- Hl in Hsus.
  rewrite checkRateLimitEach_cons. cbn [fst snd length]. cbn [length] in Hlen.
  set (admitted := match logged ++ request :: pending with
                   | r1 :: r2 :: r3 :: r4 :: _ => _ | _ => 5%nat end) in *.
  destruct (decide (length logged = admitted)) as [Heq|Hne].
  - (* the suspicion is raised now *)
    assert (checkSuspiciousPatterns ip (logsOf ip s) s = true) as Htrue.
    { rewrite Hsus. subst admitted.
      destruct logged as [|r1 [|r2 [|r3 [|r4 [|r5 [|r6 rest]]]]]];
        cbn [length app] in *; try lia; try done.
      - destruct pending as [|? [|? [|? ?]]]; cbn in Heq; try lia;
          by destruct (_ && _).
      - destruct pending as [|? [|? ?]]; cbn in Heq; try lia; by destruct (_ && _).
      - destruct pending as [|? ?]; cbn in Heq; try lia; by destruct (_ && _).
      - by destruct (_ && _).
      - by destruct (_ && _). }
    destruct (checkRateLimit_burst_suspicious now ip logged s (fst request) (snd request)
                Hb Hreq Hk Htrue) as [-> Hblocked].
    rewrite (checkRateLimitEach_blocked now ip pending _ Hblocked Hnow). cbn [fst].
    rewrite Heq, Nat.sub_diag. cbn [repeat app]. do 2 f_equal. lia.
  - assert (checkSuspiciousPatterns ip (logsOf ip s) s = false) as Hfalse.
    { rewrite Hsus. subst admitted.
      destruct logged as [|r1 [|r2 [|r3 [|r4 [|r5 [|r6 rest]]]]]];
        cbn [length app] in *; try lia; try done.
      - destruct (_ && _); [exfalso; lia | done].
      - exfalso. destruct ((_ >? _) && _); lia. }
    destruct (checkRateLimit_burst_allowed now ip logged s request Hb Hreq Hk Hfalse)
      as [-> Hb'].
    assert (logged ++ request :: pending = (logged ++ [request]) ++ pending) as Happ
      by (by rewrite <- app_assoc).
    specialize (IH (logged ++ [request]) _ Hnow Hb').
    rewrite <- Happ in IH. fold admitted in IH. cbv zeta in IH.
    rewrite length_app in IH. cbn [length] in IH.
    assert (admitted <= 5)%nat as Ha5.
    { subst admitted. destruct (logged ++ request :: pending) as [|? [|? [|? [|? ?]]]];
        try lia. destruct (_ && _); lia. }
    rewrite IH by (done || lia).
    replace (admitted - length logged)%nat with (S (admitted - (length logged + 1)))%nat by lia.
    cbn [repeat app]. do 3 f_equal.
Qed.

(** C5 (amended).  Bursts.  With capacity 20 and refill rate 0.5 tokens per
    second, on a fresh service, at a time that is not negative, as those of
    [Date.now()] are: 21 bucket checks of one identity at one
    instant are granted exactly 20 times, and refused the 21st; of 21
    admission checks ([checkRateLimit]) at one instant, whatever their
    endpoints and with payloads of 0 to 50000 bytes each, exactly the first
    5 are allowed - or only the first 4, when the payload of the 4th is over
    10000 bytes and over three times the first three together, which is the
    size test of the suspicious-pattern check on the log of four.  The
    request after the last one allowed is rejected by the suspicious-pattern
    check, which blocks the identity, and all later ones are rejected at the
    block table, all with [retryAfter] 900. *)
Theorem burst_of_21_requests now ip requests :
  0 <= now -> length requests = 21%nat ->
  Forall (fun request => 0 <= fst request <= 50000) requests ->
  let size n := nth n (map fst requests) 0 in
  let admitted :=
    if (size 3%nat >? 10000) && (size 3%nat >? 3 * (size 0%nat + size 1%nat + size 2%nat))
    then 4%nat else 5%nat in
  fst (checkTokenBucketTimes 21 ip (initial now ip)) = repeat true 20 ++ [false] /\
  fst (checkRateLimitEach requests (initial now ip))
  = repeat {| allowed := true; reason := None; retryAfter := None |} admitted
    ++ [{| allowed := false; reason := Some msgSuspicious; retryAfter := Some 900 |}]
    ++ repeat {| allowed := false; reason := Some msgBlocked; retryAfter := Some 900 |}
         (20 - admitted).
Proof.
  intros Hnow Hlen Hsz. cbv zeta. split.
  - by rewrite (checkTokenBucketTimes_same_instant 21 ip (initial now ip) 20).
  - pose proof (checkRateLimitEach_burst now ip requests [] (initial now ip) Hnow
                  (burstLog_initial now ip) Hsz) as H.
    cbn [length app Nat.add] in H. cbv zeta in H.
    destruct requests as [|r1 [|r2 [|r3 [|r4 rest]]]]; try discriminate.
    cbn [map nth]. cbn [length] in Hlen.
    rewrite H by (cbn [length]; try destruct (_ && _); lia).
    rewrite Nat.sub_0_r. cbn [length].
    destruct (_ && _); do 2 f_equal; f_equal; lia.
Qed.

Lemma burst_of_21_requests_witness :
  map allowed (fst (checkRateLimitEach identicalRequests (initial 1000 "client_1")))
  = repeat true 5 ++ repeat false 16 /\
  map allowed (fst (checkRateLimitEach burstWithLargePayload (initial 1000 "client_1")))
  = repeat true 4 ++ repeat false 17.
Proof.
  split.
  - destruct (burst_of_21_requests 1000 "client_1" identicalRequests) as [_ ->];
      [lia | reflexivity | repeat constructor; cbn; lia |].
    reflexivity.
  - destruct (burst_of_21_requests 1000 "client_1" burstWithLargePayload) as [_ ->];
      [lia | reflexivity | repeat constructor; cbn; lia |].
    reflexivity.
Defined.

(** C5, as stated, fails: of 21 instantaneous requests on a fresh service
    only 5 are allowed, not 20, and the 21st is refused at the block table,
    not at the bucket. *)
Lemma burst_of_21_requests_allows_5 :
  let answers := fst (checkRateLimitTimes 21 100 "gemini-api" (initial 1000 "client_1")) in
  map allowed answers <> repeat true 20 ++ [false] /\
  length (List.filter allowed answers) = 5%nat /\
  (reason <$> last answers) = Some (Some msgBlocked).
Proof. vm_compute. repeat split. discriminate. Qed.


(** *** Every check can be the deciding one *)

Example circuit_open_decides :
  firstFailing 100 (run (repeat RecordFailure 5) (initial 0 "client_1"))
  = Some CircuitOpen.
Proof. vm_compute. reflexivity. Qed.

Example identity_blocked_decides :
  firstFailing 100 (run (repeat (CheckRateLimit 100 "gemini-api") 6) (initial 0 "client_1"))
  = Some IdentityBlocked.
Proof. vm_compute. reflexivity. Qed.

Example payload_too_large_decides :
  firstFailing 50001 (initial 0 "client_1") = Some PayloadTooLarge.
Proof. vm_compute. reflexivity. Qed.

Example token_bucket_empty_decides :
  firstFailing 100
    (run (tenRequestsInAMinute ++ repeat (CheckRateLimit 100 "gemini-api") 20)
       (initial 0 "client_1"))
  = Some TokenBucketEmpty.
Proof. vm_compute. reflexivity. Qed.

Example per_minute_decides :
  firstFailing 100 (run tenRequestsInAMinute (initial 0 "client_1")) = Some PerMinute.
Proof. vm_compute. reflexivity. Qed.

Example per_hour_decides :
  firstFailing 100 (run (steadyRequests 100) (initial 0 "client_1")) = Some PerHour.
Proof. vm_compute. reflexivity. Qed.

Example suspicious_pattern_decides :
  firstFailing 100 (run (repeat (CheckRateLimit 100 "gemini-api") 5) (initial 0 "client_1"))
  = Some SuspiciousPattern.
Proof. vm_compute. reflexivity. Qed.

(** The size of the last request let through, not of the one being
    checked, is what is compared with the average. *)
Example size_anomaly_decides :
  firstFailing 100
    (run [CheckRateLimit 100 "gemini-api"; Advance 20000;
          CheckRateLimit 100 "gemini-api"; Advance 20000;
          CheckRateLimit 100 "gemini-api"; Advance 20000;
          CheckRateLimit 40000 "gemini-api"; Advance 20000] (initial 0 "client_1"))
  = Some SuspiciousPattern.
Proof. vm_compute. reflexivity. Qed.

Example no_check_fails :
  firstFailing 100 (initial 0 "client_1") = None.
Proof. vm_compute. reflexivity. Qed.

(** *** Instances *)

Lemma token_bucket_invariant_witness :
  let s := run [CheckRateLimit 100 "gemini-api"; Advance 3000] (initial 0 "client_1") in
  reachable s /\
  (tokens (bucketOf "client_1" s) <= tokens (refill (clock s) (bucketOf "client_1" s)))%Q /\
  (tokens (refill (clock s) (bucketOf "client_1" s)) <= 20)%Q.
Proof.
  cbv zeta.
  assert (reachable (run [CheckRateLimit 100 "gemini-api"; Advance 3000]
                       (initial 0 "client_1"))) as Hr.
  { apply (reachable_step (Advance 3000)); [|cbn; lia].
    apply (reachable_step (CheckRateLimit 100 "gemini-api")); [|exact I].
    apply reachable_initial. }
  split; [exact Hr|].
  destruct (token_bucket_invariant _ "client_1" Hr) as (H1 & H2 & _).
  split; [exact H1 | exact H2].
Defined.

Lemma rejection_after_bucket_check_costs_a_token_witness :
  let s := run tenRequestsInAMinute (initial 0 "client_1") in
  let s' := snd (checkRateLimit 100 "gemini-api" s) in
  reason (fst (checkRateLimit 100 "gemini-api" s)) = Some msgPerMinute /\
  tokenBuckets s' !! "client_1"
  = Some {| tokens := (tokens (refill (clock s) (bucketOf "client_1" s)) - 1)%Q;
            lastRefill := 30000 |} /\
  requestLogs s' = requestLogs s.
Proof.
  cbv zeta.
  assert (reason (fst (checkRateLimit 100 "gemini-api"
                         (run tenRequestsInAMinute (initial 0 "client_1"))))
          = Some msgPerMinute) as Hreason by (vm_compute; reflexivity).
  split; [exact Hreason|].
  destruct (rejection_after_bucket_check_costs_a_token 100 "gemini-api"
              (run tenRequestsInAMinute (initial 0 "client_1"))) as (H & _ & _).
  destruct (H (or_introl Hreason)) as (_ & _ & Hb & Hl).
  split; [exact Hb | exact Hl].
Defined.

(** C6, as stated, fails: the bucket check reads the clock of the machine
    and does not guard against its being set back.  A request leaves 19
    tokens in the bucket; the clock is set back a minute; the refill of the
    next bucket check adds -30 tokens, which lowers the count to -11, the
    check refuses, and the bucket is stored with -11 tokens. *)
Lemma clock_set_back_breaks_the_bucket :
  let s := run clockSetBack (initial 100000 "client_1") in
  let before := bucketOf "client_1" s in
  let refilled := refill (clock s) before in
  clock s = 40000 /\ lastRefill before = 100000 /\
  (tokens before == 19)%Q /\ (tokens refilled == -11)%Q /\
  ~ (tokens before <= tokens refilled)%Q /\
  fst (checkTokenBucket "client_1" s) = false /\
  exists stored,
    tokenBuckets (snd (checkTokenBucket "client_1" s)) !! "client_1" = Some stored /\
    (tokens stored == -11)%Q /\ ~ (0 <= tokens stored)%Q.
Proof.
  cbv zeta. split; [reflexivity|]. split; [vm_compute; reflexivity|].
  split; [vm_compute; reflexivity|]. split; [vm_compute; reflexivity|].
  split; [vm_compute; intros H; by apply H|].
  split; [vm_compute; reflexivity|].
  eexists. split; [vm_compute; reflexivity|].
  split; [vm_compute; reflexivity|]. vm_compute. intros H. by apply H.
Qed.


(** *** Further properties of the rate limiter *)

Ltac filter_lookup_none :=
  match goal with
  | |- context [filter ?P ?m !! ?i] =>
      let H := fresh in
      assert (filter P m !! i = None) as H;
      [apply map_lookup_filter_None | rewrite H; clear H]
  end.

Ltac filter_lookup_some x :=
  match goal with
  | |- context [filter ?P ?m !! ?i] =>
      let H := fresh in
      assert (filter P m !! i = Some x) as H;
      [apply map_lookup_filter_Some | rewrite H; clear H]
  end.

Lemma reachable_run es : forall s,
  reachable s -> Forall admissible es -> reachable (run es s).
Proof.
  induction es as [|e es IH]; intros s Hr Ha; cbn [run fold_left]; [done|].
  apply Forall_cons in Ha as [He Hes].
  apply IH; [|done]. by apply reachable_step.
Qed.

(** *** The breaker *)

Lemma step_breaker_frame e s :
  match e with RecordFailure | TimerUpdateCircuitBreaker => True
  | _ => circuitBreaker (step e s) = circuitBreaker s end.
Proof.
  destruct e; cbn [step]; try done.
  - apply checkRateLimit_breaker.
  - unfold getStatus.
    pose proof (isIPBlocked_frame (getClientIP s) s) as (_ & _ & _ & _ & Hb).
    by destruct (isIPBlocked (getClientIP s) s).
Qed.

Lemma recordFailure_breakerOk s : breakerOk s -> breakerOk (recordFailure s).
Proof.
  unfold breakerOk, recordFailure. cbn.
  destruct (circuitBreaker s) as [f t st]. cbn. intros [H0 H].
  split; [lia|].
  destruct st; cbn; rewrite ?andb_true_r, ?andb_false_r.
  - destruct (f + 1 >=? 5) eqn:E; split; try done; lia.
  - split; [done|]. intros Hlt. exfalso.
    assert (~ f < 5) by (intros Hf; by apply H in Hf). lia.
  - split; [done|]. intros Hlt. exfalso.
    assert (~ f < 5) by (intros Hf; by apply H in Hf). lia.
Qed.

Lemma updateCircuitBreaker_breakerOk s :
  breakerOk s -> breakerOk (updateCircuitBreaker s).
Proof.
  unfold breakerOk, updateCircuitBreaker.
  destruct (circuitBreaker s) as [f t st] eqn:Ecb. cbn. intros [H0 H].
  destruct st; cbn; rewrite ?Ecb; cbn; [done| |].
  - destruct (_ >? _); cbn; rewrite ?Ecb; cbn; [|done].
    split; [done|]. split; [done|]. intros Hf. by apply H in Hf.
  - destruct (_ >? _); cbn; rewrite ?Ecb; cbn; [|done].
    split; [lia|]. split; [lia | done].
Qed.

Lemma step_breakerOk e s : breakerOk s -> breakerOk (step e s).
Proof.
  intros H. pose proof (step_breaker_frame e s) as Hf.
  destruct e; try (unfold breakerOk in *; rewrite Hf; exact H).
  - by apply recordFailure_breakerOk.
  - by apply updateCircuitBreaker_breakerOk.
Qed.

(** X1.  In every state the service can reach the failure count of
    the breaker is not negative, and the breaker is closed exactly when
    fewer than five failures are on record: open or half-open, it has five or
    more, and [recordFailure] never leaves a closed breaker with five. *)
Theorem breaker_closed_iff_below_threshold s :
  reachable s ->
  0 <= failures (circuitBreaker s) /\
  (state (circuitBreaker s) = CLOSED <-> failures (circuitBreaker s) < 5).
Proof.
  induction 1 as [now ip | e s _ IH Ha].
  - cbn. split; [lia|]. split; [lia | done].
  - by apply step_breakerOk.
Qed.

Lemma breaker_closed_iff_below_threshold_witness :
  let s := run (repeat RecordFailure 5) (initial 0 "client_1") in
  reachable s /\ failures (circuitBreaker s) = 5 /\ state (circuitBreaker s) <> CLOSED.
Proof.
  cbv zeta.
  assert (reachable (run (repeat RecordFailure 5) (initial 0 "client_1"))) as Hr.
  { apply reachable_run; [apply reachable_initial|].
    repeat constructor. }
  split; [exact Hr|]. split; [reflexivity|].
  destruct (breaker_closed_iff_below_threshold _ Hr) as [_ H].
  intros Hc. apply H in Hc. vm_compute in Hc. discriminate.
Defined.

(** X2.  [updateCircuitBreaker] moves the breaker one state at a
    time.  Run on an open breaker whose last failure is more than ten minutes
    old, it leaves it half-open with its failures kept; it takes a second run
    to close it, which resets the failure count to 0 and keeps the time of
    the last failure; a third run changes nothing. *)
Theorem breaker_recovery_takes_two_ticks s :
  state (circuitBreaker s) = OPEN ->
  clock s - lastFailureTime (circuitBreaker s) > 600000 ->
  let once := updateCircuitBreaker s in
  let twice := updateCircuitBreaker once in
  state (circuitBreaker once) = HALF_OPEN /\
  failures (circuitBreaker once) = failures (circuitBreaker s) /\
  state (circuitBreaker twice) = CLOSED /\
  failures (circuitBreaker twice) = 0 /\
  lastFailureTime (circuitBreaker twice) = lastFailureTime (circuitBreaker s) /\
  updateCircuitBreaker twice = twice.
Proof.
  destruct s as [now ip logs buckets blocked [f t st]]. cbn. intros -> Ht.
  unfold updateCircuitBreaker. cbn.
  change (5 * 60 * 1000) with 300000. change (10 * 60 * 1000) with 600000.
  destruct (now - t >? 300000) eqn:E1; [|lia]. cbn.
  destruct (now - t >? 600000) eqn:E2; [|lia]. cbn.
  done.
Qed.


(** *** The sliding windows *)

Lemma filter_length_mono {A} (p q : A -> bool) (l : list A) :
  (forall x, p x = true -> q x = true) ->
  (length (List.filter p l) <= length (List.filter q l))%nat.
Proof.
  intros Hpq. induction l as [|x l IH]; cbn; [lia|].
  destruct (p x) eqn:E.
  - rewrite (Hpq x E). cbn. lia.
  - destruct (q x); cbn; lia.
Qed.

Lemma filter_filter_length {A} (p q : A -> bool) (l : list A) :
  (forall x, p x = true -> q x = true) ->
  List.filter p (List.filter q l) = List.filter p l.
Proof.
  intros Hpq. induction l as [|x l IH]; cbn; [done|].
  destruct (q x) eqn:Eq; cbn.
  - destruct (p x); by rewrite IH.
  - destruct (p x) eqn:Ep; [|done]. rewrite (Hpq x Ep) in Eq. discriminate.
Qed.

Lemma countSince_frame windowMs s1 s2 :
  clock s1 = clock s2 -> clientIP s1 = clientIP s2 -> requestLogs s1 = requestLogs s2 ->
  countSince windowMs s1 = countSince windowMs s2.
Proof. unfold countSince, logsOf. by intros -> -> ->. Qed.

Lemma logsOf_cleanupOldLogs ip s :
  logsOf ip (cleanupOldLogs s)
  = List.filter (fun log => timestamp log >? clock s - 7200000) (logsOf ip s).
Proof.
  unfold logsOf, cleanupOldLogs. cbn [requestLogs set_blockedIPs set_tokenBuckets set_requestLogs].
  rewrite lookup_omap.
  change (2 * 60 * 60 * 1000) with 7200000.
  destruct (requestLogs s !! ip) as [logs|]; cbn; [|done].
  by destruct (List.filter _ logs).
Qed.

(** What an admission check does to the count of a window. *)
Lemma checkRateLimit_countSince windowMs requestSize ep s :
  0 < windowMs ->
  countSince windowMs (snd (checkRateLimit requestSize ep s))
  = countSince windowMs s
    + (if allowed (fst (checkRateLimit requestSize ep s)) then 1 else 0).
Proof.
  intros Hw. rewrite checkRateLimit_unfold. cbn [fst snd].
  destruct (afterBlockCheck_frame s) as (Hc1 & Hi1 & Hl1 & _ & _).
  destruct (afterBucketCheck_frame s) as (Hc2 & Hi2 & Hl2 & _ & _).
  unfold admission, afterCheckRateLimit.
  destruct (firstFailing requestSize s) as [[]|]; cbn [allowed verdict reject allow];
    rewrite ?Z.add_0_r; try (by apply countSince_frame).
  unfold countSince.
  cbn [clock clientIP set_requestLogs].
  rewrite Hc2, Hi2.
  assert (forall m s0, logsOf (clientIP s) (set_requestLogs m s0) = default [] (m !! clientIP s))
    as -> by done.
  rewrite lookup_insert_eq. unfold default; cbn [from_option id].
  rewrite List.filter_app, length_app. cbn [List.filter newLogEntry timestamp].
  destruct (clock s >? clock s - windowMs) eqn:E; [|lia]. cbn [length]. lia.
Qed.

Lemma checkSuspiciousPatterns_recent s :
  checkSuspiciousPatterns (clientIP s) (logsOf (clientIP s) s) s = false ->
  countSince 10000 s < 5.
Proof.
  unfold checkSuspiciousPatterns, countSince.
  change (suspiciousThreshold config) with 5.
  rewrite (List.filter_ext (fun log => clock s - timestamp log <? 10000)
                           (fun log => timestamp log >? clock s - 10000))
    by (intros log; lia).
  destruct (_ >=? 5) eqn:E; [discriminate|]. lia.
Qed.

Lemma countSince_advance windowMs d s :
  0 <= d -> countSince windowMs (step (Advance d) s) <= countSince windowMs s.
Proof.
  intros Hd. unfold countSince. cbn [step clock set_clock clientIP].
  assert (logsOf (clientIP s) (set_clock (clock s + d) s) = logsOf (clientIP s) s) as ->
    by done.
  apply inj_le. apply filter_length_mono. intros log. lia.
Qed.

Lemma countSince_cleanupOldLogs windowMs s :
  windowMs <= 7200000 ->
  countSince windowMs (cleanupOldLogs s) = countSince windowMs s.
Proof.
  intros Hw. unfold countSince.
  assert (clock (cleanupOldLogs s) = clock s) as -> by done.
  assert (clientIP (cleanupOldLogs s) = clientIP s) as -> by done.
  rewrite logsOf_cleanupOldLogs, filter_filter_length; [done|].
  intros log. lia.
Qed.

Lemma updateCircuitBreaker_frame s :
  let s' := updateCircuitBreaker s in
  clock s' = clock s /\ clientIP s' = clientIP s /\ requestLogs s' = requestLogs s /\
  tokenBuckets s' = tokenBuckets s /\ blockedIPs s' = blockedIPs s.
Proof.
  unfold updateCircuitBreaker.
  destruct (state (circuitBreaker s)); [done| |]; by destruct (_ >? _).
Qed.

Lemma getStatus_frame s :
  let s' := snd (getStatus s) in
  clock s' = clock s /\ clientIP s' = clientIP s /\ requestLogs s' = requestLogs s /\
  tokenBuckets s' = tokenBuckets s /\ circuitBreaker s' = circuitBreaker s /\
  s' = snd (isIPBlocked (clientIP s) s).
Proof.
  unfold getStatus, getClientIP.
  pose proof (isIPBlocked_frame (clientIP s) s) as H.
  destruct (isIPBlocked (clientIP s) s). cbn [snd] in *. intuition.
Qed.

Lemma step_windowsOk e s : admissible e -> windowsOk s -> windowsOk (step e s).
Proof.
  intros Ha (H1 & H2 & H3). unfold windowsOk. destruct e.
  - cbn in Ha.
    pose proof (countSince_advance 10000 d s Ha).
    pose proof (countSince_advance 60000 d s Ha).
    pose proof (countSince_advance 3600000 d s Ha). lia.
  - cbn [step]. rewrite !checkRateLimit_countSince by lia.
    rewrite checkRateLimit_unfold. cbn [fst].
    destruct (allowed (admission requestSize s)) eqn:E; [|lia].
    apply firstFailing_allowed in E.
    pose proof (proj1 (firstFailing_None requestSize s) E) as Hf.
    pose proof (Hf PerMinute) as Hm. pose proof (Hf PerHour) as Hh.
    pose proof (Hf SuspiciousPattern) as Hs. cbn [fails] in Hm, Hh, Hs.
    apply checkSuspiciousPatterns_recent in Hs. lia.
  - cbn [step].
    rewrite !(countSince_frame _ (recordFailure s) s) by done. lia.
  - cbn [step].
    destruct (updateCircuitBreaker_frame s) as (Hc & Hi & Hl & _).
    rewrite !(countSince_frame _ (updateCircuitBreaker s) s) by done. lia.
  - cbn [step]. rewrite !countSince_cleanupOldLogs by lia. lia.
  - cbn [step].
    destruct (getStatus_frame s) as (Hc & Hi & Hl & _).
    rewrite !(countSince_frame _ (snd (getStatus s)) s) by done. lia.
  - cbn [step]. unfold countSince, logsOf, reset, getClientIP.
    cbn [clock clientIP requestLogs set_blockedIPs set_tokenBuckets set_requestLogs].
    rewrite lookup_delete_eq. cbn. lia.
Qed.

(** X3.  In every state the service can reach, the log of the client holds
    at most 5 requests of the last ten seconds, at most 10 of the last minute
    and at most 100 of the last hour: [checkRateLimit] never lets through
    more, whatever the timers, [reset] and the passing of time do in
    between. *)
Theorem sliding_window_bounds s :
  reachable s ->
  countSince 10000 s <= 5 /\ countSince 60000 s <= 10 /\ countSince 3600000 s <= 100.
Proof.
  induction 1 as [now ip | e s _ IH Ha].
  - unfold countSince, logsOf. cbn. rewrite lookup_empty. cbn. lia.
  - by apply step_windowsOk.
Qed.

Lemma sliding_window_bounds_witness :
  let s := run tenRequestsInAMinute (initial 0 "client_1") in
  reachable s /\ countSince 60000 s = 10 /\ countSince 10000 s <= 5.
Proof.
  cbv zeta.
  assert (reachable (run tenRequestsInAMinute (initial 0 "client_1"))) as Hr.
  { apply reachable_run; [apply reachable_initial|].
    unfold tenRequestsInAMinute. cbn. repeat constructor; cbn; lia. }
  split; [exact Hr|]. split; [vm_compute; reflexivity|].
  exact (proj1 (sliding_window_bounds _ Hr)).
Defined.

(** *** Blocks *)

Lemma isIPBlocked_blocksOk ip s : blocksOk s -> blocksOk (snd (isIPBlocked ip s)).
Proof.
  intros H. unfold isIPBlocked.
  destruct (blockedIPs s !! ip) as [e|]; [|done].
  destruct (e =? 0); [done|].
  destruct (clock s >? e); [|done].
  intros ip' e' Hl. cbn in Hl. apply lookup_delete_Some in Hl as [_ Hl].
  by apply (H ip').
Qed.

Lemma blocksOk_frame s1 s2 :
  clock s2 = clock s1 -> blockedIPs s2 = blockedIPs s1 -> blocksOk s1 -> blocksOk s2.
Proof. unfold blocksOk. by intros -> ->. Qed.

Lemma blockIP_blocksOk ip s : blocksOk s -> blocksOk (blockIP ip s).
Proof.
  intros H ip' e'. unfold blockIP. cbn.
  destruct (decide (ip = ip')) as [->|Hne].
  - rewrite lookup_insert_eq. intros [= <-]. lia.
  - rewrite lookup_insert_ne by done. apply H.
Qed.

Lemma step_blocksOk e s : admissible e -> blocksOk s -> blocksOk (step e s).
Proof.
  intros Ha H. destruct e; cbn [step].
  - cbn in Ha. intros ip e' Hl. cbn in *. specialize (H ip e' Hl). lia.
  - rewrite checkRateLimit_unfold. cbn [snd].
    pose proof (isIPBlocked_blocksOk (clientIP s) s H) as H1.
    fold (afterBlockCheck s) in H1.
    destruct (afterBucketCheck_frame s) as (Hc2 & _ & _ & Hb2 & _).
    destruct (afterBlockCheck_frame s) as (Hc1 & _).
    assert (blocksOk (afterBucketCheck s)) as H2.
    { eapply blocksOk_frame; [| |exact H1]; congruence. }
    unfold afterCheckRateLimit.
    destruct (firstFailing requestSize s) as [[]|]; try done.
    by apply blockIP_blocksOk.
  - done.
  - destruct (updateCircuitBreaker_frame s) as (Hc & _ & _ & _ & Hb).
    by eapply blocksOk_frame.
  - intros ip e' Hl. cbn in Hl.
    apply map_lookup_filter_Some in Hl as [Hl _]. by apply (H ip).
  - destruct (getStatus_frame s) as (_ & _ & _ & _ & _ & ->).
    by apply isIPBlocked_blocksOk.
  - intros ip e' Hl. cbn in Hl.
    apply lookup_delete_Some in Hl as [_ Hl]. by apply (H ip).
Qed.

Lemma reachable_blocksOk s : reachable s -> blocksOk s.
Proof.
  induction 1 as [now ip | e s _ IH Ha].
  - intros ip' e' Hl. cbn in Hl. by rewrite lookup_empty in Hl.
  - by apply step_blocksOk.
Qed.

Lemma ceilDiv_bounds a k : 0 <= a <= k * 1000 -> 0 <= ceilDiv a 1000 <= k.
Proof. unfold ceilDiv. intros H. Z.div_mod_to_equations. lia. Qed.

(** X4.  In every state the service can reach, an answer of [checkRateLimit]
    that carries a [retryAfter] is a rejection, and the number of seconds
    lies between 0 and 3600; for the rejection of a blocked identity it is at
    most 900, no block reaching further than fifteen minutes ahead. *)
Theorem retryAfter_bounds requestSize ep s seconds :
  reachable s ->
  retryAfter (fst (checkRateLimit requestSize ep s)) = Some seconds ->
  allowed (fst (checkRateLimit requestSize ep s)) = false /\
  0 <= seconds <= 3600 /\
  (reason (fst (checkRateLimit requestSize ep s)) = Some msgBlocked -> seconds <= 900).
Proof.
  intros Hr%reachable_blocksOk. rewrite checkRateLimit_unfold. cbn [fst].
  unfold admission.
  destruct (firstFailing requestSize s) as [c|] eqn:E; [|done].
  pose proof (firstFailing_fails _ _ _ E) as Hf.
  destruct c; cbn [verdict reject retryAfter allowed reason]; try done;
    try (intros [= <-]; split; [done|]; split; [lia|]; intros; distinct_messages).
  intros Hq. cbn [fails] in Hf. apply bool_decide_eq_true in Hf as [expiry Hx].
  unfold remainingBlockTime in Hq. rewrite Hx in Hq. cbn in Hq. injection Hq as <-.
  apply blockInForce_Some in Hx as [Hl Hle].
  specialize (Hr _ _ Hl).
  pose proof (ceilDiv_bounds (expiry - clock s) 900 ltac:(lia)).
  split; [done|]. split; [lia|]. intros _. lia.
Qed.


Lemma retryAfter_bounds_witness :
  let s := run (repeat (CheckRateLimit 100 "gemini-api") 6) (initial 0 "client_1") in
  reachable s /\
  retryAfter (fst (checkRateLimit 100 "gemini-api" s)) = Some 900 /\
  allowed (fst (checkRateLimit 100 "gemini-api" s)) = false.
Proof.
  cbv zeta.
  assert (reachable (run (repeat (CheckRateLimit 100 "gemini-api") 6)
                       (initial 0 "client_1"))) as Hr.
  { apply reachable_run; [apply reachable_initial|]. repeat constructor. }
  assert (retryAfter (fst (checkRateLimit 100 "gemini-api"
            (run (repeat (CheckRateLimit 100 "gemini-api") 6) (initial 0 "client_1"))))
          = Some 900) as Hq by (vm_compute; reflexivity).
  split; [exact Hr|]. split; [exact Hq|].
  exact (proj1 (retryAfter_bounds 100 "gemini-api" _ 900 Hr Hq)).
Defined.

(** X5.  An identity blocked by [blockIP] is reported blocked by
    [isIPBlocked] as long as no more than 900000 ms have passed, the read
    leaving the state as it is; the first read after that reports it not
    blocked and deletes the entry.  The expiry time must not be 0, which
    [isIPBlocked] takes for no block at all. *)
Theorem block_lasts_fifteen_minutes ip s d :
  clock s + 900000 <> 0 ->
  let later := step (Advance d) (blockIP ip s) in
  fst (isIPBlocked ip later) = (d <=? 900000) /\
  (d <= 900000 -> snd (isIPBlocked ip later) = later) /\
  (900000 < d -> blockedIPs (snd (isIPBlocked ip later)) !! ip = None).
Proof.
  intros Hz. cbv zeta. unfold isIPBlocked, blockIP.
  cbn [step clock set_clock blockedIPs set_blockedIPs].
  rewrite lookup_insert_eq.
  change (blockDurationMinutes config * 60 * 1000) with 900000.
  destruct (clock s + 900000 =? 0) eqn:E0; [lia|].
  destruct (clock s + d >? clock s + 900000) eqn:E1; cbn [fst snd].
  - split; [lia|]. split; [lia|]. intros _. cbn. apply lookup_delete_eq.
  - split; [lia|]. split; [done | lia].
Qed.

Lemma block_lasts_fifteen_minutes_witness :
  fst (isIPBlocked "client_1"
         (step (Advance 900000) (blockIP "client_1" (initial 0 "client_1")))) = true.
Proof.
  exact (proj1 (block_lasts_fifteen_minutes "client_1" (initial 0 "client_1") 900000
                  ltac:(cbn; lia))).
Defined.

(** *** The payload of the request under check *)

Lemma fails_size requestSize1 requestSize2 s c :
  requestSize1 <= 50000 -> requestSize2 <= 50000 ->
  fails c requestSize1 s = fails c requestSize2 s.
Proof. intros H1 H2. destruct c; cbn [fails]; try done. lia. Qed.

Lemma firstFailing_size requestSize1 requestSize2 s :
  requestSize1 <= 50000 -> requestSize2 <= 50000 ->
  firstFailing requestSize1 s = firstFailing requestSize2 s.
Proof.
  intros H1 H2. unfold firstFailing.
  induction evaluationOrder as [|c l IH]; cbn [List.find]; [done|].
  by rewrite (fails_size requestSize1 requestSize2 s c H1 H2), IH.
Qed.

(** X6.  Within the size limit, neither the size nor the endpoint of the
    request under check has a part in the answer: two calls of
    [checkRateLimit] in one state, with sizes of at most 50000, give the same
    answer and leave the same buckets and blocks and as many log entries.
    (The size anomaly test looks at the last request logged, not at the one
    that asks.) *)
Theorem decision_ignores_payload_within_limit requestSize1 requestSize2 ep1 ep2 s :
  requestSize1 <= 50000 -> requestSize2 <= 50000 ->
  let '(answer1, s1) := checkRateLimit requestSize1 ep1 s in
  let '(answer2, s2) := checkRateLimit requestSize2 ep2 s in
  answer1 = answer2 /\ tokenBuckets s1 = tokenBuckets s2 /\
  blockedIPs s1 = blockedIPs s2 /\
  length (logsOf (clientIP s) s1) = length (logsOf (clientIP s) s2).
Proof.
  intros H1 H2. rewrite !checkRateLimit_unfold.
  unfold admission, afterCheckRateLimit.
  rewrite (firstFailing_size requestSize1 requestSize2 s H1 H2).
  destruct (firstFailing requestSize2 s) as [[]|]; try done.
  split; [done|]. split; [done|]. split; [done|].
  unfold logsOf. cbn [requestLogs set_requestLogs].
  rewrite !lookup_insert_eq. cbn. by rewrite !length_app.
Qed.

Lemma decision_ignores_payload_within_limit_witness :
  fst (checkRateLimit 1 "a" (initial 0 "client_1"))
  = fst (checkRateLimit 50000 "b" (initial 0 "client_1")).
Proof.
  pose proof (decision_ignores_payload_within_limit 1 50000 "a" "b" (initial 0 "client_1")
                ltac:(lia) ltac:(lia)) as H.
  destruct (checkRateLimit 1 "a" (initial 0 "client_1")) as [a1 s1].
  destruct (checkRateLimit 50000 "b" (initial 0 "client_1")) as [a2 s2].
  exact (proj1 H).
Defined.

(** *** reset *)

Lemma tokensToAdd_eq (d : Z) :
  (inject_Z d / 1000 * 0.5 == inject_Z d * (1 # 2000))%Q.
Proof. field. Qed.

Lemma refill_fresh now :
  (tokens (refill now {| tokens := bucketCapacity config; lastRefill := now |}) == 20)%Q.
Proof.
  unfold refill. cbn [tokens lastRefill].
  change (bucketCapacity config) with 20%Q. change (refillRate config) with 0.5%Q.
  rewrite Z.sub_diag. apply Q.min_l. rewrite tokensToAdd_eq.
  change (inject_Z 0) with 0%Q. lra.
Qed.

(** X7.  [reset] clears what the limiter holds against the client, and not
    the breaker: after it, a request within the size limit is let through
    unless the breaker is open, in which case it is still rejected with the
    circuit-open answer. *)
Theorem reset_restores_admission requestSize ep s :
  requestSize <= 50000 ->
  circuitBreaker (reset s) = circuitBreaker s /\
  fst (checkRateLimit requestSize ep (reset s))
  = if isCircuitBreakerOpen s then reject msgCircuitOpen (Some 300) else allow.
Proof.
  intros Hsize. split; [done|].
  unfold isCircuitBreakerOpen.
  destruct (BreakerState_eqb (state (circuitBreaker s)) OPEN) eqn:Eb.
  - rewrite checkRateLimit_open; [done|].
    cbn. by destruct (state (circuitBreaker s)).
  - rewrite checkRateLimit_unfold. cbn [fst]. unfold admission.
    assert (firstFailing requestSize (reset s) = None) as ->; [|done].
    apply firstFailing_None. intros c.
    assert (logsOf (clientIP s) (reset s) = []) as Hlogs.
    { unfold logsOf, reset, getClientIP. cbn. by rewrite lookup_delete_eq. }
    assert (blockInForce (reset s) = None) as Hblock.
    { unfold blockInForce, reset, getClientIP. cbn. by rewrite lookup_delete_eq. }
    assert (bucketOf (clientIP s) (reset s)
            = {| tokens := bucketCapacity config; lastRefill := clock s |}) as Hbucket.
    { unfold bucketOf, reset, getClientIP. cbn. by rewrite lookup_delete_eq. }
    destruct c; cbn [fails].
    + exact Eb.
    + rewrite Hblock. apply bool_decide_eq_false. by intros [? ?].
    + lia.
    + unfold tokensAfterRefill.
      assert (clientIP (reset s) = clientIP s) as -> by done.
      assert (clock (reset s) = clock s) as -> by done.
      rewrite Hbucket. unfold Qltb. apply negb_false_iff, Qle_bool_iff.
      rewrite refill_fresh. lra.
    + unfold countSince.
      assert (clientIP (reset s) = clientIP s) as -> by done.
      rewrite Hlogs. done.
    + unfold countSince.
      assert (clientIP (reset s) = clientIP s) as -> by done.
      rewrite Hlogs. done.
    + assert (clientIP (reset s) = clientIP s) as -> by done.
      rewrite Hlogs. done.
Qed.

Lemma reset_restores_admission_witness :
  let blocked := run (repeat (CheckRateLimit 100 "gemini-api") 6) (initial 0 "client_1") in
  allowed (fst (checkRateLimit 100 "gemini-api" blocked)) = false /\
  fst (checkRateLimit 100 "gemini-api" (reset blocked)) = allow.
Proof.
  cbv zeta. split; [vm_compute; reflexivity|].
  exact (proj2 (reset_restores_admission 100 "gemini-api"
                  (run (repeat (CheckRateLimit 100 "gemini-api") 6) (initial 0 "client_1"))
                  ltac:(lia))).
Defined.

(** *** cleanupOldLogs *)

Lemma blockInForce_cleanupOldLogs s : blockInForce (cleanupOldLogs s) = blockInForce s.
Proof.
  unfold blockInForce, cleanupOldLogs.
  cbn [blockedIPs clientIP clock set_blockedIPs set_tokenBuckets set_requestLogs].
  destruct (blockedIPs s !! clientIP s) as [e|] eqn:E.
  - destruct (decide (clock s > e)) as [Hgt|Hle].
    + filter_lookup_none.
      { right. intros e' He'. rewrite E in He'. injection He' as <-. cbn. lia. }
      destruct (e =? 0); cbn; [done|].
      destruct (clock s >? e) eqn:E1; [done | lia].
    + filter_lookup_some e; [|done].
      split; [done|]. cbn. lia.
  - filter_lookup_none; [by left | done].
Qed.

Lemma refill_long_idle now b :
  (0 <= tokens b)%Q -> 40000 <= now - lastRefill b ->
  (tokens (refill now b) == 20)%Q.
Proof.
  intros H0 Hd. unfold refill. cbn [tokens].
  change (bucketCapacity config) with 20%Q. change (refillRate config) with 0.5%Q.
  apply Q.min_l. rewrite tokensToAdd_eq.
  assert (inject_Z 40000 <= inject_Z (now - lastRefill b))%Q as Hq
    by (rewrite <- Zle_Qle; lia).
  change (inject_Z 40000) with 40000%Q in Hq. lra.
Qed.

Lemma checkTokenBucket_cleanupOldLogs ip s :
  bucketsOk s ->
  fst (checkTokenBucket ip (cleanupOldLogs s)) = fst (checkTokenBucket ip s).
Proof.
  intros Hok. rewrite !checkTokenBucket_fst.
  assert (clock (cleanupOldLogs s) = clock s) as -> by done.
  unfold bucketOf at 1.
  assert (clock (cleanupOldLogs s) = clock s) as -> by done.
  unfold cleanupOldLogs.
  cbn [tokenBuckets set_blockedIPs set_tokenBuckets set_requestLogs].
  unfold bucketOf.
  destruct (tokenBuckets s !! ip) as [b|] eqn:E.
  - destruct (decide (clock s - lastRefill b > 2 * 60 * 60 * 1000)) as [Hgt|Hle].
    + filter_lookup_none.
      { right. intros b' Hb'. rewrite E in Hb'. injection Hb' as <-. cbn. lia. }
      destruct (Hok ip b E) as (H0 & _ & _).
      assert (Qle_bool 1 (tokens (refill (clock s) b)) = true) as ->.
      { apply Qle_bool_iff. rewrite refill_long_idle; [lra | done | lia]. }
      apply Qle_bool_iff. rewrite refill_fresh. lra.
    + filter_lookup_some b; [|done].
      split; [done|]. cbn. lia.
  - filter_lookup_none; [by left | done].
Qed.

(** The checks before the suspicious-pattern check fail after the purge
    exactly when they failed before it. *)
Lemma fails_cleanupOldLogs c requestSize s :
  bucketsOk s -> c <> SuspiciousPattern ->
  fails c requestSize (cleanupOldLogs s) = fails c requestSize s.
Proof.
  intros Hok Hc. destruct c; cbn [fails]; try done.
  - by rewrite blockInForce_cleanupOldLogs.
  - unfold Qltb, tokensAfterRefill.
    change (clientIP (cleanupOldLogs s)) with (clientIP s).
    rewrite <- !checkTokenBucket_fst.
    by rewrite checkTokenBucket_cleanupOldLogs.
  - by rewrite countSince_cleanupOldLogs by lia.
  - by rewrite countSince_cleanupOldLogs by lia.
Qed.

Lemma verdict_cleanupOldLogs c s :
  verdict c (cleanupOldLogs s) = verdict c s.
Proof.
  destruct c; cbn [verdict]; try done.
  unfold remainingBlockTime. by rewrite blockInForce_cleanupOldLogs.
Qed.

(** A request that a check before the suspicious-pattern check rejects is
    rejected by the same check after the purge. *)
Lemma firstFailing_cleanupOldLogs c requestSize s :
  bucketsOk s -> c <> SuspiciousPattern ->
  firstFailing requestSize s = Some c ->
  firstFailing requestSize (cleanupOldLogs s) = Some c.
Proof.
  intros Hok Hc. unfold firstFailing, evaluationOrder. cbn [List.find].
  rewrite !(fails_cleanupOldLogs _ requestSize s Hok) by done.
  repeat match goal with |- context [if fails ?c' requestSize s then _ else _] =>
    destruct (fails c' requestSize s); [done|]
  end.
  destruct (fails SuspiciousPattern requestSize s); [|done].
  intros [= <-]. done.
Qed.

Lemma reachable_staleSmallRequests :
  reachable (run staleSmallRequests (initial 0 "client_1")).
Proof.
  apply reachable_run; [apply reachable_initial|].
  unfold staleSmallRequests. repeat constructor; cbn; lia.
Qed.

Lemma reachable_staleLargeRequest :
  reachable (run staleLargeRequest (initial 0 "client_1")).
Proof.
  apply reachable_run; [apply reachable_initial|].
  unfold staleLargeRequest. cbn. repeat constructor; cbn; lia.
Qed.

(** X8.  What the purge of [cleanupOldLogs] keeps, and what it does not.
    In every state the service can reach it leaves the breaker as it is, the
    block in force for the client, the outcome of the bucket check for every
    identity (a bucket it drops had been idle for two hours and would have
    been refilled to the capacity a new bucket starts with), and the number
    of requests logged in any trailing window of up to two hours; so every
    check before the suspicious-pattern check fails after the purge exactly
    when it failed before, and a request that one of them rejects gets the
    same answer.  The suspicious-pattern check is not kept: its size test
    compares the last request logged with the average over the whole log,
    old entries included, so that a purge can turn a rejection into an
    admission (three requests of 1 byte and, two hours later, one of 40000)
    and an admission into a rejection (a request of 50000 bytes and, two
    hours later, eight of 1 byte and one of 20000). *)
Theorem cleanup_keeps_the_limits :
  (forall s, reachable s ->
     let s' := cleanupOldLogs s in
     circuitBreaker s' = circuitBreaker s /\
     blockInForce s' = blockInForce s /\
     (forall ip, fst (checkTokenBucket ip s') = fst (checkTokenBucket ip s)) /\
     (forall windowMs, windowMs <= 7200000 ->
        countSince windowMs s' = countSince windowMs s) /\
     (forall c requestSize, c <> SuspiciousPattern ->
        fails c requestSize s' = fails c requestSize s) /\
     (forall c requestSize ep, c <> SuspiciousPattern ->
        firstFailing requestSize s = Some c ->
        fst (checkRateLimit requestSize ep s') = fst (checkRateLimit requestSize ep s))) /\
  (let s := run staleSmallRequests (initial 0 "client_1") in
   reachable s /\
   length (logsOf "client_1" s) = 4%nat /\
   length (logsOf "client_1" (cleanupOldLogs s)) = 1%nat /\
   fst (checkRateLimit 100 "gemini-api" s) = reject msgSuspicious (Some 900) /\
   fst (checkRateLimit 100 "gemini-api" (cleanupOldLogs s)) = allow) /\
  (let s := run staleLargeRequest (initial 0 "client_1") in
   reachable s /\
   length (logsOf "client_1" s) = 10%nat /\
   length (logsOf "client_1" (cleanupOldLogs s)) = 9%nat /\
   fst (checkRateLimit 100 "gemini-api" s) = allow /\
   fst (checkRateLimit 100 "gemini-api" (cleanupOldLogs s))
   = reject msgSuspicious (Some 900)).
Proof.
  split; [|split].
  - intros s Hr%reachable_bucketsOk. cbv zeta.
    split; [done|]. split; [apply blockInForce_cleanupOldLogs|].
    split; [intros ip; by apply checkTokenBucket_cleanupOldLogs|].
    split; [intros w Hw; by apply countSince_cleanupOldLogs|].
    split; [intros c requestSize Hc; by apply fails_cleanupOldLogs|].
    intros c requestSize ep Hc Hf.
    rewrite !checkRateLimit_unfold. cbn [fst]. unfold admission.
    rewrite (firstFailing_cleanupOldLogs c requestSize s Hr Hc Hf), Hf.
    apply verdict_cleanupOldLogs.
  - cbv zeta. split; [exact reachable_staleSmallRequests|].
    vm_compute. repeat split.
  - cbv zeta. split; [exact reachable_staleLargeRequest|].
    vm_compute. repeat split.
Qed.


(** *** The bucket *)

(** X9.  In every state the service can reach, the bucket check grants a
    request that comes two seconds or more after the last refill of the
    identity's bucket (0.5 tokens a second on a count that is never
    negative), and after forty seconds the refill fills the bucket to its
    capacity, 20. *)
Theorem bucket_grants_after_two_seconds ip s :
  reachable s ->
  (2000 <= clock s - lastRefill (bucketOf ip s) ->
   fst (checkTokenBucket ip s) = true) /\
  (40000 <= clock s - lastRefill (bucketOf ip s) ->
   (tokens (refill (clock s) (bucketOf ip s)) == 20)%Q).
Proof.
  intros Hr%reachable_bucketsOk.
  destruct (bucketOf_ok ip s Hr) as (H0 & H1 & H2).
  split.
  - intros Hd. rewrite checkTokenBucket_fst. apply Qle_bool_iff.
    unfold refill. cbn [tokens].
    change (bucketCapacity config) with 20%Q. change (refillRate config) with 0.5%Q.
    apply Q.min_glb; [lra|]. rewrite tokensToAdd_eq.
    assert (inject_Z 2000 <= inject_Z (clock s - lastRefill (bucketOf ip s)))%Q as Hq
      by (rewrite <- Zle_Qle; lia).
    change (inject_Z 2000) with 2000%Q in Hq. lra.
  - intros Hd. by apply refill_long_idle.
Qed.

(** *** getStatus *)

(** X10.  In every state the service can reach, [getStatus] reports what
    the admission check goes by: [isBlocked] is whether a block is in force
    for the client, [requestsLastMinute] and [requestsLastHour] are the
    counts that [checkRateLimit] compares with 10 and 100,
    [tokensAvailable] lies between 0 and 20, and the breaker state is that
    of the breaker; the call changes neither the logs nor the buckets. *)
Theorem getStatus_agrees_with_admission s :
  reachable s ->
  let status := fst (getStatus s) in
  isBlocked status = bool_decide (is_Some (blockInForce s)) /\
  requestsLastMinute status = countSince 60000 s /\
  requestsLastHour status = countSince 3600000 s /\
  0 <= tokensAvailable status <= 20 /\
  circuitBreakerState status = state (circuitBreaker s) /\
  requestLogs (snd (getStatus s)) = requestLogs s /\
  tokenBuckets (snd (getStatus s)) = tokenBuckets s.
Proof.
  intros Hr%reachable_bucketsOk. cbv zeta.
  destruct (getStatus_frame s) as (_ & _ & Hl & Ht & _ & _).
  split; [|split; [|split; [|split; [|split; [|split; [exact Hl | exact Ht]]]]]].
  - unfold getStatus, getClientIP. rewrite <- isIPBlocked_fst.
    by destruct (isIPBlocked (clientIP s) s) as [blocked s'].
  - unfold getStatus, getClientIP, countSince.
    destruct (isIPBlocked (clientIP s) s) as [blocked s']. cbn [fst requestsLastMinute].
    f_equal. f_equal. apply List.filter_ext. intros log. lia.
  - unfold getStatus, getClientIP, countSince.
    destruct (isIPBlocked (clientIP s) s) as [blocked s']. cbn [fst requestsLastHour].
    f_equal. f_equal. apply List.filter_ext. intros log. lia.
  - unfold getStatus, getClientIP.
    destruct (isIPBlocked (clientIP s) s) as [blocked s']. cbn [fst tokensAvailable].
    destruct (tokenBuckets s !! clientIP s) as [b|] eqn:E.
    + destruct (Hr _ _ E) as (H0 & H1 & _).
      change (bucketCapacity config) with 20%Q in H1.
      split.
      * change 0 with (Qfloor 0). by apply Qfloor_resp_le.
      * change 20 with (Qfloor 20). by apply Qfloor_resp_le.
    + vm_compute. split; discriminate.
  - unfold getStatus. by destruct (isIPBlocked (getClientIP s) s).
Qed.


Lemma reachable_tenRequestsInAMinute :
  reachable (run tenRequestsInAMinute (initial 0 "client_1")).
Proof.
  apply reachable_run; [apply reachable_initial|].
  unfold tenRequestsInAMinute. cbn. repeat constructor; cbn; lia.
Qed.

Lemma breaker_recovery_takes_two_ticks_witness :
  let s := step (Advance 600001) (run (repeat RecordFailure 5) (initial 0 "client_1")) in
  state (circuitBreaker (updateCircuitBreaker s)) = HALF_OPEN /\
  state (circuitBreaker (updateCircuitBreaker (updateCircuitBreaker s))) = CLOSED.
Proof.
  cbv zeta.
  destruct (breaker_recovery_takes_two_ticks
              (step (Advance 600001) (run (repeat RecordFailure 5) (initial 0 "client_1")))
              eq_refl ltac:(cbn; lia)) as (H1 & _ & H2 & _).
  split; [exact H1 | exact H2].
Defined.

Lemma cleanup_keeps_the_limits_witness :
  let s := run staleSmallRequests (initial 0 "client_1") in
  length (logsOf "client_1" s) = 4%nat /\
  length (logsOf "client_1" (cleanupOldLogs s)) = 1%nat /\
  countSince 3600000 (cleanupOldLogs s) = countSince 3600000 s /\
  fst (checkTokenBucket "client_1" (cleanupOldLogs s)) = fst (checkTokenBucket "client_1" s).
Proof.
  cbv zeta.
  destruct cleanup_keeps_the_limits as (Hall & (Hr & Hbefore & Hafter & _) & _).
  destruct (Hall _ Hr) as (_ & _ & Hbucket & Hcount & _).
  split; [exact Hbefore|]. split; [exact Hafter|].
  split; [apply Hcount; lia | apply Hbucket].
Defined.

Lemma bucket_grants_after_two_seconds_witness :
  let s := run tenRequestsInAMinute (initial 0 "client_1") in
  reachable s /\ 2000 <= clock s - lastRefill (bucketOf "client_1" s) /\
  fst (checkTokenBucket "client_1" s) = true.
Proof.
  cbv zeta. split; [exact reachable_tenRequestsInAMinute|].
  assert (2000 <= clock (run tenRequestsInAMinute (initial 0 "client_1"))
                  - lastRefill (bucketOf "client_1"
                                  (run tenRequestsInAMinute (initial 0 "client_1"))))
    as Hd by (vm_compute; discriminate).
  split; [exact Hd|].
  exact (proj1 (bucket_grants_after_two_seconds "client_1" _
                  reachable_tenRequestsInAMinute) Hd).
Defined.

Lemma getStatus_agrees_with_admission_witness :
  let s := run tenRequestsInAMinute (initial 0 "client_1") in
  reachable s /\ requestsLastMinute (fst (getStatus s)) = countSince 60000 s.
Proof.
  cbv zeta. split; [exact reachable_tenRequestsInAMinute|].
  destruct (getStatus_agrees_with_admission _ reachable_tenRequestsInAMinute)
    as (_ & H & _).
  exact H.
Defined.


(** *** The identity of the client *)

Lemma toInt32_range x : - 2 ^ 31 <= toInt32 x < 2 ^ 31.
Proof.
  unfold toInt32. pose proof (Z.mod_pos_bound (x + 2 ^ 31) (2 ^ 32) eq_refl). lia.
Qed.

Lemma toInt32_congr x y : (x - y) mod 2 ^ 32 = 0 -> toInt32 x = toInt32 y.
Proof.
  intros H. unfold toInt32. f_equal.
  apply Z.mod_divide in H; [|lia]. destruct H as [k Hk].
  replace (x + 2 ^ 31) with ((y + 2 ^ 31) + k * 2 ^ 32) by lia.
  by rewrite Z.mod_add by lia.
Qed.

Lemma toInt32_diff x : (toInt32 x - x) mod 2 ^ 32 = 0.
Proof.
  unfold toInt32.
  pose proof (Z.div_mod (x + 2 ^ 31) (2 ^ 32) ltac:(lia)) as H.
  replace ((x + 2 ^ 31) mod 2 ^ 32 - 2 ^ 31 - x)
    with (- ((x + 2 ^ 31) / 2 ^ 32) * 2 ^ 32) by lia.
  apply Z.mod_mul. lia.
Qed.

Lemma hashStep_congr h p c :
  (h - p) mod 2 ^ 32 = 0 -> (hashStep h c - (31 * p + c)) mod 2 ^ 32 = 0.
Proof.
  intros H. unfold hashStep. rewrite Z.land_diag, Z.shiftl_mul_pow2 by lia.
  pose proof (toInt32_diff (toInt32 (h * 2 ^ 5) - h + c)) as H1.
  pose proof (toInt32_diff (h * 2 ^ 5)) as H2.
  apply Z.mod_divide in H as [k Hk]; [|lia].
  apply Z.mod_divide in H1 as [k1 Hk1]; [|lia].
  apply Z.mod_divide in H2 as [k2 Hk2]; [|lia].
  apply Z.mod_divide; [lia|]. exists (k1 + k2 + 31 * k). lia.
Qed.

Lemma hash_fold codes : forall h p,
  (h - p) mod 2 ^ 32 = 0 ->
  (fold_left hashStep codes h - fold_left (fun h c => 31 * h + c) codes p) mod 2 ^ 32 = 0.
Proof.
  induction codes as [|c codes IH]; intros h p H; cbn [fold_left]; [done|].
  apply IH. by apply hashStep_congr.
Qed.

Lemma hash_fold_range codes : forall h,
  - 2 ^ 31 <= h < 2 ^ 31 -> - 2 ^ 31 <= fold_left hashStep codes h < 2 ^ 31.
Proof.
  induction codes as [|c codes IH]; intros h H; cbn [fold_left]; [done|].
  apply IH. apply toInt32_range.
Qed.

Lemma toInt32_id x : - 2 ^ 31 <= x < 2 ^ 31 -> toInt32 x = x.
Proof. intros H. unfold toInt32. rewrite Z.mod_small by lia. lia. Qed.

(** X11.  The hash of [getClientIP], with its 32-bit wrap at every turn of
    the loop, is the polynomial hash of the code units in base 31 (the
    [hashCode] of a Java string) wrapped once, and lies in the range of the
    signed 32-bit integers; distinct inputs can share a hash and so an
    identity, as the strings Aa and BB do. *)
Theorem getClientIP_hash combined :
  hashOf combined
  = toInt32 (fold_left (fun h c => 31 * h + c) (charCodes combined) 0) /\
  - 2 ^ 31 <= hashOf combined < 2 ^ 31 /\
  hashOf "Aa" = hashOf "BB" /\
  clientIdOf ["Aa"] = clientIdOf ["BB"].
Proof.
  assert (- 2 ^ 31 <= hashOf combined < 2 ^ 31) as Hr
    by (apply hash_fold_range; lia).
  split; [|split; [exact Hr|split; vm_compute; reflexivity]].
  rewrite <- (toInt32_id (hashOf combined)) by exact Hr.
  apply toInt32_congr, hash_fold. done.
Qed.


End RateLimitProofs.

Section AutocompleteProofs.
Import CityAutocompleteService.

(** ** The autocomplete service *)

(** *** JavaScript arrays *)

Lemma slice0_length {A} (n : Z) (xs : list A) :
  0 <= n -> Z.of_nat (length (slice0 n xs)) <= n.
Proof.
  intros Hn. unfold slice0. destruct (0 <=? n) eqn:E; [|lia].
  rewrite length_take. lia.
Qed.

Lemma slice0_all {A} (n : Z) (xs : list A) :
  Z.of_nat (length xs) <= n -> slice0 n xs = xs.
Proof.
  intros Hn. unfold slice0. destruct (0 <=? n) eqn:E; [|lia].
  apply take_ge. lia.
Qed.

Lemma slice0_sublist {A} (n : Z) (xs : list A) : sublist (slice0 n xs) xs.
Proof. unfold slice0. destruct (0 <=? n); apply sublist_take. Qed.

Lemma insertSorted_Permutation {A} (compare : A -> A -> Q) a xs :
  insertSorted compare a xs ≡ₚ a :: xs.
Proof.
  induction xs as [|b xs IH]; cbn; [done|].
  destruct (Qle_bool (compare a b) 0); [done|].
  rewrite IH. apply Permutation_swap.
Qed.

Lemma sortBy_Permutation {A} (compare : A -> A -> Q) (xs : list A) :
  sortBy compare xs ≡ₚ xs.
Proof.
  induction xs as [|a xs IH]; cbn; [done|].
  fold (sortBy compare xs). by rewrite insertSorted_Permutation, IH.
Qed.

Lemma findIndex_Some {A} (p : A -> bool) (xs : list A) x :
  x ∈ xs -> p x = true ->
  exists i y, findIndex p xs = Some i /\ xs !! i = Some y /\ p y = true.
Proof.
  intros Hin Hp. induction xs as [|a xs IH]; [by apply elem_of_nil in Hin|].
  cbn. destruct (p a) eqn:E; [by exists O, a|].
  apply elem_of_cons in Hin as [->|Hin]; [congruence|].
  destruct (IH Hin) as (i & y & -> & Hl & Hy). by exists (S i), y.
Qed.

(** *** Deduplication *)

Lemma map_insert_same_key (l : list EnhancedCityResult) i existing x :
  l !! i = Some existing -> dedupKey x = dedupKey existing ->
  map dedupKey (<[i := x]> l) = map dedupKey l.
Proof.
  intros Hl Hk. rewrite list_fmap_insert. apply list_insert_id.
  by rewrite list_lookup_fmap, Hl, Hk.
Qed.

Lemma deduplicateStep_invariant processed acc x :
  dedupInvariant processed acc ->
  dedupInvariant (processed ++ [x]) (deduplicateStep acc x).
Proof.
  destruct acc as [seen dedup]. intros (I1 & I2 & I3 & I4). cbn [fst snd] in *.
  unfold deduplicateStep.
  case_bool_decide as Hseen.
  - (* a city we already have *)
    apply I1, list_elem_of_fmap in Hseen as (y0 & Hy0 & Hin0).
    destruct (findIndex_Some (fun r => String.eqb (dedupKey r) (dedupKey x)) dedup y0 Hin0)
      as (i & existing & -> & Hl & Hk); [by apply String.eqb_eq|].
    apply String.eqb_eq in Hk. rewrite Hl.
    destruct (Qltb (confidence existing) (confidence x)) eqn:Hc.
    + apply Qltb_lt in Hc.
      repeat split; cbn [fst snd].
      * intros Hk'. rewrite (map_insert_same_key _ _ existing) by done. by apply I1.
      * rewrite (map_insert_same_key _ _ existing) by done. by apply I1.
      * by rewrite (map_insert_same_key _ _ existing).
      * intros r [Hr| ->%list_elem_of_singleton]%elem_of_app.
        -- destruct (I3 r Hr) as (j & kept & Hj & Hkj & Hcj).
           destruct (decide (j = i)) as [->|Hne].
           ++ exists i, x. rewrite list_lookup_insert_eq by (by eapply lookup_lt_Some).
              assert (kept = existing) as -> by congruence.
              repeat split; [congruence | lra].
           ++ exists j, kept. by rewrite list_lookup_insert_ne.
        -- exists i, x. rewrite list_lookup_insert_eq by (by eapply lookup_lt_Some).
           repeat split. apply Qle_refl.
      * intros kept Hin. apply list_elem_of_lookup in Hin as [j Hj].
        destruct (decide (j = i)) as [->|Hne].
        -- rewrite list_lookup_insert_eq in Hj by (by eapply lookup_lt_Some).
           injection Hj as <-. apply elem_of_app. right. by apply list_elem_of_singleton.
        -- rewrite list_lookup_insert_ne in Hj by done.
           apply elem_of_app. left. apply I4. by eapply list_elem_of_lookup_2.
    + assert (confidence x <= confidence existing)%Q as Hle.
      { unfold Qltb in Hc. apply negb_false_iff in Hc. by apply Qle_bool_iff. }
      repeat split; cbn [fst snd]; try (by apply I1); try done.
      * intros r [Hr| ->%list_elem_of_singleton]%elem_of_app; [by apply I3|].
        by exists i, existing.
      * intros kept Hin. apply elem_of_app. left. by apply I4.
  - (* a new city *)
    assert (dedupKey x ∉ map dedupKey dedup) as Hnew by (intros H; by apply Hseen, I1).
    repeat split; cbn [fst snd].
    + rewrite map_app, elem_of_union, elem_of_app, elem_of_singleton. cbn.
      rewrite list_elem_of_singleton. intros [->|H]; [by right | left; by apply I1].
    + rewrite map_app, elem_of_union, elem_of_app, elem_of_singleton. cbn.
      rewrite list_elem_of_singleton. intros [H| ->]; [right; by apply I1 | by left].
    + rewrite map_app. cbn. apply NoDup_app. split; [done|].
      split; [|apply NoDup_singleton].
      intros k Hk ->%list_elem_of_singleton. done.
    + intros r [Hr| ->%list_elem_of_singleton]%elem_of_app.
      * destruct (I3 r Hr) as (j & kept & Hj & Hrest).
        exists j, kept. split; [|done]. by apply lookup_app_l_Some.
      * exists (length dedup), x. split; [|split; [done|apply Qle_refl]].
        by rewrite lookup_app_r, Nat.sub_diag by lia.
    + intros kept [Hin| ->%list_elem_of_singleton]%elem_of_app;
        apply elem_of_app; [left; by apply I4 | right; by apply list_elem_of_singleton].
Qed.

Lemma deduplicate_fold_invariant results : forall processed acc,
  dedupInvariant processed acc ->
  dedupInvariant (processed ++ results) (fold_left deduplicateStep results acc).
Proof.
  induction results as [|x results IH]; intros processed acc Hinv; cbn [fold_left].
  - by rewrite app_nil_r.
  - replace (processed ++ x :: results) with ((processed ++ [x]) ++ results)
      by (by rewrite <- app_assoc).
    by apply IH, deduplicateStep_invariant.
Qed.

Lemma deduplicateResults_invariant results :
  dedupInvariant results (fold_left deduplicateStep results (∅, [])).
Proof.
  apply (deduplicate_fold_invariant results [] (∅, [])).
  split; [|split; [|split]]; cbn [fst snd map].
  - intros key. by rewrite elem_of_empty, elem_of_nil.
  - apply NoDup_nil_2.
  - intros r Hr. by apply elem_of_nil in Hr.
  - intros r Hr. by apply elem_of_nil in Hr.
Qed.

Lemma NoDup_fmap_eq {A B} (f : A -> B) (l : list A) x y :
  NoDup (map f l) -> x ∈ l -> y ∈ l -> f x = f y -> x = y.
Proof.
  intros Hnd [i Hi]%list_elem_of_lookup [j Hj]%list_elem_of_lookup Hf.
  assert (i = j) as ->.
  { apply (NoDup_lookup (map f l) i j (f x)); [done| |].
    - change (map f l) with (f <$> l). by rewrite list_lookup_fmap, Hi.
    - change (map f l) with (f <$> l). by rewrite list_lookup_fmap, Hj, Hf. }
  congruence.
Qed.

Lemma dedupKey_normalized a b :
  toLowerCase (name a) = toLowerCase (name b) ->
  toLowerCase (country a) = toLowerCase (country b) ->
  dedupKey a = dedupKey b.
Proof. unfold dedupKey. by intros -> ->. Qed.

Lemma deduplicateResults_pair l a :
  dedupKey l = dedupKey a -> (confidence a <= confidence l)%Q ->
  deduplicateResults [l; a] = [l].
Proof.
  intros Hk Hc. unfold deduplicateResults. cbn [fold_left].
  unfold deduplicateStep at 2.
  rewrite bool_decide_eq_false_2 by set_solver. cbn [app].
  unfold deduplicateStep.
  rewrite bool_decide_eq_true_2 by (rewrite Hk; set_solver).
  cbn [findIndex]. rewrite Hk, String.eqb_refl. cbn [lookup list_lookup].
  assert (Qltb (confidence l) (confidence a) = false) as ->; [|done].
  unfold Qltb. by apply negb_false_iff, Qle_bool_iff.
Qed.

(** Precedence among duplicates, key by key.  When local and external
    results are merged, a duplicate is a result with the key of an earlier
    one, the key being the lower-cased name and the lower-cased country
    joined by a hyphen; results with the same case-normalized (name, country)
    pair have the same key.  After deduplication the keys are all different;
    every result of the input has exactly one survivor with its key, and that
    survivor is a result of the input of at least its confidence; nothing
    survives that was not in the input.  In particular a local entry of
    confidence 90 followed by an external entry of confidence 85 for the same
    city leaves the local entry alone.  The merged list, sorted and cut to
    [maxResults], holds survivors only, of different keys, and is never
    longer than [maxResults]. *)
Theorem dedup_precedence (localResults apiResults : list EnhancedCityResult)
    (maxResults : Z) :
  let allResults := localResults ++ apiResults in
  let deduplicated := deduplicateResults allResults in
  let merged := slice0 maxResults (sortBy compareResults deduplicated) in
  (forall a b,
     toLowerCase (name a) = toLowerCase (name b) ->
     toLowerCase (country a) = toLowerCase (country b) ->
     dedupKey a = dedupKey b) /\
  NoDup (map dedupKey deduplicated) /\
  (forall r, r ∈ allResults ->
     exists kept,
       kept ∈ deduplicated /\ dedupKey kept = dedupKey r /\
       (confidence r <= confidence kept)%Q /\
       forall other, other ∈ deduplicated -> dedupKey other = dedupKey r ->
                     other = kept) /\
  (forall kept, kept ∈ deduplicated -> kept ∈ allResults) /\
  (forall l a,
     dedupKey l = dedupKey a -> (confidence l == 90)%Q -> (confidence a == 85)%Q ->
     deduplicateResults [l; a] = [l]) /\
  NoDup (map dedupKey merged) /\
  (forall r, r ∈ merged -> r ∈ deduplicated) /\
  (0 <= maxResults -> Z.of_nat (length merged) <= maxResults).
Proof.
  cbv zeta.
  destruct (deduplicateResults_invariant (localResults ++ apiResults))
    as (_ & Hnd & Hmax & Hsub).
  fold (deduplicateResults (localResults ++ apiResults)) in Hnd, Hmax, Hsub.
  set (deduplicated := deduplicateResults (localResults ++ apiResults)) in *.
  assert (slice0 maxResults (sortBy compareResults deduplicated) ⊆+ deduplicated) as Hperm.
  { etrans; [apply sublist_submseteq, slice0_sublist|].
    by rewrite sortBy_Permutation. }
  split; [apply dedupKey_normalized|].
  split; [exact Hnd|].
  split.
  { intros r Hr. destruct (Hmax r Hr) as (i & kept & Hi & Hk & Hc).
    exists kept. split; [by eapply list_elem_of_lookup_2|].
    split; [done|]. split; [done|].
    intros other Hin Hko. eapply (NoDup_fmap_eq dedupKey); [done..| |congruence].
    by eapply list_elem_of_lookup_2. }
  split; [exact Hsub|].
  split.
  { intros l a Hk Hl Ha. apply deduplicateResults_pair; [done|]. rewrite Hl, Ha. done. }
  split.
  { eapply sublist_NoDup; [|apply (fmap_sublist dedupKey), slice0_sublist].
    change (NoDup (dedupKey <$> sortBy compareResults deduplicated)).
    by rewrite sortBy_Permutation. }
  split.
  { intros r Hr. by eapply elem_of_submseteq. }
  apply slice0_length.
Qed.


(** *** The cache *)

Lemma stamp_keeps now item :
  let copy := stamp now item in
  name copy = name item /\ country copy = country item /\
  displayName copy = displayName item /\ type copy = type item /\
  popularity copy = popularity item /\ coordinates copy = coordinates item /\
  source copy = source item /\ confidence copy = confidence item /\
  timestamp copy = Some now.
Proof. repeat split. Qed.

Lemma CacheManager_get_set readTime setTime key data ttl cache :
  CacheManager.get readTime key (CacheManager.set setTime key data ttl cache)
  = if readTime >? setTime + ttl
    then (None, delete key cache)
    else (Some (map (stamp setTime) data),
          CacheManager.set setTime key data ttl cache).
Proof.
  unfold CacheManager.get, CacheManager.set.
  rewrite lookup_insert_eq. cbn [CacheManager.timestamp CacheManager.data].
  destruct (readTime >? setTime + ttl); [|done].
  by rewrite delete_insert_eq.
Qed.

(** C7 (amended).  The cache, its time to live and its lazy expiry.  For every
    cache, key, list of results and time to live: a [get] of the key no later
    than [ttl] after the [set] returns copies of the results, as many and in
    the same order, each with the fields of the original but for its
    [timestamp], which is the time of the [set], and leaves the cache as it
    is; a [get] at any time after [ttl] has elapsed returns nothing and
    removes the entry from the cache. *)
Theorem cache_ttl_round_trip (cache : gmap string CacheManager.Entry)
    (key : string) (data : list EnhancedCityResult) (ttl setTime readTime : Z) :
  let stored := CacheManager.set setTime key data ttl cache in
  let found := fst (CacheManager.get readTime key stored) in
  let after := snd (CacheManager.get readTime key stored) in
  (readTime <= setTime + ttl ->
     found = Some (map (stamp setTime) data) /\ after = stored /\
     length (map (stamp setTime) data) = length data /\
     forall i item, data !! i = Some item ->
       exists copy, map (stamp setTime) data !! i = Some copy /\
         name copy = name item /\ country copy = country item /\
         displayName copy = displayName item /\ type copy = type item /\
         popularity copy = popularity item /\ coordinates copy = coordinates item /\
         source copy = source item /\ confidence copy = confidence item /\
         timestamp copy = Some setTime) /\
  (setTime + ttl < readTime ->
     found = None /\ after !! key = None /\ after = delete key cache).
Proof.
  cbv zeta. rewrite CacheManager_get_set. split; intros Ht.
  - destruct (readTime >? setTime + ttl) eqn:E; [lia|]. cbn [fst snd].
    split; [done|]. split; [done|]. split; [apply length_map|].
    intros i item Hi. exists (stamp setTime item).
    split; [|apply stamp_keeps].
    change (map (stamp setTime) data) with (stamp setTime <$> data).
    by rewrite list_lookup_fmap, Hi.
  - destruct (readTime >? setTime + ttl) eqn:E; [|lia]. cbn [fst snd].
    split; [done|]. split; [apply lookup_delete_eq | done].
Qed.

Lemma cache_ttl_round_trip_witness :
  0 <= 0 + 1000 /\ 0 + 1000 < 1001 /\
  fst (CacheManager.get 0 "autocomplete:roma:8"
         (CacheManager.set 0 "autocomplete:roma:8" [romaLocal] 1000 ∅))
  = Some [stamp 0 romaLocal] /\
  fst (CacheManager.get 1001 "autocomplete:roma:8"
         (CacheManager.set 0 "autocomplete:roma:8" [romaLocal] 1000 ∅))
  = None.
Proof.
  split; [lia|]. split; [lia|].
  split.
  - destruct (cache_ttl_round_trip ∅ "autocomplete:roma:8" [romaLocal] 1000 0 0)
      as [H _].
    destruct (H ltac:(lia)) as (-> & _). reflexivity.
  - destruct (cache_ttl_round_trip ∅ "autocomplete:roma:8" [romaLocal] 1000 0 1001)
      as [_ H].
    destruct (H ltac:(lia)) as (-> & _). reflexivity.
Defined.

(** C7, as stated, fails: what [get] returns, even at once, is not the list
    given to [set] but copies stamped with the time of the [set]. *)
Lemma cache_returns_stamped_copies :
  fst (CacheManager.get 0 "autocomplete:roma:8"
         (CacheManager.set 0 "autocomplete:roma:8" [romaLocal] 1000 ∅))
  <> Some [romaLocal].
Proof. vm_compute. discriminate. Qed.

(** *** The orchestrator *)

Section OrchestratorProofs.

Variable getInitialSuggestions : Z -> list CityService.CityResult.
Variable searchDestinations : string -> Z -> list CityService.CityResult.

(** The call reaches the external lookup: the query is long enough, the
    cache has nothing for it, the external API is enabled and the local
    catalogue gave fewer results than asked for. *)
Lemma getAutocompleteResults_external query options reply st :
  let cacheKey := cacheKeyOf query (maxResults options) in
  let localResults :=
    map (enhance local 90) (searchDestinations query (maxResults options)) in
  query <> ""%string ->
  minQueryLength options <= Z.of_nat (String.length (trim query)) ->
  fst (cache_get cacheKey st) = None ->
  useExternalAPI options = true ->
  Z.of_nat (length localResults) < maxResults options ->
  getAutocompleteResults getInitialSuggestions searchDestinations query options reply st
  = match fetchFromExternalAPI query options reply (snd (cache_get cacheKey st)) with
    | (inr apiResults, st') =>
        let merged :=
          slice0 (maxResults options)
            (sortBy compareResults (deduplicateResults (localResults ++ apiResults))) in
        (inr {| results := merged;
                responseSource := if (0 <? length localResults)%nat then mixed else api;
                error := None; fromCache := false |},
         cache_set cacheKey merged (cacheTimeout options) st')
    | (inl err, st') =>
        if fallbackToLocal options && (0 <? length localResults)%nat
        then (inr {| results := localResults; responseSource := local;
                     error := Some err; fromCache := false |},
              cache_set cacheKey localResults (cacheTimeout options) st')
        else (inl err, st')
    end.
Proof.
  cbv zeta. intros Hq Hlen Hmiss Hext Hfew.
  unfold getAutocompleteResults.
  apply String.eqb_neq in Hq. rewrite Hq. cbn [orb].
  destruct (_ <? minQueryLength options) eqn:E; [lia|].
  destruct (cache_get _ st) as [cached st1]. cbn [fst snd] in *. subst cached.
  rewrite Hext. cbn [negb orb].
  destruct (_ >=? maxResults options) eqn:E'; [lia|].
  destruct (fetchFromExternalAPI query options reply st1) as [[err|apiResults] st2];
    [|reflexivity].
  by rewrite slice0_all by lia.
Qed.

(** A hit in the cache is answered from the cache, whatever the network
    would say. *)
Lemma getAutocompleteResults_cached query options reply st cachedResults :
  query <> ""%string ->
  minQueryLength options <= Z.of_nat (String.length (trim query)) ->
  fst (cache_get (cacheKeyOf query (maxResults options)) st) = Some cachedResults ->
  getAutocompleteResults getInitialSuggestions searchDestinations query options reply st
  = (inr {| results := cachedResults; responseSource := cache; error := None;
            fromCache := true |},
     snd (cache_get (cacheKeyOf query (maxResults options)) st)).
Proof.
  intros Hq Hlen Hhit. unfold getAutocompleteResults.
  apply String.eqb_neq in Hq. rewrite Hq. cbn [orb].
  destruct (_ <? minQueryLength options) eqn:E; [lia|].
  destruct (cache_get _ st) as [cached st1]. cbn [fst snd] in *. by subst cached.
Qed.
(** C8.  Fallback when the external lookup fails.  For every call of
    [getAutocompleteResults] that reaches the external lookup (the query is
    long enough, the cache has nothing for it, the external API is enabled,
    the local catalogue gave fewer results than asked for) and whose lookup
    throws [err]: if [fallbackToLocal] is set and there are local results,
    the call returns them, with source [local] and [err] in the [error] field
    of the answer, and does not throw; if there are no local results (or
    [fallbackToLocal] is not set), the call throws [err]. *)
Theorem fallback_on_external_failure query options reply st err st' :
  let cacheKey := cacheKeyOf query (maxResults options) in
  let localResults :=
    map (enhance local 90) (searchDestinations query (maxResults options)) in
  let answer :=
    fst (getAutocompleteResults getInitialSuggestions searchDestinations
           query options reply st) in
  query <> ""%string ->
  minQueryLength options <= Z.of_nat (String.length (trim query)) ->
  fst (cache_get cacheKey st) = None ->
  useExternalAPI options = true ->
  Z.of_nat (length localResults) < maxResults options ->
  fetchFromExternalAPI query options reply (snd (cache_get cacheKey st)) = (inl err, st') ->
  (fallbackToLocal options = true -> localResults <> [] ->
     answer = inr {| results := localResults; responseSource := local;
                     error := Some err; fromCache := false |}) /\
  (localResults = [] -> answer = inl err) /\
  (fallbackToLocal options = false -> answer = inl err).
Proof.
  cbv zeta. intros Hq Hlen Hmiss Hext Hfew Hfetch.
  rewrite getAutocompleteResults_external by done. cbv zeta. rewrite Hfetch.
  repeat split.
  - intros -> Hne. cbn [andb].
    destruct (map _ _) as [|r rest]; [done|reflexivity].
  - intros ->. by rewrite andb_false_r.
  - by intros ->.
Qed.

End OrchestratorProofs.

(** The second of two identical queries, half a second apart, is answered
    from the cache with the stamped copies of the first answer. *)
Example second_query_from_cache :
  let first :=
    getAutocompleteResults noSuggestions catalogueOfRoma "Rom" defaultOptions
      networkDown freshState in
  let second :=
    getAutocompleteResults noSuggestions catalogueOfRoma " rom " defaultOptions
      networkDown (advance 500 (snd first)) in
  fst second
  = inr {| results := [stamp 120 romaLocal]; responseSource := cache; error := None;
           fromCache := true |}.
Proof. vm_compute. reflexivity. Qed.

Lemma fallback_on_external_failure_witness :
  fst (getAutocompleteResults noSuggestions catalogueOfRoma "rom" defaultOptions
         networkDown freshState)
  = inr {| results := [romaLocal]; responseSource := local;
           error := Some {| message := "Network error"; code := "NETWORK_ERROR";
                            retryable := true; retryAfter := None |};
           fromCache := false |}
  /\ fst (getAutocompleteResults noSuggestions catalogueOfRoma "xyz" defaultOptions
            networkDown freshState)
     = inl {| message := "Network error"; code := "NETWORK_ERROR";
              retryable := true; retryAfter := None |}.
Proof.
  split.
  - edestruct (fallback_on_external_failure noSuggestions catalogueOfRoma
                 "rom" defaultOptions networkDown freshState) as (H & _ & _);
      [done | vm_compute; discriminate | reflexivity | reflexivity
      | vm_compute; reflexivity | vm_compute; reflexivity |].
    apply H; [reflexivity | vm_compute; discriminate].
  - edestruct (fallback_on_external_failure noSuggestions catalogueOfRoma
                 "xyz" defaultOptions networkDown freshState) as (_ & H & _);
      [done | vm_compute; discriminate | reflexivity | reflexivity
      | vm_compute; reflexivity | vm_compute; reflexivity |].
    apply H. reflexivity.
Defined.


(** *** Further properties of the autocomplete service *)

Lemma filter_all_length {A} (p : A -> bool) (l : list A) :
  (length l <= length (List.filter p l))%nat -> List.filter p l = l.
Proof.
  induction l as [|x l IH]; cbn; [done|].
  destruct (p x) eqn:E; cbn; intros H.
  - f_equal. apply IH. lia.
  - pose proof (List.filter_length_le p l). lia.
Qed.

Lemma fold_min_spec rest : forall first,
  fold_left Z.min rest first ∈ first :: rest /\
  Forall (fun time => fold_left Z.min rest first <= time) (first :: rest).
Proof.
  induction rest as [|x rest IH]; intros first; cbn [fold_left].
  - split; [apply elem_of_cons; by left|]. repeat constructor. lia.
  - destruct (IH (Z.min first x)) as [Hin Hall].
    apply Forall_cons in Hall as [Hm Hall].
    split.
    + apply elem_of_cons in Hin as [Heq|Hin].
      * rewrite Heq. destruct (Z.min_spec first x) as [[_ ->]|[_ ->]].
        -- apply elem_of_cons; by left.
        -- apply elem_of_cons; right. apply elem_of_cons; by left.
      * apply elem_of_cons; right. apply elem_of_cons; by right.
    + constructor; [lia|]. constructor; [lia | done].
Qed.

(** X12.  The limiter of outgoing requests, called at a time not earlier
    than its last call, keeps at most 20 times on record for a key, none of
    them in the future.  When it refuses, it changes nothing, and
    [getRetryAfter] then answers with a number of seconds between 1 and 60;
    when it grants, it records the time of the call after the times, fewer
    than 20, that are less than a minute old. *)
Theorem outgoing_limiter_window now now' key requests :
  limiterOk now requests -> now <= now' ->
  let '(ok, requests') := RateLimiter.canMakeRequest now' key requests in
  limiterOk now' requests' /\
  (ok = false ->
     requests' = requests /\
     1 <= RateLimiter.getRetryAfter now' key requests <= 60) /\
  (ok = true ->
     exists times, requests' !! key = Some (times ++ [now']) /\
       Z.of_nat (length times) < 20 /\
       Forall (fun time => now' - 60000 < time <= now') times).
Proof.
  intros Hok Hnow. unfold RateLimiter.canMakeRequest.
  change RateLimiter.windowMs with 60000. change RateLimiter.maxRequests with 20.
  set (stored := default [] (requests !! key)).
  assert (Z.of_nat (length stored) <= 20 /\ Forall (fun time => time <= now) stored)
    as [Hlen Hpast].
  { unfold stored. destruct (requests !! key) as [times|] eqn:E; cbn.
    - apply (Hok key times E).
    - split; [lia | constructor]. }
  destruct (_ >=? 20) eqn:E.
  - split; [|split; [|done]].
    + intros k times Hk. destruct (Hok k times Hk) as [H1 H2].
      split; [done|]. eapply Forall_impl; [exact H2|]. cbn. intros. lia.
    + intros _. split; [done|].
      assert (List.filter (fun time => now' - time <? 60000) stored = stored) as Hall
        by (apply filter_all_length; lia).
      unfold RateLimiter.getRetryAfter. fold stored.
      change RateLimiter.windowMs with 60000.
      clearbody stored.
      destruct stored as [|first rest]; [cbn in E; discriminate|].
      destruct (fold_min_spec rest first) as [Hin _].
      set (oldest := fold_left Z.min rest first) in *.
      assert (now' - oldest < 60000) as Hrecent.
      { rewrite <- Hall in Hin. apply list_elem_of_In, filter_In in Hin as [_ Hin]. lia. }
      assert (oldest <= now) as Hold.
      { rewrite Forall_forall in Hpast. by apply Hpast. }
      change RateLimiter.windowMs with 60000.
      unfold ceilDiv. Z.div_mod_to_equations. lia.
  - split; [|split; [done|]].
    + intros k times. destruct (decide (key = k)) as [->|Hne].
      * rewrite lookup_insert_eq. intros [= <-]. rewrite length_app. cbn [length].
        change RateLimiter.maxRequests with 20. split; [lia|]. apply Forall_app. split.
        -- apply Forall_forall. intros t Ht.
           apply list_elem_of_In, filter_In in Ht as [Ht _].
           apply list_elem_of_In in Ht.
           rewrite Forall_forall in Hpast. specialize (Hpast t Ht). lia.
        -- repeat constructor. lia.
      * rewrite lookup_insert_ne by done. intros Hk.
        destruct (Hok k times Hk) as [H1 H2].
        split; [done|]. eapply Forall_impl; [exact H2|]. cbn. intros. lia.
    + intros _. eexists. split; [apply lookup_insert_eq|]. split; [lia|].
      apply Forall_forall. intros t Ht.
      apply list_elem_of_In, filter_In in Ht as [Ht Hw].
      apply list_elem_of_In in Ht.
      rewrite Forall_forall in Hpast. specialize (Hpast t Ht). lia.
Qed.


Lemma outgoing_limiter_window_witness :
  let requests : gmap string (list Z) := {[ "default"%string := repeat 0 20 ]} in
  limiterOk 0 requests /\
  fst (RateLimiter.canMakeRequest 1000 "default" requests) = false /\
  1 <= RateLimiter.getRetryAfter 1000 "default" requests <= 60.
Proof.
  cbv zeta.
  assert (limiterOk 0 ({[ "default"%string := repeat 0 20 ]} : gmap string (list Z))) as Hok.
  { intros key times [_ <-]%lookup_singleton_Some.
    split; [cbn; unfold RateLimiter.maxRequests; lia|].
    apply Forall_forall. intros t Ht%list_elem_of_In%repeat_spec. lia. }
  split; [exact Hok|]. split; [reflexivity|].
  pose proof (outgoing_limiter_window 0 1000 "default" _ Hok ltac:(lia)) as H.
  change (RateLimiter.canMakeRequest 1000 "default" {[ "default"%string := repeat 0 20 ]})
    with (false, ({[ "default"%string := repeat 0 20 ]} : gmap string (list Z))) in H.
  destruct H as (_ & H & _). exact (proj2 (H eq_refl)).
Defined.

(** *** Reading the statistics *)

Lemma filter_repeat_now (now : Z) k :
  List.filter (fun time => now - time <? RateLimiter.windowMs) (repeat now k) = repeat now k.
Proof.
  induction k as [|k IH]; cbn [repeat List.filter]; [done|].
  rewrite Z.sub_diag. cbn. by rewrite IH.
Qed.

Lemma getAutocompleteStats_repeat st k :
  (k < 20)%nat ->
  default [] (rateLimiter st !! "default") = repeat (now st) k ->
  let st' := snd (getAutocompleteStats st) in
  now st' = now st /\ cacheOf st' = cacheOf st /\
  default [] (rateLimiter st' !! "default") = repeat (now st) (S k) /\
  statsCanMakeRequest (fst (getAutocompleteStats st)) = true.
Proof.
  intros Hk Hl. cbv zeta. unfold getAutocompleteStats, RateLimiter.canMakeRequest.
  rewrite Hl, filter_repeat_now, repeat_length.
  change RateLimiter.maxRequests with 20.
  destruct (Z.of_nat k >=? 20) eqn:E; [lia|]. cbn.
  rewrite lookup_insert_eq. cbn.
  split; [done|]. split; [done|]. split; [|done].
  clear. induction k as [|k IH]; cbn; [done|]. by rewrite IH.
Qed.

Lemma getAutocompleteStatsTimes_repeat n : forall st k,
  (k + n <= 20)%nat ->
  default [] (rateLimiter st !! "default") = repeat (now st) k ->
  let st' := getAutocompleteStatsTimes n st in
  now st' = now st /\ cacheOf st' = cacheOf st /\
  default [] (rateLimiter st' !! "default") = repeat (now st) (k + n).
Proof.
  induction n as [|n IH]; intros st k Hk Hl; cbn [getAutocompleteStatsTimes].
  - by rewrite Nat.add_0_r.
  - destruct (getAutocompleteStats_repeat st k ltac:(lia) Hl) as (Hn & Hc & Hl' & _).
    rewrite <- Hn in Hl'.
    destruct (IH _ (S k) ltac:(lia) Hl') as (Hn2 & Hc2 & Hl2).
    cbv zeta. rewrite Hn2, Hc2, Hl2, Hn, Hc.
    split; [done|]. split; [done|]. f_equal. lia.
Qed.

(** X13.  [getAutocompleteStats] asks the limiter with [canMakeRequest],
    which records a request each time it says yes: after twenty readings of
    the statistics at one instant, with nothing on record before, the next
    [fetchFromExternalAPI] is refused with [RATE_LIMIT_EXCEEDED] and a
    [retryAfter] of 60 seconds, whatever the query and whatever the network
    would have answered, and no time passes. *)
Theorem reading_the_statistics_takes_requests st query options reply :
  rateLimiter st !! "default" = None ->
  let st' := getAutocompleteStatsTimes 20 st in
  now st' = now st /\ cacheOf st' = cacheOf st /\
  fetchFromExternalAPI query options reply st'
  = (inl {| message := "Rate limit exceeded"; code := "RATE_LIMIT_EXCEEDED";
            retryable := true; retryAfter := Some 60 |}, st').
Proof.
  intros Hnone. cbv zeta.
  destruct (getAutocompleteStatsTimes_repeat 20 st 0 ltac:(lia)) as (Hn & Hc & Hl).
  { by rewrite Hnone. }
  split; [exact Hn|]. split; [exact Hc|].
  destruct (getAutocompleteStatsTimes 20 st) as [t c r]. cbn [now cacheOf rateLimiter] in *.
  subst t. unfold fetchFromExternalAPI, RateLimiter.canMakeRequest, RateLimiter.getRetryAfter.
  cbn [now cacheOf rateLimiter]. rewrite Hl.
  rewrite filter_repeat_now, repeat_length.
  change (Z.of_nat (0 + 20) >=? RateLimiter.maxRequests) with true. cbn [negb].
  do 3 f_equal. rewrite Hl.
  change (0 + 20)%nat with 20%nat. cbn [repeat fold_left].
  rewrite !Z.min_id, Z.sub_diag. reflexivity.
Qed.

Lemma reading_the_statistics_takes_requests_witness :
  fst (fetchFromExternalAPI "roma" defaultOptions
         {| elapsed := 120; outcome := HttpOk [romaApi] |}
         (getAutocompleteStatsTimes 20 freshState))
  = inl {| message := "Rate limit exceeded"; code := "RATE_LIMIT_EXCEEDED";
           retryable := true; retryAfter := Some 60 |}.
Proof.
  destruct (reading_the_statistics_takes_requests freshState "roma" defaultOptions
              {| elapsed := 120; outcome := HttpOk [romaApi] |} eq_refl) as (_ & _ & H).
  by rewrite H.
Defined.

(** *** The cache *)

(** X14.  The sweep of [CacheManager.cleanup] is invisible to the readers:
    a [get] at the time of the sweep or later returns what it would have
    returned without it.  What the sweep keeps are entries of the cache that
    had not expired, and a second sweep at the same time removes nothing. *)
Theorem cache_cleanup_keeps_reads now now' key cache :
  now <= now' ->
  fst (CacheManager.get now' key (CacheManager.cleanup now cache))
  = fst (CacheManager.get now' key cache) /\
  (forall entry, CacheManager.cleanup now cache !! key = Some entry ->
     cache !! key = Some entry /\ now <= CacheManager.timestamp entry) /\
  CacheManager.cleanup now (CacheManager.cleanup now cache) = CacheManager.cleanup now cache.
Proof.
  intros Hnow. unfold CacheManager.get, CacheManager.cleanup.
  split; [|split].
  - destruct (cache !! key) as [entry|] eqn:E.
    + destruct (decide (now > CacheManager.timestamp entry)) as [Hgt|Hle].
      * match goal with |- context [filter ?P ?m !! ?i] =>
          assert (filter P m !! i = None) as ->
        end.
        { apply map_lookup_filter_None. right. intros e He.
          rewrite E in He. injection He as <-. cbn. lia. }
        destruct (now' >? CacheManager.timestamp entry) eqn:E'; [done | lia].
      * match goal with |- context [filter ?P ?m !! ?i] =>
          assert (filter P m !! i = Some entry) as ->
        end.
        { apply map_lookup_filter_Some. split; [done|]. cbn. lia. }
        by destruct (now' >? CacheManager.timestamp entry).
    + match goal with |- context [filter ?P ?m !! ?i] =>
        assert (filter P m !! i = None) as ->
      end; [|done].
      apply map_lookup_filter_None. by left.
  - intros entry [Hl Hp]%map_lookup_filter_Some. cbn in Hp. split; [done | lia].
  - apply map_filter_filter_r. intros i x _ Hp. exact Hp.
Qed.

Lemma cache_cleanup_keeps_reads_witness :
  let cache := CacheManager.set 0 "k" [romaLocal] 1000 ∅ in
  fst (CacheManager.get 2000 "k" (CacheManager.cleanup 1500 cache))
  = fst (CacheManager.get 2000 "k" cache).
Proof.
  exact (proj1 (cache_cleanup_keeps_reads 1500 2000 "k"
                  (CacheManager.set 0 "k" [romaLocal] 1000 ∅) ltac:(lia))).
Defined.


(** *** Deduplication, again *)

Lemma deduplicate_fold_distinct results : forall acc,
  (forall key, key ∈ fst acc <-> key ∈ map dedupKey (snd acc)) ->
  NoDup (map dedupKey (snd acc ++ results)) ->
  snd (fold_left deduplicateStep results acc) = snd acc ++ results.
Proof.
  induction results as [|x results IH]; intros [seen kept] Hseen Hnd; cbn [fold_left fst snd] in *.
  - by rewrite app_nil_r.
  - assert (dedupKey x ∉ seen) as Hnew.
    { rewrite Hseen. rewrite map_app in Hnd. cbn [map] in Hnd.
      apply NoDup_app in Hnd as (_ & Hdisj & _).
      intros Hin. apply (Hdisj _ Hin). apply elem_of_cons. by left. }
    unfold deduplicateStep at 2. rewrite bool_decide_eq_false_2 by done.
    rewrite IH; cbn [fst snd].
    + by rewrite <- app_assoc.
    + intros key. rewrite map_app. cbn [map].
      rewrite elem_of_union, elem_of_singleton, elem_of_app, list_elem_of_singleton, Hseen.
      tauto.
    + by rewrite <- app_assoc.
Qed.

(** X15.  [deduplicateResults] returns a list whose keys are all
    different as it is, order included; its result is therefore left alone
    by a second pass; and it never returns more results than it was
    given. *)
Theorem deduplicateResults_idempotent results :
  (NoDup (map dedupKey results) -> deduplicateResults results = results) /\
  deduplicateResults (deduplicateResults results) = deduplicateResults results /\
  (length (deduplicateResults results) <= length results)%nat.
Proof.
  assert (forall l, NoDup (map dedupKey l) -> deduplicateResults l = l) as Hfix.
  { intros l Hnd. unfold deduplicateResults.
    rewrite (deduplicate_fold_distinct l (∅, [])); cbn [fst snd]; [done| |done].
    intros key. by rewrite elem_of_empty, elem_of_nil. }
  destruct (deduplicateResults_invariant results) as (_ & Hnd & Hcover & Hfrom).
  fold (deduplicateResults results) in Hnd, Hfrom.
  split; [apply Hfix|]. split; [by apply Hfix|].
  apply NoDup_fmap_1 in Hnd.
  apply submseteq_length, NoDup_submseteq; [done|]. exact Hfrom.
Qed.

(** *** Sorting with a comparator that is an order *)

Lemma insertSorted_sorted {A} (compare : A -> A -> Q) (R : relation A) (P : A -> Prop)
    a xs :
  (forall x y, P x -> P y -> (R x y <-> Qle_bool (compare x y) 0 = true)) ->
  (forall x y, P x -> P y -> R x y \/ R y x) ->
  (forall x y z, P x -> P y -> P z -> R x y -> R y z -> R x z) ->
  P a -> Forall P xs -> StronglySorted R xs ->
  StronglySorted R (insertSorted compare a xs).
Proof.
  intros HR Htotal Htrans Pa HP Hs.
  induction Hs as [|b xs Hs IH Hb]; cbn [insertSorted].
  - repeat constructor.
  - apply Forall_cons in HP as [Pb HP].
    destruct (Qle_bool (compare a b) 0) eqn:E.
    + apply HR in E; [|done|done]. constructor; [by constructor|].
      constructor; [done|].
      rewrite Forall_forall in Hb, HP |- *. intros x Hx.
      apply (Htrans a b x); auto.
    + constructor; [by apply IH|].
      assert (R b a) as Hba.
      { destruct (Htotal a b Pa Pb) as [H|H]; [|done].
        apply HR in H; [congruence|done|done]. }
      rewrite Forall_forall in Hb |- *. intros x Hx.
      apply list_elem_of_In, (Permutation_in _ (insertSorted_Permutation compare a xs)) in Hx.
      destruct Hx as [<-|Hx]; [done|]. apply Hb. by apply list_elem_of_In.
Qed.

Lemma sortBy_sorted {A} (compare : A -> A -> Q) (R : relation A) (P : A -> Prop) xs :
  (forall x y, P x -> P y -> (R x y <-> Qle_bool (compare x y) 0 = true)) ->
  (forall x y, P x -> P y -> R x y \/ R y x) ->
  (forall x y z, P x -> P y -> P z -> R x y -> R y z -> R x z) ->
  Forall P xs -> StronglySorted R (sortBy compare xs).
Proof.
  intros HR Htotal Htrans HP.
  induction xs as [|a xs IH]; cbn; [constructor|].
  apply Forall_cons in HP as [Pa HP].
  apply (insertSorted_sorted compare R P); auto.
  fold (sortBy compare xs).
  rewrite Forall_forall in HP |- *. intros x Hx. apply HP.
  by rewrite <- (sortBy_Permutation compare xs).
Qed.

Lemma slice0_sorted {A} (R : relation A) n (xs : list A) :
  StronglySorted R xs -> StronglySorted R (slice0 n xs).
Proof.
  intros H. unfold slice0.
  destruct (0 <=? n).
  - rewrite <- (take_drop (Z.to_nat n) xs) in H. by apply StronglySorted_app_1_l in H.
  - rewrite <- (take_drop (length xs - Z.to_nat (- n)) xs) in H.
    by apply StronglySorted_app_1_l in H.
Qed.

(** The comparator of the merge, away from the rule for local exact
    matches. *)
Lemma compareResults_ranked a b :
  (source a = api \/ ~ (confidence a == 100)%Q) ->
  (source b = api \/ ~ (confidence b == 100)%Q) ->
  rankedBefore a b <-> Qle_bool (compareResults a b) 0 = true.
Proof.
  intros Ha Hb. unfold compareResults, rankedBefore.
  assert (ResultSource_eqb (source a) local && ResultSource_eqb (source b) api
          && Qeq_bool (confidence a) 100 = false) as ->.
  { destruct Ha as [->|Ha]; [done|].
    destruct (Qeq_bool (confidence a) 100) eqn:E; [|by rewrite andb_false_r].
    apply Qeq_bool_iff in E. done. }
  assert (ResultSource_eqb (source b) local && ResultSource_eqb (source a) api
          && Qeq_bool (confidence b) 100 = false) as ->.
  { destruct Hb as [->|Hb]; [done|].
    destruct (Qeq_bool (confidence b) 100) eqn:E; [|by rewrite andb_false_r].
    apply Qeq_bool_iff in E. done. }
  destruct (Qeq_bool (confidence b - confidence a) 0) eqn:E; cbn [negb].
  - apply Qeq_bool_iff in E. rewrite Qle_bool_iff.
    assert ((inject_Z (popularity b) - inject_Z (popularity a) <= 0)%Q
            <-> popularity b <= popularity a) as ->.
    { rewrite (Zle_Qle (popularity b) (popularity a)). split; intros; lra. }
    split; [intros [H|[_ H]]; [lra | done] | intros H; right; split; [lra | done]].
  - apply Qeq_bool_neq in E. rewrite Qle_bool_iff.
    split; [intros [H|[H _]]; lra | intros H; left; lra].
Qed.

Lemma rankedBefore_total a b : rankedBefore a b \/ rankedBefore b a.
Proof.
  unfold rankedBefore.
  destruct (Q_dec (confidence a) (confidence b)) as [[H|H]|H].
  - right. by left.
  - left. by left.
  - destruct (Z_le_gt_dec (popularity b) (popularity a)).
    + left. right. done.
    + right. right. split; [by symmetry | lia].
Qed.

Lemma rankedBefore_trans a b c : rankedBefore a b -> rankedBefore b c -> rankedBefore a c.
Proof.
  unfold rankedBefore. intros [H1|[H1 H1']] [H2|[H2 H2']].
  - left. lra.
  - left. lra.
  - left. lra.
  - right. split; [lra | lia].
Qed.

(** X16.  The merged list of [getAutocompleteResults] (local results,
    which carry confidence 90, and results of the API, deduplicated, sorted
    and cut) is in the order of confidence, descending, and among equal
    confidences of popularity, descending: every result comes before all the
    results after it in that order.  The rule of the comparator that puts a
    local result of confidence 100 first never applies in a merge. *)
Theorem merged_results_ranked (found : list CityService.CityResult)
    (apiResults : list EnhancedCityResult) (maxResults : Z) :
  Forall (fun r => source r = api) apiResults ->
  let localResults := map (enhance local 90) found in
  let merged :=
    slice0 maxResults
      (sortBy compareResults (deduplicateResults (localResults ++ apiResults))) in
  StronglySorted rankedBefore merged.
Proof.
  intros Hapi. cbv zeta. apply slice0_sorted.
  apply (sortBy_sorted compareResults rankedBefore
           (fun r => source r = api \/ ~ (confidence r == 100)%Q)).
  - intros x y. apply compareResults_ranked.
  - intros x y _ _. apply rankedBefore_total.
  - intros x y z _ _ _. apply rankedBefore_trans.
  - destruct (deduplicateResults_invariant (map (enhance local 90) found ++ apiResults))
      as (_ & _ & _ & Hfrom).
    apply Forall_forall. intros r Hr. apply Hfrom in Hr.
    apply elem_of_app in Hr as [Hr|Hr].
    + apply list_elem_of_fmap in Hr as (item & -> & _). right. cbn. intros H. discriminate H.
    + left. rewrite Forall_forall in Hapi. by apply Hapi.
Qed.


Lemma merged_results_ranked_witness :
  let merged :=
    slice0 3
      (sortBy compareResults
         (deduplicateResults
            (map (enhance local 90) [milano; roma] ++ [romaApi; romfordApi; romansApi]))) in
  merged = [romansApi; enhance local 90 roma; enhance local 90 milano] /\
  StronglySorted rankedBefore merged.
Proof.
  cbv zeta. split; [vm_compute; reflexivity|].
  apply (merged_results_ranked [milano; roma] [romaApi; romfordApi; romansApi] 3).
  repeat constructor.
Defined.

Section OrchestratorMore.

Variable getInitialSuggestions : Z -> list CityService.CityResult.
Variable searchDestinations : string -> Z -> list CityService.CityResult.

Local Abbreviation getAutocompleteResults :=
  (getAutocompleteResults getInitialSuggestions searchDestinations).

Lemma cache_get_frame key st :
  now (snd (cache_get key st)) = now st /\
  rateLimiter (snd (cache_get key st)) = rateLimiter st.
Proof.
  unfold cache_get. by destruct (CacheManager.get (now st) key (cacheOf st)).
Qed.

(** X17.  With [useExternalAPI] off, [getAutocompleteResults] never throws
    and never carries an error: it answers from the local catalogue or from
    the cache, takes no time, and leaves the limiter of outgoing requests as
    it is. *)
Theorem local_only_mode query options reply st :
  useExternalAPI options = false ->
  exists response,
    fst (getAutocompleteResults query options reply st) = inr response /\
    error response = None /\
    (responseSource response = local \/ responseSource response = cache) /\
    now (snd (getAutocompleteResults query options reply st)) = now st /\
    rateLimiter (snd (getAutocompleteResults query options reply st)) = rateLimiter st.
Proof.
  intros Hoff. unfold CityAutocompleteService.getAutocompleteResults.
  destruct (String.eqb query "" || _).
  - eexists. cbn. split; [done|]. split; [done|]. split; [by left|]. done.
  - pose proof (cache_get_frame (cacheKeyOf query (maxResults options)) st) as [Hn Hr].
    destruct (cache_get _ st) as [[cachedResults|] st1]; cbn [fst snd] in *.
    + eexists. cbn. split; [done|]. split; [done|]. split; [by right|]. done.
    + rewrite Hoff. cbn [negb orb].
      eexists. cbn. split; [done|]. split; [done|]. split; [by left|]. done.
Qed.

(** What a call that did not read its answer from the cache leaves in the
    cache. *)
Ltac stored :=
  unfold cache_set, CacheManager.set;
  cbn [cacheOf set_cache now results];
  by rewrite lookup_insert_eq.

Lemma getAutocompleteResults_stores query options reply st response st' :
  query <> ""%string ->
  minQueryLength options <= Z.of_nat (String.length (trim query)) ->
  getAutocompleteResults query options reply st = (inr response, st') ->
  fromCache response = false ->
  cacheOf st' !! cacheKeyOf query (maxResults options)
  = Some {| CacheManager.data := map (stamp (now st')) (results response);
            CacheManager.timestamp := now st' + cacheTimeout options |}.
Proof.
  intros Hq Hlen Hcall Hfresh.
  unfold CityAutocompleteService.getAutocompleteResults in Hcall.
  apply String.eqb_neq in Hq. rewrite Hq in Hcall. cbn [orb] in Hcall.
  destruct (_ <? minQueryLength options) eqn:E; [lia|].
  destruct (cache_get _ st) as [[cachedResults|] st1].
  { injection Hcall as <- <-. discriminate Hfresh. }
  destruct (negb (useExternalAPI options) || _).
  { injection Hcall as <- <-. stored. }
  destruct (fetchFromExternalAPI query options reply st1) as [[err|apiResults] st2].
  - destruct (fallbackToLocal options && _); [|discriminate].
    injection Hcall as <- <-. stored.
  - injection Hcall as <- <-. stored.
Qed.

Lemma cacheKeyOf_normalized query query' maxResults :
  toLowerCase (trim query') = toLowerCase (trim query) ->
  cacheKeyOf query' maxResults = cacheKeyOf query maxResults.
Proof. unfold cacheKeyOf. by intros ->. Qed.

(** X18.  A call of [getAutocompleteResults] with a query of sufficient
    length that was not answered from the cache stores its results; a later
    call, no more than [cacheTimeout] (of the first call) after the end of
    the first, with a query that is the same once trimmed and lower-cased and
    with the same [maxResults], is answered from the cache whatever its other
    options and whatever the network would say: the results of the first
    call, each stamped with the time of storing, source [cache], no error -
    also when the first answer carried one - and no change of state. *)
Theorem repeated_query_served_from_cache query query' options options' reply reply'
    st response st' d :
  query <> ""%string ->
  minQueryLength options <= Z.of_nat (String.length (trim query)) ->
  getAutocompleteResults query options reply st = (inr response, st') ->
  fromCache response = false ->
  query' <> ""%string ->
  minQueryLength options' <= Z.of_nat (String.length (trim query')) ->
  toLowerCase (trim query') = toLowerCase (trim query) ->
  maxResults options' = maxResults options ->
  d <= cacheTimeout options ->
  getAutocompleteResults query' options' reply' (advance d st')
  = (inr {| results := map (stamp (now st')) (results response);
            responseSource := cache; error := None; fromCache := true |},
     advance d st').
Proof.
  intros Hq Hlen Hcall Hfresh Hq' Hlen' Hsame Hmax Hd.
  pose proof (getAutocompleteResults_stores _ _ _ _ _ _ Hq Hlen Hcall Hfresh) as Hstored.
  assert (cache_get (cacheKeyOf query' (maxResults options')) (advance d st')
          = (Some (map (stamp (now st')) (results response)), advance d st')) as Hget.
  { rewrite Hmax, (cacheKeyOf_normalized query query' _ Hsame).
    unfold cache_get, CacheManager.get, advance. cbn [now cacheOf].
    rewrite Hstored. cbn [CacheManager.timestamp CacheManager.data].
    destruct (now st' + d >? now st' + cacheTimeout options) eqn:E; [lia|].
    reflexivity. }
  rewrite (getAutocompleteResults_cached _ _ query' options' reply' (advance d st')
             (map (stamp (now st')) (results response)) Hq' Hlen');
    by rewrite Hget.
Qed.

(** X19.  For [maxResults >= 0], and a catalogue whose initial suggestions
    respect their limit, an answer of [getAutocompleteResults] that does not
    come from the cache never holds more than [maxResults] results, on any of
    its paths: initial suggestions, local only, merged, or fallback. *)
Theorem results_within_maxResults query options reply st response :
  0 <= maxResults options ->
  (forall limit, 0 <= limit -> Z.of_nat (length (getInitialSuggestions limit)) <= limit) ->
  fst (getAutocompleteResults query options reply st) = inr response ->
  fromCache response = false ->
  Z.of_nat (length (results response)) <= maxResults options.
Proof.
  intros Hmax Hinit Hcall Hfresh.
  unfold CityAutocompleteService.getAutocompleteResults in Hcall.
  destruct (String.eqb query "" || _).
  { cbn in Hcall. injection Hcall as <-. cbn [results].
    rewrite length_map. by apply Hinit. }
  destruct (cache_get _ st) as [[cachedResults|] st1].
  { cbn in Hcall. injection Hcall as <-. discriminate Hfresh. }
  destruct (negb (useExternalAPI options) || _).
  { cbn in Hcall. injection Hcall as <-. by apply slice0_length. }
  destruct (fetchFromExternalAPI query options reply st1) as [[err|apiResults] st2].
  - destruct (fallbackToLocal options && _); [|discriminate].
    cbn in Hcall. injection Hcall as <-. by apply slice0_length.
  - cbn in Hcall. injection Hcall as <-. by apply slice0_length.
Qed.

End OrchestratorMore.

Lemma local_only_mode_witness :
  let options := {| maxResults := 8; useExternalAPI := false; cacheTimeout := 300000;
                    fallbackToLocal := true; minQueryLength := 2 |} in
  exists response,
    fst (CityAutocompleteService.getAutocompleteResults noSuggestions catalogueOfRoma
           "rom" options networkDown freshState) = inr response /\
    error response = None.
Proof.
  cbv zeta.
  destruct (local_only_mode noSuggestions catalogueOfRoma "rom"
              {| maxResults := 8; useExternalAPI := false; cacheTimeout := 300000;
                 fallbackToLocal := true; minQueryLength := 2 |}
              networkDown freshState eq_refl) as (response & H1 & H2 & _).
  exists response. split; [exact H1 | exact H2].
Defined.

Lemma repeated_query_served_from_cache_witness :
  let first :=
    CityAutocompleteService.getAutocompleteResults noSuggestions catalogueOfRoma
      "Rom" defaultOptions networkDown freshState in
  fst (CityAutocompleteService.getAutocompleteResults noSuggestions catalogueOfRoma
         " rom " defaultOptions networkDown (advance 300000 (snd first)))
  = inr {| results := [stamp 120 romaLocal]; responseSource := cache; error := None;
           fromCache := true |}.
Proof.
  cbv zeta.
  rewrite (repeated_query_served_from_cache noSuggestions catalogueOfRoma
             "Rom" " rom " defaultOptions defaultOptions networkDown networkDown
             freshState
             {| results := [romaLocal]; responseSource := local;
                error := Some {| message := "Network error"; code := "NETWORK_ERROR";
                                 retryable := true; retryAfter := None |};
                fromCache := false |}
             (snd (CityAutocompleteService.getAutocompleteResults noSuggestions
                     catalogueOfRoma "Rom" defaultOptions networkDown freshState))
             300000);
    first [reflexivity | done | vm_compute; discriminate | vm_compute; reflexivity].
Defined.

Lemma results_within_maxResults_witness :
  let response :=
    {| results := map (enhance local 100) (CityService.getInitialSuggestions 8);
       responseSource := local; error := None; fromCache := false |} in
  fst (CityAutocompleteService.getAutocompleteResults CityService.getInitialSuggestions
         catalogueOfRoma "" defaultOptions networkDown freshState) = inr response /\
  Z.of_nat (length (results response)) <= 8.
Proof.
  cbv zeta. split; [reflexivity|].
  refine (results_within_maxResults CityService.getInitialSuggestions catalogueOfRoma ""
            defaultOptions networkDown freshState _ _ _ _ _).
  - cbn. lia.
  - intros limit Hl. by apply slice0_length.
  - reflexivity.
  - reflexivity.
Defined.


End AutocompleteProofs.

(** ** The local catalogue *)

Section CityServiceProofs.
Import CityService.

Lemma slice0_length_min {A} (n : Z) (xs : list A) :
  0 <= n -> Z.of_nat (length (slice0 n xs)) = Z.min n (Z.of_nat (length xs)).
Proof.
  intros Hn. unfold slice0. destruct (0 <=? n) eqn:E; [|lia].
  rewrite length_take. lia.
Qed.

Lemma StronglySorted_lookup {A} (R : relation A) (l : list A) i j x y :
  StronglySorted R l -> l !! i = Some x -> l !! j = Some y -> (i < j)%nat -> R x y.
Proof.
  intros Hs. revert i j. induction Hs as [|a l Hs IH Ha]; intros i j Hi Hj Hlt.
  - by rewrite lookup_nil in Hi.
  - destruct j as [|j]; [lia|]. cbn in Hj.
    destruct i as [|i].
    + cbn in Hi. injection Hi as <-.
      rewrite Forall_forall in Ha. apply Ha. by eapply list_elem_of_lookup_2.
    + cbn in Hi. apply (IH i j); [done|done|lia].
Qed.

Lemma byPopularity_order a b :
  popularity b <= popularity a <-> Qle_bool (byPopularity a b) 0 = true.
Proof.
  unfold byPopularity. rewrite Qle_bool_iff.
  change 0%Q with (inject_Z 0). rewrite <- Zle_Qle. lia.
Qed.

(** The pipeline of the two suggestion functions: filter, sort by
    popularity, cut. *)
Lemma suggestions_pipeline (keep : CityResult -> bool) (limit : Z) :
  let suggestions :=
    slice0 limit (sortBy byPopularity (List.filter keep POPULAR_DESTINATIONS)) in
  (0 <= limit ->
   Z.of_nat (length suggestions)
   = Z.min limit (Z.of_nat (length (List.filter keep POPULAR_DESTINATIONS)))) /\
  Forall (fun dest => keep dest = true /\ dest ∈ POPULAR_DESTINATIONS) suggestions /\
  StronglySorted (fun a b => popularity b <= popularity a) suggestions.
Proof.
  cbv zeta. split; [|split].
  - intros Hl. rewrite slice0_length_min by done.
    by rewrite (Permutation_length (sortBy_Permutation byPopularity _)).
  - apply Forall_forall. intros dest Hin.
    apply (fun H => elem_of_sublist _ _ _ H (slice0_sublist limit _)) in Hin.
    rewrite (sortBy_Permutation byPopularity _) in Hin.
    apply list_elem_of_In, filter_In in Hin as [Hin Hk].
    split; [done | by apply list_elem_of_In].
  - apply slice0_sorted.
    apply (sortBy_sorted byPopularity _ (fun _ => True)).
    + intros x y _ _. apply byPopularity_order.
    + intros x y _ _. lia.
    + intros x y z _ _ _. lia.
    + by apply Forall_forall.
Qed.

(** X20.  The suggestions shown before a search.  For every limit,
    [getInitialSuggestions] returns cities of the catalogue of popularity 8
    or more and [getPopularDestinations] cities of the catalogue, both in the
    order of popularity, descending; for a limit that is not negative they
    return as many as the limit allows of the 37 and the 61 there are. *)
Theorem catalogue_suggestions limit :
  let initial := getInitialSuggestions limit in
  let popular := getPopularDestinations limit in
  (0 <= limit ->
   Z.of_nat (length initial) = Z.min limit 37 /\
   Z.of_nat (length popular) = Z.min limit 61) /\
  Forall (fun dest => type dest = City /\ 8 <= popularity dest /\
                      dest ∈ POPULAR_DESTINATIONS) initial /\
  Forall (fun dest => type dest = City /\ dest ∈ POPULAR_DESTINATIONS) popular /\
  StronglySorted (fun a b => popularity b <= popularity a) initial /\
  StronglySorted (fun a b => popularity b <= popularity a) popular.
Proof.
  cbv zeta. unfold getInitialSuggestions, getPopularDestinations.
  destruct (suggestions_pipeline (fun dest => isCity dest && (popularity dest >=? 8)) limit)
    as (Hlen & Hall & Hsorted).
  destruct (suggestions_pipeline isCity limit) as (Hlen' & Hall' & Hsorted').
  split; [|split; [|split; [|split; [exact Hsorted | exact Hsorted']]]].
  - intros Hl. split; [exact (Hlen Hl) | exact (Hlen' Hl)].
  - eapply Forall_impl; [exact Hall|]. cbn. intros dest [Hk Hin].
    apply andb_true_iff in Hk as [Hc Hp]. unfold isCity in Hc.
    split; [by destruct (type dest)|]. split; [lia | done].
  - eapply Forall_impl; [exact Hall'|]. cbn. intros dest [Hc Hin].
    unfold isCity in Hc. split; [by destruct (type dest) | done].
Qed.


Section SearchProofs.

Variable normalizeText : string -> string.

Local Abbreviation fuzzyMatch := (fuzzyMatch normalizeText).
Local Abbreviation bestScore := (bestScore normalizeText).
Local Abbreviation finalScore := (finalScore normalizeText).
Local Abbreviation searchDestinations := (searchDestinations normalizeText).
Local Abbreviation outranks := (outranks normalizeText).
Local Abbreviation exactMatch := (exactMatch normalizeText).

Local Abbreviation scored := (scored normalizeText).

Lemma byScore_order (a b : CityResult * Q) :
  ((snd b < snd a)%Q \/ ((snd a == snd b)%Q /\ popularity (fst b) <= popularity (fst a)))
  <-> Qle_bool (byScore a b) 0 = true.
Proof.
  unfold byScore. rewrite Qle_bool_iff.
  destruct (Qeq_bool (snd b) (snd a)) eqn:E; cbn [negb].
  - apply Qeq_bool_iff in E.
    change 0%Q with (inject_Z 0). rewrite <- Zle_Qle.
    split; [intros [H|[_ H]]; [lra | lia] | intros H; right; split; [lra | lia]].
  - apply Qeq_bool_neq in E.
    split; [intros [H|[H _]]; lra | intros H; left; lra].
Qed.

Lemma StronglySorted_map {A B} (R : relation A) (R' : relation B) (f : A -> B) l :
  (forall x y, x ∈ l -> y ∈ l -> R x y -> R' (f x) (f y)) ->
  StronglySorted R l -> StronglySorted R' (map f l).
Proof.
  intros HR Hs. induction Hs as [|a l Hs IH Ha]; cbn; [constructor|].
  constructor.
  - apply IH. intros x y Hx Hy. apply HR; apply elem_of_cons; by right.
  - rewrite Forall_forall in Ha. apply Forall_forall. intros b Hb.
    apply list_elem_of_fmap in Hb as (x & -> & Hx).
    apply HR; [apply elem_of_cons; by left | apply elem_of_cons; by right | by apply Ha].
Qed.

Lemma scoredResults_all trimmedQuery options :
  Forall (fun result =>
            scored trimmedQuery result /\ fst result ∈ POPULAR_DESTINATIONS /\
            (minScore options <= snd result)%Q /\
            (includeCountries options = false -> type (fst result) = City))
         (scoredResults normalizeText trimmedQuery options).
Proof.
  apply Forall_forall. intros result Hin. unfold scoredResults in Hin.
  apply (fun H => elem_of_sublist _ _ _ H (slice0_sublist _ _)) in Hin.
  rewrite (sortBy_Permutation byScore _) in Hin.
  apply list_elem_of_In, filter_In in Hin as [Hin Hk].
  apply in_map_iff in Hin as (dest & <- & Hin).
  apply andb_true_iff in Hk as [Hscore Htype]. cbn [fst snd] in *.
  split; [done|]. split; [by apply list_elem_of_In|].
  split; [by apply Qle_bool_iff|].
  intros Hno. rewrite Hno in Htype. cbn in Htype. unfold isCity in Htype.
  by destruct (type dest).
Qed.

Lemma scoredResults_sorted trimmedQuery options :
  StronglySorted (outranks trimmedQuery)
    (map fst (scoredResults normalizeText trimmedQuery options)).
Proof.
  pose proof (scoredResults_all trimmedQuery options) as Hall.
  apply (StronglySorted_map
           (fun a b => (snd b < snd a)%Q \/
                       ((snd a == snd b)%Q /\ popularity (fst b) <= popularity (fst a)))).
  - intros x y Hx Hy. rewrite Forall_forall in Hall.
    destruct (Hall x Hx) as (Hsx & _). destruct (Hall y Hy) as (Hsy & _).
    unfold CityService.scored in Hsx, Hsy. unfold CityService.outranks.
    by rewrite <- Hsx, <- Hsy.
  - apply slice0_sorted.
    apply (sortBy_sorted byScore _ (fun _ => True)).
    + intros x y _ _. apply byScore_order.
    + intros x y _ _.
      destruct (Q_dec (snd x) (snd y)) as [[H|H]|H]; [right; by left | left; by left|].
      destruct (Z_le_gt_dec (popularity (fst y)) (popularity (fst x))).
      * left. right. done.
      * right. right. split; [by symmetry | lia].
    + intros x y z _ _ _ [H1|[H1 H1']] [H2|[H2 H2']];
        [left; lra | left; lra | left; lra | right; split; [lra | lia]].
    + by apply Forall_forall.
Qed.

(** X21.  The local search, whatever [normalizeText] does.  A query
    of fewer than two characters once trimmed finds nothing.  Otherwise the
    results are destinations of the catalogue whose score for the trimmed
    query is at least [minScore], cities only when [includeCountries] is
    off; they are in the order of score, descending, and of popularity among
    equal scores; and for [maxResults >= 0] there are at most [maxResults]
    of them. *)
Theorem searchDestinations_results query options :
  let results := searchDestinations query options in
  ((String.length (trim query) < 2)%nat -> results = []) /\
  (0 <= maxResults options -> Z.of_nat (length results) <= maxResults options) /\
  Forall (fun dest =>
            dest ∈ POPULAR_DESTINATIONS /\
            (minScore options <= finalScore (trim query) dest)%Q /\
            (includeCountries options = false -> type dest = City)) results /\
  StronglySorted (outranks (trim query)) results.
Proof.
  cbv zeta. unfold CityService.searchDestinations.
  destruct (String.eqb query "" || _) eqn:Eshort.
  { split; [done|]. split; [cbn; lia|]. split; constructor. }
  apply orb_false_iff in Eshort as [_ Hlen]. apply Nat.ltb_ge in Hlen.
  pose proof (scoredResults_all (trim query) options) as Hall.
  split; [lia|]. split; [|split].
  - intros Hmax. rewrite length_map. by apply slice0_length.
  - apply Forall_forall. intros dest Hin.
    apply list_elem_of_fmap in Hin as (result & -> & Hin).
    rewrite Forall_forall in Hall. destruct (Hall result Hin) as (Hs & Hc & Hm & Ht).
    unfold CityService.scored in Hs. rewrite <- Hs. done.
  - apply scoredResults_sorted.
Qed.

Lemma popularity_range :
  Forall (fun dest => 1 <= popularity dest <= 10) POPULAR_DESTINATIONS.
Proof. unfold POPULAR_DESTINATIONS. repeat constructor; cbn; lia. Qed.

Lemma fuzzyMatch_exact query target :
  normalizeText target = normalizeText query -> fuzzyMatch query target = 100%Q.
Proof. intros H. unfold CityService.fuzzyMatch. by rewrite H, String.eqb_refl. Qed.

Lemma fuzzyMatch_range query target :
  (0 <= fuzzyMatch query target <= 100)%Q /\
  (normalizeText target <> normalizeText query -> (fuzzyMatch query target <= 90)%Q).
Proof.
  unfold CityService.fuzzyMatch.
  destruct (String.eqb _ _) eqn:E.
  { apply String.eqb_eq in E. split; [lra | done]. }
  destruct (startsWith _ _); [split; [lra | intros; lra]|].
  destruct (includes _ _); [split; [lra | intros; lra]|].
  destruct (0 <? _)%nat eqn:Em; [|split; [lra | intros; lra]].
  set (ratio := (_ / _)%Q).
  assert (0 <= ratio)%Q as Hr.
  { unfold ratio, Qdiv. apply Qmult_le_0_compat.
    - change 0%Q with (inject_Z 0). rewrite <- Zle_Qle. lia.
    - apply Qinv_le_0_compat. change 0%Q with (inject_Z 0). rewrite <- Zle_Qle. lia. }
  pose proof (Q.le_min_l 60 (30 + ratio * 30)) as Hmin.
  assert (0 <= Qmin 60 (30 + ratio * 30))%Q as H0.
  { apply Q.min_glb; lra. }
  split; [lra | intros; lra].
Qed.

Lemma bestScore_range query dest :
  (0 <= bestScore query dest <= 100)%Q /\
  (exactMatch query dest -> (bestScore query dest == 100)%Q) /\
  (~ exactMatch query dest -> (bestScore query dest <= 90)%Q).
Proof.
  unfold CityService.bestScore, CityService.exactMatch.
  destruct (fuzzyMatch_range query (name dest)) as [[Hn0 Hn1] Hn].
  destruct (fuzzyMatch_range query (country dest)) as [[Hc0 Hc1] Hc].
  destruct (fuzzyMatch_range query (displayName dest)) as [[Hd0 Hd1] Hd].
  pose proof (Q.le_max_l (fuzzyMatch query (name dest)) (fuzzyMatch query (country dest))).
  pose proof (Q.le_max_r (fuzzyMatch query (name dest)) (fuzzyMatch query (country dest))).
  pose proof (Q.le_max_l (Qmax (fuzzyMatch query (name dest)) (fuzzyMatch query (country dest)))
                (fuzzyMatch query (displayName dest))).
  pose proof (Q.le_max_r (Qmax (fuzzyMatch query (name dest)) (fuzzyMatch query (country dest)))
                (fuzzyMatch query (displayName dest))).
  assert (forall bound, (fuzzyMatch query (name dest) <= bound)%Q ->
            (fuzzyMatch query (country dest) <= bound)%Q ->
            (fuzzyMatch query (displayName dest) <= bound)%Q ->
            (Qmax (Qmax (fuzzyMatch query (name dest)) (fuzzyMatch query (country dest)))
                  (fuzzyMatch query (displayName dest)) <= bound)%Q) as Hlub.
  { intros bound ? ? ?. by repeat apply Q.max_lub. }
  split; [split; [lra | by apply Hlub]|]. split.
  - intros Hex. apply Qle_antisym; [by apply Hlub|].
    destruct Hex as [Hex|[Hex|Hex]]; apply fuzzyMatch_exact in Hex; rewrite Hex in *; lra.
  - intros Hno. apply Hlub; [apply Hn | apply Hc | apply Hd]; intros Heq; apply Hno; auto.
Qed.

(** X22.  In the results of [searchDestinations], a destination whose
    name, country or display name is the query (both normalized) comes
    before every destination of which that is not true: an exact match
    scores 100 plus its popularity, anything else at most 90 plus its
    popularity, and no popularity of the catalogue is outside 1..10. *)
Theorem exact_matches_come_first query options i j dest dest' :
  let results := searchDestinations query options in
  results !! i = Some dest -> results !! j = Some dest' ->
  exactMatch (trim query) dest -> ~ exactMatch (trim query) dest' ->
  (i < j)%nat.
Proof.
  cbv zeta. intros Hi Hj Hex Hno.
  unfold CityService.searchDestinations in Hi, Hj.
  destruct (String.eqb query "" || _); [by rewrite lookup_nil in Hi|].
  pose proof (scoredResults_sorted (trim query) options) as Hsorted.
  pose proof (scoredResults_all (trim query) options) as Hall.
  rewrite Forall_forall in Hall.
  assert (forall k d, map fst (scoredResults normalizeText (trim query) options) !! k = Some d ->
            d ∈ POPULAR_DESTINATIONS) as Hcat.
  { intros k d Hk. apply list_elem_of_lookup_2, list_elem_of_fmap in Hk as (result & -> & Hr).
    by destruct (Hall result Hr) as (_ & Hin & _). }
  pose proof (Hcat _ _ Hi) as Hin. pose proof (Hcat _ _ Hj) as Hin'.
  pose proof popularity_range as Hpop. rewrite Forall_forall in Hpop.
  pose proof (Hpop dest Hin) as Hp. pose proof (Hpop dest' Hin') as Hp'.
  destruct (bestScore_range (trim query) dest) as (_ & Hbest & _).
  destruct (bestScore_range (trim query) dest') as ([Hb0 _] & _ & Hbest').
  specialize (Hbest Hex). specialize (Hbest' Hno).
  assert (101 <= finalScore (trim query) dest)%Q as Hhigh.
  { unfold CityService.finalScore.
    assert (Qle_bool 70 (bestScore (trim query) dest) = true) as ->
      by (apply Qle_bool_iff; lra).
    assert (inject_Z 1 <= inject_Z (popularity dest))%Q as Hq by (rewrite <- Zle_Qle; lia).
    change (inject_Z 1) with 1%Q in Hq. lra. }
  assert (finalScore (trim query) dest' <= 100)%Q as Hlow.
  { unfold CityService.finalScore.
    assert (inject_Z (popularity dest') <= inject_Z 10)%Q as Hq by (rewrite <- Zle_Qle; lia).
    change (inject_Z 10) with 10%Q in Hq.
    destruct (Qle_bool 70 _); lra. }
  destruct (lt_eq_lt_dec i j) as [[Hlt|Heq]|Hgt]; [done| |].
  - subst j. rewrite Hi in Hj. injection Hj as <-. done.
  - pose proof (StronglySorted_lookup _ _ j i dest' dest Hsorted Hj Hi Hgt) as [Hr|[Hr _]]; lra.
Qed.

End SearchProofs.


Lemma exact_matches_come_first_witness :
  let results := CityService.searchDestinations lowerTrim "corea del sud" (searchOptions 8) in
  map name results = ["Seoul"; "Città del Capo"]%string /\ (0 < 1)%nat.
Proof.
  cbv zeta. split; [vm_compute; reflexivity|].
  apply (exact_matches_come_first lowerTrim "corea del sud" (searchOptions 8) 0 1
           (entry "Seoul" "Corea del Sud" "Seoul, Corea del Sud" City 8)
           (entry "Città del Capo" "Sudafrica" "Città del Capo, Sudafrica" City 8)).
  - vm_compute. reflexivity.
  - vm_compute. reflexivity.
  - right. left. vm_compute. reflexivity.
  - intros [H|[H|H]]; vm_compute in H; discriminate H.
Defined.

End CityServiceProofs.

Import RateLimitService GeminiService.

(** ** The AI request orchestrator *)

Section GeminiProofs.

Variable upstream : nat -> Attempt.
Variable random : nat -> Z.
Variable apiKey : option string.
Variable Json : Type.
Variable JSON_parse : string -> option Json.
Variable JSON_stringify : TravelAnalysisInputs -> string.
Variable sanitizeDestinationInputForSubmit : string -> string.
Variable stripJsonFence : string -> string.

Local Abbreviation getTravelAnalysis :=
  (getTravelAnalysis upstream random apiKey Json JSON_parse JSON_stringify
     sanitizeDestinationInputForSubmit stripJsonFence).
Local Abbreviation requestAndParse :=
  (requestAndParse upstream random Json JSON_parse
     sanitizeDestinationInputForSubmit stripJsonFence).
Local Abbreviation generateAndRecord := (generateAndRecord upstream).

Lemma recordFailure_failures s :
  failures (circuitBreaker (recordFailure s)) = failures (circuitBreaker s) + 1.
Proof. reflexivity. Qed.

(** An operation that succeeds at once is not run again. *)
Lemma retryWithBackoff_success {T} (operation : World -> (Thrown + T) * World)
    w result w' :
  operation w = (inr result, w') ->
  retryWithBackoff random operation w = (inr result, w').
Proof. intros H. unfold retryWithBackoff. cbn. by rewrite H. Qed.

Lemma generateAndRecord_success w text :
  answer (upstream (calls w)) = inr text ->
  generateAndRecord w
  = (inr text,
     {| service := recordFailure (suspend (latency (upstream (calls w))) w);
        calls := S (calls w); draws := draws w; meanwhile := meanwhile w |}).
Proof. intros H. unfold generateAndRecord, generateContent. by rewrite H. Qed.

(** The admission check passed: what is left of [getTravelAnalysis]. *)
Lemma getTravelAnalysis_allowed inputs w key :
  let requestSize := Z.of_nat (String.length (JSON_stringify inputs)) in
  let afterCheck := onService (fun _ => snd (checkRateLimit requestSize "gemini-api" (service w))) w in
  apiKey = Some key -> key <> ""%string ->
  allowed (fst (checkRateLimit requestSize "gemini-api" (service w))) = true ->
  getTravelAnalysis inputs w
  = match requestAndParse inputs afterCheck with
    | (inr results, w') => (inr results, w')
    | (inl error, w') =>
        (inl (fst (handleError error w')), snd (handleError error w'))
    end.
Proof.
  cbv zeta. intros -> Hk Hal. unfold GeminiService.getTravelAnalysis.
  destruct key as [|c key]; [done|].
  destruct (checkRateLimit _ _ (service w)) as [r svc]. cbn [fst snd] in *.
  rewrite Hal. cbn [negb].
  destruct (requestAndParse inputs _) as [[error|results] w']; [|done].
  by destruct (handleError error w').
Qed.

(** A call that succeeds is answered with the analysis, and the breaker has
    one more failure on record. *)
Lemma successful_call_counts_a_failure inputs w key text parsed :
  let requestSize := Z.of_nat (String.length (JSON_stringify inputs)) in
  let afterCheck :=
    onService (fun _ => snd (checkRateLimit requestSize "gemini-api" (service w))) w in
  apiKey = Some key -> key <> ""%string ->
  allowed (fst (checkRateLimit requestSize "gemini-api" (service w))) = true ->
  answer (upstream (calls w)) = inr (Some text) ->
  trim text <> ""%string ->
  JSON_parse (stripJsonFence (trim text)) = Some parsed ->
  getTravelAnalysis inputs w
  = (inr (TravelAnalysis Json
            (sanitizeDestinationInputForSubmit (destination inputs))
            (startDate inputs +:+ " - " +:+ endDate inputs) parsed),
     {| service := recordFailure (suspend (latency (upstream (calls w))) afterCheck);
        calls := S (calls w); draws := draws w; meanwhile := meanwhile w |}).
Proof.
  cbv zeta. intros Hkey Hk Hal Hans Htrim Hparse.
  rewrite (getTravelAnalysis_allowed inputs w key) by done. cbv zeta.
  unfold GeminiService.requestAndParse.
  set (afterCheck := onService _ w).
  rewrite (retryWithBackoff_success _ _ _ _ (generateAndRecord_success afterCheck _ Hans)).
  cbn [fmap option_fmap option_map].
  destruct (trim text) as [|c rest] eqn:Et; [done|].
  by rewrite Hparse.
Qed.

(** C3 (amended).  A malformed response.  For every call of
    [getTravelAnalysis] that passes the admission check and whose upstream
    call, retries included, ends with a response of non-empty text.  If
    [JSON.parse] rejects the text, the call throws an [APIError] of its own,
    with status 422, not rate limited; no further call is made to the API
    and no backoff wait is taken after the response ([calls] and [draws] are
    as they were when it arrived); and the handler records the event with
    the breaker: the service is left as [recordFailure] leaves it, with one
    failure more on record than when the response arrived.  If [JSON.parse]
    accepts the text, the call returns the parsed value as the analysis,
    whatever that value is: the response is not checked against the schema,
    nothing is thrown for a value that violates it, and the state is left as
    it was when the response arrived. *)
Theorem malformed_response_handling inputs w key text afterResponse :
  let requestSize := Z.of_nat (String.length (JSON_stringify inputs)) in
  let afterCheck := onService (fun _ => snd (checkRateLimit requestSize "gemini-api" (service w))) w in
  let thrown := fst (getTravelAnalysis inputs w) in
  let after := snd (getTravelAnalysis inputs w) in
  apiKey = Some key -> key <> ""%string ->
  allowed (fst (checkRateLimit requestSize "gemini-api" (service w))) = true ->
  retryWithBackoff random generateAndRecord afterCheck = (inr (Some text), afterResponse) ->
  trim text <> ""%string ->
  match JSON_parse (stripJsonFence (trim text)) with
  | None =>
      thrown = inl {| errorClass := IsAPIError; message := msgMalformed;
                      statusCode := Some 422; retryAfterSeconds := None;
                      isRateLimited := false |} /\
      calls after = calls afterResponse /\
      draws after = draws afterResponse /\
      service after = recordFailure (service afterResponse) /\
      failures (circuitBreaker (service after))
      = failures (circuitBreaker (service afterResponse)) + 1
  | Some parsedResponse =>
      getTravelAnalysis inputs w
      = (inr (TravelAnalysis Json
                (sanitizeDestinationInputForSubmit (destination inputs))
                (startDate inputs +:+ " - " +:+ endDate inputs) parsedResponse),
         afterResponse)
  end.
Proof.
  cbv zeta. intros Hkey Hk Hal Hretry Htrim.
  rewrite (getTravelAnalysis_allowed inputs w key) by done. cbv zeta.
  unfold GeminiService.requestAndParse. rewrite Hretry. cbn [fmap option_fmap option_map].
  destruct (trim text) as [|c rest] eqn:Et; [done|].
  destruct (JSON_parse _); [reflexivity|]. cbn. done.
Qed.

End GeminiProofs.

(** *** The orchestrator at work *)

(** An API that is down: four calls, three waits of 1, 2 and 4 seconds, and
    the failure recorded twice, by the retry loop and by the handler. *)
Example retries_exhausted :
  let run :=
    getTravelAnalysis (failing "fetch failed") noJitter (Some "key"%string) string
      (parseAllBut "not json") stringifyRome id id rome freshWorld in
  fst run = inl (APIError msgUnreachable (Some 503) None false) /\
  calls (snd run) = 4%nat /\ draws (snd run) = 3%nat /\
  clock (service (snd run)) = 1000 + 4 * 200 + (1000 + 2000 + 4000) /\
  failures (circuitBreaker (service (snd run))) = 2.
Proof. vm_compute. repeat split. Qed.

(** A client error is not retried (and is recorded once, by the handler). *)
Example client_error_not_retried :
  let run :=
    getTravelAnalysis (refusing 400) noJitter (Some "key"%string) string
      (parseAllBut "not json") stringifyRome id id rome freshWorld in
  fst run = inl (APIError "Bad request" (Some 400) None false) /\
  calls (snd run) = 1%nat /\ draws (snd run) = 0%nat /\
  failures (circuitBreaker (service (snd run))) = 1.
Proof. vm_compute. repeat split. Qed.

(** A refusal of the rate limiter never reaches the API or the breaker. *)
Example refused_by_rate_limiter :
  let blocked :=
    onService (run (repeat (CheckRateLimit 100 "gemini-api") 6)) freshWorld in
  let run :=
    getTravelAnalysis (answering "{}") noJitter (Some "key"%string) string
      (parseAllBut "not json") stringifyRome id id rome blocked in
  fst run = inl (APIError msgBlocked (Some 429) (Some 900) true) /\
  calls (snd run) = 0%nat /\
  circuitBreaker (service (snd run)) = circuitBreaker (service freshWorld).
Proof. vm_compute. repeat split. Qed.

(** Without a key the answer is the mock analysis. *)
Example mock_without_key :
  getTravelAnalysis (answering "{}") noJitter None string
    (parseAllBut "not json") stringifyRome id id rome freshWorld
  = (inr (MockTravelAnalysis string rome), freshWorld).
Proof. reflexivity. Qed.

(** *** Instances *)

Lemma malformed_response_handling_witness :
  let run text :=
    getTravelAnalysis (answering text) noJitter (Some "key"%string) JsonValue
      parseSample stringifyRome id id rome freshWorld in
  (statusCode <$> match fst (run "not json") with inl e => Some e | inr _ => None end)
  = Some (Some 422) /\
  calls (snd (run "not json")) = 1%nat /\
  failures (circuitBreaker (service (snd (run "not json")))) = 2 /\
  fst (run "{}")
  = inr (TravelAnalysis JsonValue "Roma" "2025-06-01 - 2025-06-08" (JsonObject [])).
Proof.
  cbv zeta.
  epose proof (malformed_response_handling (answering "not json") noJitter
                 (Some "key"%string) JsonValue parseSample stringifyRome id id
                 rome freshWorld "key" "not json" _ eq_refl ltac:(discriminate)
                 ltac:(vm_compute; reflexivity) ltac:(vm_compute; reflexivity)
                 ltac:(vm_compute; discriminate)) as Hbad.
  epose proof (malformed_response_handling (answering "{}") noJitter
                 (Some "key"%string) JsonValue parseSample stringifyRome id id
                 rome freshWorld "key" "{}" _ eq_refl ltac:(discriminate)
                 ltac:(vm_compute; reflexivity) ltac:(vm_compute; reflexivity)
                 ltac:(vm_compute; discriminate)) as Hgood.
  cbv zeta in Hbad, Hgood.
  change (parseSample (id (trim "not json"))) with (@None JsonValue) in Hbad.
  change (parseSample (id (trim "{}"))) with (Some (JsonObject [])) in Hgood.
  cbv iota beta in Hbad, Hgood.
  destruct Hbad as (H1 & H2 & _ & _ & H5).
  rewrite H1, H2, H5, Hgood. vm_compute. done.
Defined.

(** C3, as stated, fails, on both counts.  A response that is no JSON is
    counted by the breaker: the call finds one failure on record when the
    response arrives (the one the success path records, see C2), and its
    handler leaves two.  A response that is JSON but has none of the
    properties the schema requires is not taken for malformed at all: the
    empty object is returned as the analysis. *)
Lemma malformed_response_counts_as_failure :
  let run text :=
    getTravelAnalysis (answering text) noJitter (Some "key"%string) JsonValue
      parseSample stringifyRome id id rome freshWorld in
  let requestSize := Z.of_nat (String.length (stringifyRome rome)) in
  let afterCheck :=
    onService (fun _ => snd (checkRateLimit requestSize "gemini-api" (service freshWorld)))
      freshWorld in
  let arrived :=
    snd (retryWithBackoff noJitter (generateAndRecord (answering "not json")) afterCheck) in
  fst (run "not json") = inl (APIError msgMalformed (Some 422) None false) /\
  failures (circuitBreaker (service arrived)) = 1 /\
  failures (circuitBreaker (service (snd (run "not json")))) = 2 /\
  hasRequired (JsonObject []) = false /\
  fst (run "{}")
  = inr (TravelAnalysis JsonValue "Roma" "2025-06-01 - 2025-06-08" (JsonObject [])).
Proof. vm_compute. repeat split. Qed.

(** C2, on the code, at the failing input.  The breaker is closed with four
    failures on record; the API answers the first call with a well-formed
    response and [getTravelAnalysis] returns the analysis; the call has
    recorded a failure for the success, the fifth, and the breaker is open. *)
Theorem success_is_recorded_as_failure :
  let run :=
    getTravelAnalysis (answering "{}") noJitter (Some "key"%string) string
      (parseAllBut "not json") stringifyRome id id rome fourFailures in
  circuitBreaker (service fourFailures)
  = {| failures := 4; lastFailureTime := 1000; state := CLOSED |} /\
  fst run = inr (TravelAnalysis string "Roma" "2025-06-01 - 2025-06-08" "{}") /\
  circuitBreaker (service (snd run))
  = {| failures := 5; lastFailureTime := 1200; state := OPEN |}.
Proof. vm_compute. repeat split. Qed.

(** *** Further properties of the orchestrator *)

Section GeminiMore.

Variable upstream : nat -> Attempt.
Variable random : nat -> Z.
Variable apiKey : option string.
Variable Json : Type.
Variable JSON_parse : string -> option Json.
Variable JSON_stringify : TravelAnalysisInputs -> string.
Variable sanitizeDestinationInputForSubmit : string -> string.
Variable stripJsonFence : string -> string.

Local Abbreviation getTravelAnalysis :=
  (getTravelAnalysis upstream random apiKey Json JSON_parse JSON_stringify
     sanitizeDestinationInputForSubmit stripJsonFence).
Local Abbreviation requestAndParse :=
  (requestAndParse upstream random Json JSON_parse
     sanitizeDestinationInputForSubmit stripJsonFence).
Local Abbreviation generateAndRecord := (generateAndRecord upstream).

Lemma checkRateLimit_clock requestSize ep s :
  clock (snd (checkRateLimit requestSize ep s)) = clock s.
Proof.
  rewrite checkRateLimit_unfold. cbn [snd].
  destruct (afterBlockCheck_frame s) as (Hc1 & _).
  destruct (afterBucketCheck_frame s) as (Hc2 & _).
  unfold afterCheckRateLimit.
  destruct (firstFailing requestSize s) as [[]|]; cbn; lia.
Qed.

Lemma generateAndRecord_unfold w :
  generateAndRecord w
  = let w1 := {| service := suspend (latency (upstream (calls w))) w;
                 calls := S (calls w); draws := draws w; meanwhile := meanwhile w |} in
    match answer (upstream (calls w)) with
    | inl error => (inl error, w1)
    | inr text => (inr text, onService recordFailure w1)
    end.
Proof.
  unfold GeminiService.generateAndRecord, generateContent.
  by destruct (answer (upstream (calls w))).
Qed.

(** Events that leave the breaker alone leave it as it is. *)
Lemma run_leaves_breaker_alone events : forall s,
  Forall leavesBreakerAlone events ->
  circuitBreaker (run events s) = circuitBreaker s.
Proof.
  induction events as [|e events IH]; intros s Hq; [done|].
  apply Forall_cons in Hq as [He Hq].
  change (run (e :: events) s) with (run events (step e s)).
  rewrite (IH (step e s) Hq).
  pose proof (step_breaker_frame e s) as Hf. by destruct e.
Qed.

Lemma suspend_leaves_breaker_alone duration w :
  breakerUndisturbed w ->
  circuitBreaker (suspend duration w) = circuitBreaker (service w).
Proof.
  intros Hq. unfold suspend. cbn [step]. cbn [circuitBreaker set_clock].
  apply run_leaves_breaker_alone, Hq.
Qed.

(** What the retry loop adds to the failures on record, by its outcome. *)
Definition recorded {T} (outcome : Thrown + T) : Z :=
  match outcome with
  | inr _ => 1
  | inl error => if notRetried error then 0 else 1
  end.

(** The account of a run of the retry loop over [generateAndRecord]. *)
Lemma retryLoop_account remaining : forall maxRetries baseDelay w,
  let outcome := retryLoop random generateAndRecord maxRetries baseDelay remaining w in
  let w' := snd outcome in
  (calls w < calls w' <= calls w + remaining + 1)%nat /\
  (draws w' + calls w + 1 = draws w + calls w')%nat /\
  match fst outcome with
  | inr text => answer (upstream (calls w' - 1)) = inr text
  | inl error =>
      answer (upstream (calls w' - 1)) = inl error /\
      (notRetried error = false -> calls w' = calls w + remaining + 1)%nat
  end /\
  (breakerUndisturbed w ->
   failures (circuitBreaker (service w'))
   = failures (circuitBreaker (service w)) + recorded (fst outcome)).
Proof.
  induction remaining as [|remaining IH]; intros maxRetries baseDelay w; cbv zeta;
    cbn [retryLoop]; rewrite generateAndRecord_unfold; cbv zeta.
  - destruct (answer (upstream (calls w))) as [error|text] eqn:Ea; cbn [fst snd].
    + destruct (notRetried error) eqn:En;
        cbn [fst snd calls draws service onService recorded];
        rewrite ?Nat.sub_succ, ?Nat.sub_0_r, ?Ea, ?En;
        (split; [lia|]); (split; [lia|]); (split; [split; [done | intros; lia]|]);
        intros Hq; cbn [recordFailure circuitBreaker set_circuitBreaker failures];
        rewrite (suspend_leaves_breaker_alone _ _ Hq); lia.
    + cbn [fst snd calls draws service onService recorded].
      rewrite ?Nat.sub_succ, ?Nat.sub_0_r, ?Ea.
      split; [lia|]. split; [lia|]. split; [done|].
      intros Hq. cbn [recordFailure circuitBreaker set_circuitBreaker failures].
      rewrite (suspend_leaves_breaker_alone _ _ Hq). lia.
  - destruct (answer (upstream (calls w))) as [error|text] eqn:Ea; cbn [fst snd].
    + destruct (notRetried error) eqn:En;
        cbn [fst snd calls draws service onService recorded].
      * rewrite ?Nat.sub_succ, ?Nat.sub_0_r, ?Ea, ?En.
        split; [lia|]. split; [lia|]. split; [split; [done | discriminate]|].
        intros Hq. rewrite (suspend_leaves_breaker_alone _ _ Hq). lia.
      * match goal with |- context [retryLoop _ _ _ _ _ ?w1] =>
          specialize (IH maxRetries baseDelay w1); set (slept := w1) in *
        end.
        cbv zeta in IH. destruct IH as (Hc & Hd & Hr & Hf).
        assert (calls slept = S (calls w)) as Hcs by done.
        assert (draws slept = S (draws w)) as Hds by done.
        assert (breakerUndisturbed w -> breakerUndisturbed slept) as Hqs by done.
        assert (breakerUndisturbed w ->
                failures (circuitBreaker (service slept))
                = failures (circuitBreaker (service w))) as Hfs.
        { intros Hq. unfold slept, sleep. cbn [service].
          rewrite suspend_leaves_breaker_alone by exact Hq.
          cbn [service]. by rewrite suspend_leaves_breaker_alone by exact Hq. }
        rewrite Hcs, Hds in *.
        split; [lia|]. split; [lia|]. split.
        -- destruct (fst (retryLoop _ _ _ _ _ slept)) as [e|t]; [|done].
           destruct Hr as [Ha Hr]. split; [done|]. intros Hn. specialize (Hr Hn). lia.
        -- intros Hq. rewrite (Hf (Hqs Hq)), (Hfs Hq). done.
    + cbn [fst snd calls draws service onService recorded].
      rewrite ?Nat.sub_succ, ?Nat.sub_0_r, ?Ea.
      split; [lia|]. split; [lia|]. split; [done|].
      intros Hq. cbn [recordFailure circuitBreaker set_circuitBreaker failures].
      rewrite (suspend_leaves_breaker_alone _ _ Hq). lia.
Qed.

(** X23.  The account of [retryWithBackoff] over the operation of
    [getTravelAnalysis], whatever else happens while the caller is
    suspended.  It calls the API between one and four times and waits once
    between two calls, so one time less than it calls; what it returns or
    throws is the outcome of its last call; when it throws an error that it
    retries, it has made all four calls.  If nothing touches the breaker
    while the caller is suspended - no other caller records a failure and
    the breaker's timer does not run - the loop leaves one failure more on
    record when it succeeds (the operation records one, see C2) or throws a
    retryable error, and the count as it was when it throws an error that is
    not retried. *)
Theorem retry_loop_account w :
  let outcome := retryWithBackoff random generateAndRecord w in
  let w' := snd outcome in
  (1 <= calls w' - calls w <= 4)%nat /\
  (draws w' - draws w = calls w' - calls w - 1)%nat /\
  match fst outcome with
  | inr text => answer (upstream (calls w' - 1)) = inr text
  | inl error =>
      answer (upstream (calls w' - 1)) = inl error /\
      (notRetried error = false -> calls w' = calls w + 4)%nat
  end /\
  (breakerUndisturbed w ->
   failures (circuitBreaker (service w'))
   = failures (circuitBreaker (service w)) + recorded (fst outcome)).
Proof.
  cbv zeta. unfold retryWithBackoff.
  pose proof (retryLoop_account 3 3 1000 w) as H. cbv zeta in H.
  destruct H as (Hc & Hd & Hr & Hf).
  split; [lia|]. split; [lia|]. split; [|exact Hf].
  destruct (fst (retryLoop _ _ _ _ _ w)) as [e|t]; [|done].
  destruct Hr as [Ha Hr]. split; [done|]. intros Hn. specialize (Hr Hn). lia.
Qed.


Lemma admission_reason requestSize s :
  allowed (admission requestSize s) = false ->
  exists why, reason (admission requestSize s) = Some why /\ why <> ""%string.
Proof.
  unfold admission.
  destruct (firstFailing requestSize s) as [[]|]; cbn; intros H;
    try discriminate H; eexists; (split; [reflexivity|]); discriminate.
Qed.

(** X24.  When the admission check refuses the request,
    [getTravelAnalysis] throws an [APIError] with the reason of the check as
    its message, status 429, the [retryAfter] of the check, and the rate
    limit flag set; it has made no call to the API and taken no backoff
    wait, no time has passed, and the breaker is as it was. *)
Theorem refusal_by_the_rate_limiter inputs w key :
  let requestSize := Z.of_nat (String.length (JSON_stringify inputs)) in
  let answer := fst (checkRateLimit requestSize "gemini-api" (service w)) in
  let after := snd (getTravelAnalysis inputs w) in
  apiKey = Some key -> key <> ""%string ->
  allowed answer = false ->
  (exists why,
     reason answer = Some why /\
     fst (getTravelAnalysis inputs w)
     = inl (APIError why (Some 429) (retryAfter answer) true)) /\
  calls after = calls w /\ draws after = draws w /\
  clock (service after) = clock (service w) /\
  circuitBreaker (service after) = circuitBreaker (service w).
Proof.
  cbv zeta. intros -> Hk Hno. unfold GeminiService.getTravelAnalysis.
  destruct key as [|c key]; [done|].
  pose proof (checkRateLimit_breaker (Z.of_nat (String.length (JSON_stringify inputs)))
                "gemini-api" (service w)) as Hb.
  pose proof (checkRateLimit_unfold (Z.of_nat (String.length (JSON_stringify inputs)))
                "gemini-api" (service w)) as Hu.
  pose proof (checkRateLimit_clock (Z.of_nat (String.length (JSON_stringify inputs)))
                "gemini-api" (service w)) as Hc.
  destruct (checkRateLimit _ _ (service w)) as [r svc]. cbn [fst snd] in *.
  injection Hu as Hr _. rewrite Hno. cbn [negb fst snd].
  rewrite Hr in Hno. destruct (admission_reason _ _ Hno) as (why & Hwhy & Hne).
  rewrite <- Hr in Hwhy.
  split; [|done].
  exists why. split; [done|]. rewrite Hwhy. by destruct why.
Qed.


Lemma handleError_spec error w :
  let thrown := fst (handleError error w) in
  snd (handleError error w) = onService recordFailure w /\
  errorClass thrown = IsAPIError /\
  (thrown = error \/
   thrown = APIError msgMalformed (Some 422) None false \/
   thrown = APIError msgQuota (Some 429) (Some 300) true \/
   thrown = APIError msgUnreachable (Some 503) None false).
Proof.
  cbv zeta. unfold handleError.
  destruct (ErrorClass_eqb (errorClass error) IsAPIError) eqn:E1.
  { cbn. split; [done|]. split; [by destruct (errorClass error) | by left]. }
  destruct (ErrorClass_eqb (errorClass error) IsSyntaxError).
  { cbn. split; [done|]. split; [done|]. right. by left. }
  destruct (includes "quota" _ || includes "rate" _ || includes "limit" _); cbn;
    (split; [done|]); (split; [done|]); right; right; [by left | by right].
Qed.

(** X25.  Whatever [getTravelAnalysis] throws is an [APIError]: one that
    the API itself threw, or one of its own making - status 429 with the rate
    limit flag (a refusal of the admission check, or an error whose message
    mentions quota, rate or limit), status 422 for a malformed response, or
    status 503 for everything else. *)
Theorem only_APIError_is_thrown inputs w thrown :
  fst (getTravelAnalysis inputs w) = inl thrown ->
  errorClass thrown = IsAPIError /\
  ((exists n, answer (upstream n) = inl thrown) \/
   (statusCode thrown = Some 429 /\ isRateLimited thrown = true) \/
   (statusCode thrown = Some 422 /\ message thrown = msgMalformed) \/
   (statusCode thrown = Some 503 /\ message thrown = msgUnreachable)).
Proof.
  unfold GeminiService.getTravelAnalysis.
  destruct apiKey as [[|c key]|]; [discriminate| |discriminate].
  destruct (checkRateLimit _ _ (service w)) as [r svc].
  destruct (negb (allowed r)).
  { cbn. intros [= <-]. split; [done|]. right. left. done. }
  unfold GeminiService.requestAndParse.
  unfold retryWithBackoff.
  match goal with |- context [retryLoop _ _ _ _ _ ?w1] =>
    pose proof (retryLoop_account 3 3 1000 w1) as Hacc; cbv zeta in Hacc;
    destruct (retryLoop random generateAndRecord 3 1000 3 w1) as [[error|response] w2]
  end; cbn [fst snd] in *.
  - destruct Hacc as (_ & _ & [Hup _] & _).
    destruct (handleError_spec error w2) as (_ & Hclass & Hwhich).
    destruct (handleError error w2) as [e w3]. cbn [fst snd] in *.
    intros [= <-]. split; [done|].
    destruct Hwhich as [-> | [-> | [-> | ->]]]; eauto 6.
  - destruct (trim <$> response) as [[|c' rest]|].
    + destruct (handleError_spec (Error msgEmpty) w2) as (_ & Hclass & Hwhich).
      destruct (handleError (Error msgEmpty) w2) as [e w3]. cbn [fst snd] in *.
      intros [= <-]. split; [done|].
      destruct Hwhich as [-> | [-> | [-> | ->]]]; [discriminate Hclass|..]; eauto 6.
    + destruct (JSON_parse _); [discriminate|].
      cbn. intros [= <-]. split; [done|]. do 2 right. by left.
    + destruct (handleError_spec (Error msgEmpty) w2) as (_ & Hclass & Hwhich).
      destruct (handleError (Error msgEmpty) w2) as [e w3]. cbn [fst snd] in *.
      intros [= <-]. split; [done|].
      destruct Hwhich as [-> | [-> | [-> | ->]]]; [discriminate Hclass|..]; eauto 6.
Qed.

(** X26.  Every call of [getTravelAnalysis] that passes the admission
    check calls the API between one and four times, whatever else happens
    while it is suspended.  If nothing touches the breaker while it is
    suspended - no other caller records a failure and the breaker's timer
    does not run - it leaves the breaker with more failures on record than
    before: exactly one more when it returns an analysis, one or two more
    when it throws. *)
Theorem every_call_let_through_counts_as_failure inputs w key :
  let requestSize := Z.of_nat (String.length (JSON_stringify inputs)) in
  let before := failures (circuitBreaker (service w)) in
  let after := snd (getTravelAnalysis inputs w) in
  apiKey = Some key -> key <> ""%string ->
  allowed (fst (checkRateLimit requestSize "gemini-api" (service w))) = true ->
  (1 <= calls after - calls w <= 4)%nat /\
  (breakerUndisturbed w ->
   match fst (getTravelAnalysis inputs w) with
   | inr _ => failures (circuitBreaker (service after)) = before + 1
   | inl _ => before + 1 <= failures (circuitBreaker (service after)) <= before + 2
   end).
Proof.
  cbv zeta. intros Hkey Hk Hal.
  rewrite (getTravelAnalysis_allowed upstream random apiKey Json JSON_parse JSON_stringify
             sanitizeDestinationInputForSubmit stripJsonFence inputs w key) by done.
  cbv zeta. unfold GeminiService.requestAndParse, retryWithBackoff.
  set (afterCheck := onService _ w).
  assert (failures (circuitBreaker (service afterCheck)) = failures (circuitBreaker (service w)))
    as Hsame by (unfold afterCheck; cbn; by rewrite checkRateLimit_breaker).
  assert (calls afterCheck = calls w) as Hcalls by done.
  assert (breakerUndisturbed w -> breakerUndisturbed afterCheck) as Hqs by done.
  pose proof (retryLoop_account 3 3 1000 afterCheck) as Hacc. cbv zeta in Hacc.
  destruct (retryLoop random generateAndRecord 3 1000 3 afterCheck)
    as [[error|response] w2];
    cbn [fst snd recorded] in *; destruct Hacc as (Hc & _ & _ & Hf);
    rewrite Hcalls, Hsame in *.
  - destruct (handleError_spec error w2) as (-> & _ & _). cbn [fst snd calls service onService].
    rewrite recordFailure_failures. split; [lia|].
    intros Hq. rewrite (Hf (Hqs Hq)). destruct (notRetried error); lia.
  - destruct (trim <$> response) as [[|c' rest]|].
    + destruct (handleError_spec (Error msgEmpty) w2) as (-> & _ & _).
      cbn [fst snd calls service onService]. rewrite recordFailure_failures.
      split; [lia|]. intros Hq. rewrite (Hf (Hqs Hq)). lia.
    + destruct (JSON_parse _).
      * cbn [fst snd]. split; [lia|]. intros Hq. by rewrite (Hf (Hqs Hq)).
      * destruct (handleError_spec SyntaxError w2) as (-> & _ & _).
        cbn [fst snd calls service onService]. rewrite recordFailure_failures.
        split; [lia|]. intros Hq. rewrite (Hf (Hqs Hq)). lia.
    + destruct (handleError_spec (Error msgEmpty) w2) as (-> & _ & _).
      cbn [fst snd calls service onService]. rewrite recordFailure_failures.
      split; [lia|]. intros Hq. rewrite (Hf (Hqs Hq)). lia.
Qed.

(** X27.  An empty response.  When the API answers a call that passed the
    admission check with a response that has no text, or whose text is
    empty once trimmed, [getTravelAnalysis] throws the [APIError] of an
    unreachable service, status 503, not rate limited - the message of the
    empty-response error does not reach the caller - and the handler records
    a failure on top of what the retry loop left. *)
Theorem empty_response_reported_as_unreachable inputs w key response afterResponse :
  let requestSize := Z.of_nat (String.length (JSON_stringify inputs)) in
  let afterCheck :=
    onService (fun _ => snd (checkRateLimit requestSize "gemini-api" (service w))) w in
  apiKey = Some key -> key <> ""%string ->
  allowed (fst (checkRateLimit requestSize "gemini-api" (service w))) = true ->
  retryWithBackoff random generateAndRecord afterCheck = (inr response, afterResponse) ->
  response = None \/ (exists text, response = Some text /\ trim text = ""%string) ->
  getTravelAnalysis inputs w
  = (inl (APIError msgUnreachable (Some 503) None false),
     onService recordFailure afterResponse).
Proof.
  cbv zeta. intros Hkey Hk Hal Hretry Hempty.
  rewrite (getTravelAnalysis_allowed upstream random apiKey Json JSON_parse JSON_stringify
             sanitizeDestinationInputForSubmit stripJsonFence inputs w key) by done.
  cbv zeta. unfold GeminiService.requestAndParse. rewrite Hretry.
  assert (trim <$> response = None \/ trim <$> response = Some ""%string) as Ht.
  { destruct Hempty as [->|(text & -> & Ht)]; [by left | right; cbn; by rewrite Ht]. }
  destruct Ht as [-> | ->]; reflexivity.
Qed.

End GeminiMore.

Lemma refusal_by_the_rate_limiter_witness :
  let blocked :=
    onService (run (repeat (CheckRateLimit 100 "gemini-api") 6)) freshWorld in
  let run :=
    getTravelAnalysis (answering "{}") noJitter (Some "key"%string) string
      (parseAllBut "not json") stringifyRome id id rome blocked in
  calls (snd run) = 0%nat /\
  circuitBreaker (service (snd run)) = circuitBreaker (service blocked).
Proof.
  cbv zeta.
  destruct (refusal_by_the_rate_limiter (answering "{}") noJitter (Some "key"%string)
              string (parseAllBut "not json") stringifyRome id id rome
              (onService (run (repeat (CheckRateLimit 100 "gemini-api") 6)) freshWorld)
              "key" eq_refl ltac:(discriminate) ltac:(vm_compute; reflexivity))
    as (_ & H1 & _ & _ & H2).
  split; [exact H1 | exact H2].
Defined.

Lemma only_APIError_is_thrown_witness :
  errorClass (APIError msgUnreachable (Some 503) None false) = IsAPIError.
Proof.
  exact (proj1 (only_APIError_is_thrown (failing "fetch failed") noJitter
                  (Some "key"%string) string (parseAllBut "not json") stringifyRome id id
                  rome freshWorld (APIError msgUnreachable (Some 503) None false)
                  ltac:(vm_compute; reflexivity))).
Defined.

Lemma every_call_let_through_counts_as_failure_witness :
  let run :=
    getTravelAnalysis (answering "{}") noJitter (Some "key"%string) string
      (parseAllBut "not json") stringifyRome id id rome freshWorld in
  (1 <= calls (snd run) - calls freshWorld <= 4)%nat /\
  failures (circuitBreaker (service (snd run)))
  = failures (circuitBreaker (service freshWorld)) + 1.
Proof.
  cbv zeta.
  destruct (every_call_let_through_counts_as_failure (answering "{}") noJitter
              (Some "key"%string) string (parseAllBut "not json") stringifyRome id id
              rome freshWorld "key" eq_refl ltac:(discriminate)
              ltac:(vm_compute; reflexivity)) as [Hcalls Hcount].
  split; [exact Hcalls|].
  exact (Hcount ltac:(intros n; constructor)).
Defined.

Lemma retry_loop_account_witness :
  let w' := snd (retryWithBackoff noJitter (generateAndRecord (failing "fetch failed"))
                   freshWorld) in
  breakerUndisturbed freshWorld /\
  calls w' = 4%nat /\ draws w' = 3%nat /\
  failures (circuitBreaker (service w')) = 1.
Proof.
  cbv zeta.
  assert (breakerUndisturbed freshWorld) as Hq by (intros n; constructor).
  split; [exact Hq|]. split; [reflexivity|]. split; [reflexivity|].
  destruct (retry_loop_account (failing "fetch failed") noJitter freshWorld)
    as (_ & _ & _ & Hf).
  rewrite (Hf Hq). reflexivity.
Defined.

(** The proviso is needed: the breaker's timer, coming due while the call of
    the API is pending, closes a half-open breaker and resets its count, and
    the call, which succeeds, leaves one failure on record where there were
    five. *)
Example timer_during_call_resets_the_count :
  let run :=
    getTravelAnalysis (answering "{}") noJitter (Some "key"%string) string
      (parseAllBut "not json") stringifyRome id id rome timerDuringCall in
  circuitBreaker (service timerDuringCall)
  = {| failures := 5; lastFailureTime := 0; state := HALF_OPEN |} /\
  fst run = inr (TravelAnalysis string "Roma" "2025-06-01 - 2025-06-08" "{}") /\
  circuitBreaker (service (snd run))
  = {| failures := 1; lastFailureTime := 660200; state := CLOSED |}.
Proof. vm_compute. repeat split. Qed.

Lemma empty_response_reported_as_unreachable_witness :
  fst (getTravelAnalysis (answering "  ") noJitter (Some "key"%string) string
         (parseAllBut "not json") stringifyRome id id rome freshWorld)
  = inl (APIError msgUnreachable (Some 503) None false).
Proof.
  erewrite (empty_response_reported_as_unreachable (answering "  ") noJitter
              (Some "key"%string) string (parseAllBut "not json") stringifyRome id id
              rome freshWorld "key" (Some "  "%string));
    [reflexivity | reflexivity | discriminate | vm_compute; reflexivity
    | vm_compute; reflexivity | right; exists "  "%string; split; reflexivity].
Defined.

(** ** The sanitizers *)

Section SecurityProofs.
Import SecurityConfig.

Lemma substring0_length n s : (String.length (substring0 n s) <= n)%nat.
Proof.
  unfold substring0. revert s. induction n as [|n IH]; intros [|c s]; cbn; try lia.
  specialize (IH s). lia.
Qed.

Lemma substring0_short n s : (String.length s <= n)%nat -> substring0 n s = s.
Proof.
  unfold substring0. revert s. induction n as [|n IH]; intros [|c s]; cbn; try done; try lia.
  intros H. f_equal. apply IH. lia.
Qed.

Lemma removeAll_length pattern s :
  (String.length (removeAll pattern s) <= String.length s)%nat.
Proof. induction s as [|c s IH]; cbn; [lia|]. destruct (pattern c); cbn; lia. Qed.

Lemma removeAll_clean pattern s :
  Forall (fun c => pattern c = false) (characters (removeAll pattern s)).
Proof.
  induction s as [|c s IH]; cbn; [constructor|].
  destruct (pattern c) eqn:E; [done|]. cbn. by constructor.
Qed.

Lemma removeAll_fixed pattern s :
  Forall (fun c => pattern c = false) (characters s) -> removeAll pattern s = s.
Proof.
  induction s as [|c s IH]; cbn; [done|].
  intros [Hc Hs]%Forall_cons. rewrite Hc. f_equal. by apply IH.
Qed.

(** X28.  What the three sanitizers return is never longer than 100
    characters and holds none of the characters of their pattern: no angle
    bracket, quote or ampersand for [sanitizeInput]; no angle bracket, double
    quote, slash, backslash, brace, bar, square bracket, backquote or caret
    for the two sanitizers of destinations. *)
Theorem sanitizers_cut_and_clean input :
  ((String.length (sanitizeInput input) <= 100)%nat /\
   Forall (fun c => sanitizePattern c = false) (characters (sanitizeInput input))) /\
  ((String.length (sanitizeDestinationInput input) <= 100)%nat /\
   Forall (fun c => destinationSanitizePattern c = false)
          (characters (sanitizeDestinationInput input))) /\
  ((String.length (sanitizeDestinationInputForSubmit input) <= 100)%nat /\
   Forall (fun c => destinationSanitizePattern c = false)
          (characters (sanitizeDestinationInputForSubmit input))).
Proof.
  unfold sanitizeInput, sanitizeDestinationInput, sanitizeDestinationInputForSubmit.
  repeat split; try apply removeAll_clean;
    (etrans; [apply removeAll_length | apply substring0_length]).
Qed.

(** X29.  [sanitizeDestinationInput], applied on every keystroke, leaves
    its own output alone.  [sanitizeDestinationInputForSubmit] does not: it
    trims before it removes, so that what it returns can begin with blanks
    that a second pass takes away. *)
Theorem sanitizeDestinationInput_idempotent input :
  sanitizeDestinationInput (sanitizeDestinationInput input) = sanitizeDestinationInput input /\
  sanitizeDestinationInputForSubmit (sanitizeDestinationInputForSubmit "<  Roma")
  <> sanitizeDestinationInputForSubmit "<  Roma".
Proof.
  split; [|vm_compute; discriminate].
  unfold sanitizeDestinationInput at 1.
  rewrite substring0_short.
  - apply removeAll_fixed, removeAll_clean.
  - unfold sanitizeDestinationInput.
    etrans; [apply removeAll_length | apply substring0_length].
Qed.

End SecurityProofs.

(** ** The limiter of the proxy *)

Section GeocodingProofs.
Import Geocoding.

Lemma window_full n : forall k : nat,
  30 <= Z.of_nat k ->
  map (fun i => (Z.of_nat i <? 30)) (seq k n) = repeat false n.
Proof.
  induction n as [|n IH]; intros k Hk; cbn [seq map repeat]; [done|].
  f_equal; [apply Z.ltb_ge; lia|]. apply IH. lia.
Qed.

(** Within a window that has seen [k] requests. *)
Lemma checkRateLimitAt_within times : forall ip store (k : nat) reset,
  store !! ("rate_limit:" +:+ ip)%string = Some {| count := Z.of_nat k; resetTime := reset |} ->
  Forall (fun now => now <= reset) times ->
  fst (checkRateLimitAt times ip store)
  = map (fun i => (Z.of_nat i <? 30)) (seq k (length times)).
Proof.
  induction times as [|now times IH]; intros ip store k reset Hl Hw; cbn [checkRateLimitAt];
    [done|].
  apply Forall_cons in Hw as [Hnow Hw].
  unfold checkRateLimit. rewrite Hl. cbn [resetTime count].
  destruct (now >? reset) eqn:E; [lia|].
  change maxRequests with 30.
  destruct (Z.of_nat k >=? 30) eqn:Ek.
  - specialize (IH ip store k reset Hl Hw).
    destruct (checkRateLimitAt times ip store) as [oks store'] eqn:Er. cbn [fst] in *.
    cbn [length seq map]. f_equal; [symmetry; apply Z.ltb_ge; lia|]. rewrite IH.
    rewrite !window_full by lia. done.
  - match goal with |- context [checkRateLimitAt times ip ?s] =>
      specialize (IH ip s (S k) reset) end.
    rewrite lookup_insert_eq in IH.
    specialize (IH ltac:(do 2 f_equal; lia) Hw).
    match goal with |- context [checkRateLimitAt times ip ?s] =>
      destruct (checkRateLimitAt times ip s) as [oks store'] end.
    cbn [fst] in *. cbn [length seq map]. f_equal; [symmetry; apply Z.ltb_lt; lia | exact IH].
Qed.

(** X30.  The limiter of the proxy lets through 30 requests a window.
    When an address has no window on record, or one that has run out, its
    next request opens a window of one minute; of the requests of the
    address that come no later than the end of that window, in whatever
    order, the first 29 are let through with the one that opened it, and
    all the others are refused. *)
Theorem geocoding_fixed_window first rest ip store :
  windowOver first ip store ->
  Forall (fun now => now <= first + 60000) rest ->
  fst (checkRateLimitAt (first :: rest) ip store)
  = map (fun i => (Z.of_nat i <? 30)) (seq 0 (S (length rest))).
Proof.
  intros Hover Hw. cbn [checkRateLimitAt].
  assert (checkRateLimit first ip store
          = (true, <[("rate_limit:" +:+ ip)%string :=
                       {| count := 1; resetTime := first + windowMs |}]> store)) as ->.
  { unfold checkRateLimit, windowOver in *.
    destruct (store !! ("rate_limit:" +:+ ip)%string) as [record|]; [|done].
    destruct (first >? resetTime record) eqn:E; [done | lia]. }
  pose proof (checkRateLimitAt_within rest ip
                (<[("rate_limit:" +:+ ip)%string :=
                     {| count := 1; resetTime := first + windowMs |}]> store)
                1 (first + 60000)) as H.
  rewrite lookup_insert_eq in H. specialize (H eq_refl Hw).
  destruct (checkRateLimitAt rest ip _) as [oks store'].
  cbn [fst] in *. cbn [seq map]. f_equal. exact H.
Qed.

Lemma geocoding_fixed_window_witness :
  fst (checkRateLimitAt (0 :: repeat 60000 30) "10.0.0.1" ∅)
  = repeat true 30 ++ [false].
Proof.
  rewrite (geocoding_fixed_window 0 (repeat 60000 30) "10.0.0.1" ∅).
  - reflexivity.
  - exact I.
  - apply Forall_forall. intros t Ht%list_elem_of_In%repeat_spec. lia.
Defined.

End GeocodingProofs.
